(** * Joint-space planning helpers of [scripts/load_robot.py]

    A shallow embedding of the numeric core of [LoadRobot]: the joint
    normaliser [clip_joint_vals], the interpolators [linear_interp_path],
    [cubic_interp_path], [task_and_joint_interp] and [task_space_path_interp],
    the resampler [sample_path_to_length] behind [rrt_path], the pose check
    [check_pose_within_tolerance], the manipulability measure
    [calculate_manipulability], the bounding-box test [check_collision_aabb]
    and the joint bookkeeping of [setup_robot].

    Conventions.  The source computes on numpy arrays of IEEE doubles; joint
    values, poses and tolerances are taken here as real numbers ([R]), so
    [np.pi] is [PI] and every arithmetic operation is exact.  A 1-D array is a
    [list R], a 2-D array a list of rows.  Python integers ([steps]) are [Z];
    [//] and [%] with a positive divisor are [Z.div] and [Z.modulo].  A call
    that raises (a numpy shape mismatch, a negative sample count, an index out
    of range) returns [None].  Where a computation leaves the real numbers (a
    division by the zero norm of a quaternion, the square root of a negative
    number) its value is nan; the functions concerned say how they write
    it.  The simulator and the planner are collaborators outside this module
    and appear as parameters. *)

From Stdlib Require Import Reals Lra Lia List ZArith Bool Sorted.
Import ListNotations.
Open Scope R_scope.

(** ** numpy primitives *)

Module Np.

(** [np.where(x < lo, x + d, x)] and [np.where(x > hi, x - d, x)] on one
    element. *)
Definition where_lt (lo d x : R) : R := if Rlt_dec x lo then x + d else x.
Definition where_gt (hi d x : R) : R := if Rgt_dec x hi then x - d else x.

(** [np.linspace(start, stop, num)] for [num >= 0]: [num] evenly spaced
    samples, the last one set to [stop] itself when [num > 1]. *)
Definition linspace (start stop : R) (num : nat) : list R :=
  match num with
  | O => []
  | S O => [start]
  | S (S k as m) =>
      map (fun i => start + INR i * ((stop - start) / INR m)) (seq 0 m)
      ++ [stop]
  end.

(** [np.linspace] with a Python integer count: a negative count raises
    [ValueError]. *)
Definition linspace_z (start stop : R) (num : Z) : option (list R) :=
  if (num <? 0)%Z then None else Some (linspace start stop (Z.to_nat num)).

(** Python's [zip] over an unpacked list of columns: the rows, as many as the
    shortest column has entries, and none at all when there is no column. *)
Fixpoint zip_star (cols : list (list R)) : list (list R) :=
  match cols with
  | [] => []
  | [c] => map (fun x => [x]) c
  | c :: rest => map (fun p => fst p :: snd p) (combine c (zip_star rest))
  end.

(** [a * x + b * y] on two rows of equal width. *)
Definition blend (a b : R) (x y : list R) : list R :=
  map (fun p => a * fst p + b * snd p) (combine x y).

(** [m[i, :] = row] for an index already resolved against the row count. *)
Fixpoint set_row (m : list (list R)) (i : nat) (row : list R) : list (list R) :=
  match m, i with
  | [], _ => []
  | _ :: t, O => row :: t
  | h :: t, S j => h :: set_row t j row
  end.

(** A Python index into a sequence of [len] items: [-1] is the last one, and an
    index outside [-len, len) raises [IndexError]. *)
Definition py_index (len : nat) (i : Z) : option nat :=
  if ((0 <=? i) && (i <? Z.of_nat len))%Z then Some (Z.to_nat i)
  else if ((- Z.of_nat len <=? i) && (i <? 0))%Z
       then Some (Z.to_nat (Z.of_nat len + i))
       else None.

(** Broadcasting a 1-D value into a row of [width] entries: its own shape, or
    a single entry repeated; any other shape raises [ValueError]. *)
Definition broadcast_to (width : nat) (v : list R) : option (list R) :=
  if Nat.eqb (length v) width then Some v
  else match v with
       | [x] => Some (repeat x width)
       | _ => None
       end.

(** [m[i, :] = v] with Python indexing and numpy broadcasting. *)
Definition assign_row (width : nat) (m : list (list R)) (i : Z) (v : list R)
  : option (list (list R)) :=
  match py_index (length m) i, broadcast_to width v with
  | Some k, Some row => Some (set_row m k row)
  | _, _ => None
  end.

(** [m[i, :]] read with Python indexing. *)
Definition get_row (m : list (list R)) (i : Z) : option (list R) :=
  match py_index (length m) i with
  | Some k => nth_error m k
  | None => None
  end.

(** [range(lo, hi)]. *)
Definition range (lo hi : Z) : list Z :=
  map (fun k => (lo + Z.of_nat k)%Z) (seq 0 (Z.to_nat (hi - lo))).

(** [np.zeros((rows, cols))]. *)
Definition zeros (rows cols : nat) : list (list R) :=
  repeat (repeat 0 cols) rows.

(** [np.linspace(a, b, num)] with 1-D endpoints of one shape: row [i] is
    [a + i * ((b - a) / (num - 1))], the last row set to [b]. *)
Definition linspace_vec (a b : list R) (num : nat) : list (list R) :=
  match num with
  | O => []
  | S O => [a]
  | S (S k as m) =>
      map (fun i => map (fun p => fst p + INR i * ((snd p - fst p) / INR m))
                        (combine a b))
          (seq 0 m)
      ++ [b]
  end.

(** [np.interp(x, xp, fp)] for one abscissa and increasing [xp]: [fp] held
    constant outside [xp], and [slope * (x - xp[j]) + fp[j]] on the interval
    that holds [x]. *)
Fixpoint interp1 (x : R) (xp fp : list R) : R :=
  match xp, fp with
  | x0 :: ((x1 :: _) as xp'), f0 :: ((f1 :: _) as fp') =>
      if Rlt_dec x x1
      then if Rle_dec x x0 then f0
           else (f1 - f0) / (x1 - x0) * (x - x0) + f0
      else interp1 x xp' fp'
  | _, f0 :: _ => f0
  | _, [] => 0
  end.

Definition interp (xs xp fp : list R) : list R :=
  map (fun x => interp1 x xp fp) xs.

(** [np.arange(n)] as reals. *)
Definition arange (n : nat) : list R := map INR (seq 0 n).

(** [np.clip(v, lo, hi)]. *)
Definition clip (v lo hi : R) : R := Rmin (Rmax v lo) hi.

(** A comparison as a Python boolean. *)
Definition leb (a b : R) : bool := if Rle_dec a b then true else false.

(** All results of a list of calls, or the first exception. *)
Fixpoint sequence {A : Type} (l : list (option A)) : option (list A) :=
  match l with
  | [] => Some []
  | None :: _ => None
  | Some a :: t => option_map (cons a) (sequence t)
  end.

(** [np.vstack] of 2-D blocks, given as the list of all their rows: the rows
    must have one width. *)
Definition vstack (rows : list (list R)) : option (list (list R)) :=
  match rows with
  | [] => None
  | r :: rs =>
      if forallb (fun r' => Nat.eqb (length r') (length r)) rs
      then Some rows
      else None
  end.

(** The sum of the products of the entries of two 1-D arrays of one length. *)
Fixpoint dot (u v : list R) : R :=
  match u, v with
  | x :: u', y :: v' => x * y + dot u' v'
  | _, _ => 0
  end.

(** [a @ b.T] for two 2-D arrays of one width: entry [(i, j)] is the product
    of row [i] of [a] and row [j] of [b]. *)
Definition matmul_T (a b : list (list R)) : list (list R) :=
  map (fun ra => map (dot ra) b) a.

(** [np.linalg.det] of a square matrix, by expansion along column 0:
    [m[0][0] * det(minor 0) - m[1][0] * det(minor 1) + ...], the minor of row
    [i] being what is left of [m] without row [i] and column 0.  In
    [cofactors], [pre] holds the rows before the current one; [det_n] is the
    determinant of a matrix of [n] rows, and the empty matrix has determinant
    1. *)
Fixpoint cofactors (d : list (list R) -> R) (pre post : list (list R)) : R :=
  match post with
  | [] => 0
  | r :: post' =>
      hd 0 r * d (map (@tl R) (pre ++ post')) - cofactors d (pre ++ [r]) post'
  end.

Fixpoint det_n (n : nat) (m : list (list R)) : R :=
  match n with
  | O => match m with [] => 1 | _ => 0 end
  | S k => cofactors (det_n k) [] m
  end.

Definition det (m : list (list R)) : R := det_n (length m) m.

(** [np.sqrt]: nan ([None]) below zero. *)
Definition sqrt (x : R) : option R :=
  if Rle_dec 0 x then Some (R_sqrt.sqrt x) else None.

End Np.

(** ** [clip_joint_vals] *)

Definition limit : R := 3.

(** One component of [clip_joint_vals]: first [+ 2 pi] below [-limit], then
    [- 2 pi] above [limit], the second test reading the result of the
    first. *)
Definition clip_joint_val (x : R) : R :=
  Np.where_gt limit (2 * PI) (Np.where_lt (- limit) (2 * PI) x).

Definition clip_joint_vals (joint_config : list R) : list R :=
  map clip_joint_val joint_config.

(** The same function on a 2-D array ([np.where] is elementwise). *)
Definition clip_joint_vals2 (m : list (list R)) : list (list R) :=
  map clip_joint_vals m.

(** The joint values that [clip_joint_val] sends into [[-limit, limit]]: the
    window itself and its two translates by one revolution. *)
Definition clips_into_window (x : R) : Prop :=
  -3 - 2 * PI <= x <= 3 - 2 * PI \/ -3 <= x <= 3 \/
  2 * PI - 3 <= x <= 2 * PI + 3.

(** Exceptions are threaded through [option]. *)
Notation "x <- c ;; k" := (match c with Some x => k | None => None end)
  (at level 61, c at next level, right associativity).

(** ** [linear_interp_path] *)

(** Each joint is interpolated on its own with [np.linspace]; the columns are
    then zipped into configurations. *)
Definition linear_interp_path (start_positions end_positions : list R)
    (steps : Z) (limit_joints : bool) : option (list (list R)) :=
  let start_positions :=
    if limit_joints then clip_joint_vals start_positions else start_positions in
  let end_positions :=
    if limit_joints then clip_joint_vals end_positions else end_positions in
  interpolated_joint_angles <-
    Np.sequence (map (fun p => Np.linspace_z (fst p) (snd p) steps)
                     (combine start_positions end_positions)) ;;
  Some (Np.zip_star interpolated_joint_angles).

(** A sequence of joint values that moves from [a] to [b] without turning
    back: entries stay between the two, in one direction. *)
Definition monotonic_between (a b : R) (l : list R) : Prop :=
  forall i i' x y, (i <= i')%nat ->
    nth_error l i = Some x -> nth_error l i' = Some y ->
    (a <= b -> a <= x /\ x <= y /\ y <= b) /\
    (b <= a -> b <= y /\ y <= x /\ x <= a).

(** ** [cubic_interp_path] *)

(** [CubicSpline([0, 1], [y0, y1], bc_type='clamped')] evaluated at [t]: with
    two knots and zero end slopes scipy's piecewise polynomial has the single
    piece [c0 * t^3 + c1 * t^2 + c2 * t + c3] with [c0 = -2 (y1 - y0)],
    [c1 = 3 (y1 - y0)], [c2 = 0] and [c3 = y0]. *)
Definition cubic_spline_clamped (y0 y1 t : R) : R :=
  -2 * (y1 - y0) * t ^ 3 + 3 * (y1 - y0) * t ^ 2 + 0 * t + y0.

Definition cubic_interp_path (start_positions end_positions : list R)
    (steps : Z) (limit_joints : bool) : option (list (list R)) :=
  let num_joints := length start_positions in
  t <- Np.linspace_z 0 1 steps ;;
  let start_positions :=
    if limit_joints then clip_joint_vals start_positions else start_positions in
  let end_positions :=
    if limit_joints then clip_joint_vals end_positions else end_positions in
  interpolated_joint_angles <-
    Np.sequence
      (map (fun i =>
              s <- nth_error start_positions i ;;
              e <- nth_error end_positions i ;;
              Some (map (cubic_spline_clamped s e) t))
           (seq 0 num_joints)) ;;
  Some (Np.zip_star interpolated_joint_angles).

(** ** [sample_path_to_length] *)

(** [np.array(path).shape] read as [(rows, columns)]: an empty or ragged path
    has no second dimension. *)
Definition shape2 (path : list (list R)) : option (nat * nat) :=
  match path with
  | [] => None
  | r :: rs =>
      if forallb (fun r' => Nat.eqb (length r') (length r)) rs
      then Some (length path, length r)
      else None
  end.

(** [path[:, i]]. *)
Definition column (path : list (list R)) (i : nat) : list R :=
  map (fun row => nth i row 0) path.

Definition sample_path_to_length (path : list (list R)) (desired_length : Z)
  : option (list (list R)) :=
  shape <- shape2 path ;;
  let current_path_len := fst shape in
  let num_joints := snd shape in
  new_indices <- Np.linspace_z 0 (INR current_path_len - 1) desired_length ;;
  Some (Np.zip_star
          (map (fun i => Np.interp new_indices (Np.arange current_path_len)
                                   (column path i))
               (seq 0 num_joints))).

(** ** [check_pose_within_tolerance] *)

(** A position is a 3-vector; an orientation is a 4-array in the simulator's
    storage order [[x, y, z, w]], [q0] being the entry at index 0. *)
Record vec3 : Type := mk_vec3 { vx : R; vy : R; vz : R }.
Record quat : Type := mk_quat { q0 : R; q1 : R; q2 : R; q3 : R }.

(** The quaternion product of [a] and [b] in [[x, y, z, w]] storage. *)
Definition quat_mul (a b : quat) : quat :=
  let (ax, ay, az, aw) := a in
  let (bx, b_y, bz, bw) := b in
  mk_quat (aw * bx + ax * bw + ay * bz - az * b_y)
          (aw * b_y + ay * bw + az * bx - ax * bz)
          (aw * bz + az * bw + ax * b_y - ay * bx)
          (aw * bw - ax * bx - ay * b_y - az * bz).

Definition quat_norm2 (q : quat) : R :=
  q0 q * q0 q + q1 q * q1 q + q2 q * q2 q + q3 q * q3 q.

Definition quat_scale (c : R) (q : quat) : quat :=
  mk_quat (c * q0 q) (c * q1 q) (c * q2 q) (c * q3 q).

(** [q / |q|]. *)
Definition quat_normalize (q : quat) : quat :=
  quat_scale (/ sqrt (quat_norm2 q)) q.

(** The orientation returned by the simulator's
    [multiplyTransforms([0,0,0], a, [0,0,0], b)].  The simulator composes
    rotations, not quaternions: each operand is turned into the rotation of
    [a / |a|] with a division by [|a|^2], so that a zero operand makes every
    entry of the result nan ([None] here), and the result is read back from
    the composed rotation as a unit quaternion.  That fixes it up to its
    sign: it is the product of the normalised operands or the negative of
    that product, and [flip a b] tells which of the two the simulator
    returns. *)
Definition multiplyTransforms_orn (flip : quat -> quat -> bool) (a b : quat)
  : option quat :=
  if Req_dec_T (quat_norm2 a) 0 then None
  else if Req_dec_T (quat_norm2 b) 0 then None
  else
    let product := quat_mul (quat_normalize a) (quat_normalize b) in
    Some (if flip a b then quat_scale (-1) product else product).

(** [q * np.array([1, -1, -1, -1])]. *)
Definition q1_conjugate (q : quat) : quat :=
  mk_quat (q0 q * 1) (q1 q * -1) (q2 q * -1) (q3 q * -1).

(** The angle is nan ([None]) when the relative quaternion is: [np.clip] and
    [np.arccos] hand a nan on. *)
Definition quaternion_angle_difference (flip : quat -> quat -> bool)
    (qa qb : quat) : option R :=
  match multiplyTransforms_orn flip (q1_conjugate qa) qb with
  | Some q_relative => Some (2 * acos (Np.clip (q0 q_relative) (-1) 1))
  | None => None
  end.

(** [np.linalg.norm(a - b)] on positions. *)
Definition norm_diff (a b : vec3) : R :=
  sqrt ((vx a - vx b) ^ 2 + (vy a - vy b) ^ 2 + (vz a - vz b) ^ 2).

(** A comparison with nan is [False], so a nan angle fails the check. *)
Definition check_pose_within_tolerance (flip : quat -> quat -> bool)
    (final_position : vec3) (final_orientation : quat)
    (target_position : vec3) (target_orientation : quat)
    (pos_tolerance ori_tolerance : R) : bool :=
  let pos_diff := norm_diff final_position target_position in
  match quaternion_angle_difference flip target_orientation
                                    final_orientation with
  | Some angle =>
      let ori_diff := PI - angle in
      Np.leb pos_diff pos_tolerance && Np.leb (Rabs ori_diff) ori_tolerance
  | None => false
  end.

(** ** [task_and_joint_interp] *)

(** A 2-D array of shape [(rows, width)]. *)
Definition matrix_shape (rows width : nat) (m : list (list R)) : Prop :=
  length m = rows /\ forall r, In r m -> length r = width.


(** A pose is the 7-array [[x, y, z, qx, qy, qz, qw]]. *)
Definition pose : Type := (vec3 * quat)%type.

Definition pose_array (p : pose) : list R :=
  let (v, q) := p in [vx v; vy v; vz v; q0 q; q1 q; q2 q; q3 q].

(** [np.vstack([seg if idx == 0 else seg[1:]
                for idx, seg in enumerate(segs)])]. *)
Definition vstack_segments (segs : list (list (list R))) : list (list R) :=
  concat (map (fun p => if Nat.eqb (fst p) 0 then snd p else tl (snd p))
              (combine (seq 0 (length segs)) segs)).

(** The number of samples of segment [i], its endpoint included: the base
    share, one more for the first [remainder] segments, [+ 1]. *)
Definition segment_steps (points_per_segment remainder i : Z) : Z :=
  (points_per_segment + (if i <? remainder then 1 else 0) + 1)%Z.

(** [int(np.floor(steps * 0.4))]. *)
Definition transition_steps_of (steps : Z) : Z := (2 * steps / 5)%Z.

Section Robot.

(** The robot's state that the planner reads: its home configuration, and the
    simulator's inverse-kinematics solver for its end effector (target
    position, optional target orientation, rest poses), the joint limits
    being fixed at setup. *)
Variable home_config : list R.
Variable calculateInverseKinematics :
  list R -> option (list R) -> list R -> list R.

Definition inverse_kinematics (position : list R)
    (orientation : option (list R)) (rest_config : option (list R)) : list R :=
  let rest_config :=
    match rest_config with None => home_config | Some r => r end in
  calculateInverseKinematics position orientation rest_config.

Definition num_midpoints : nat := 25.

(** The hard-coded width of the waypoint array,
    [np.zeros((num_midpoints + 2, 6))]. *)
Definition traj_width : nat := 6.

(** One pass of the loop that fills the waypoints by inverse kinematics, each
    solve seeded with the row before it. *)
Definition ik_step (poses : list (list R)) (st : option (list (list R)))
    (i : Z) : option (list (list R)) :=
  joint_traj <- st ;;
  pose_i <- Np.get_row poses i ;;
  let point := firstn 3 pose_i in
  let orientation := skipn 3 pose_i in
  previous_joint_config <- Np.get_row joint_traj (i - 1) ;;
  let ik_solution :=
    inverse_kinematics point (Some orientation) (Some previous_joint_config) in
  Np.assign_row traj_width joint_traj i (clip_joint_vals ik_solution).

Definition waypoints (start_pose end_pose : pose) (start end_ : list R)
  : option (list (list R)) :=
  let poses := Np.linspace_vec (pose_array start_pose) (pose_array end_pose)
                               (num_midpoints + 2) in
  let joint_traj := Np.zeros (num_midpoints + 2) traj_width in
  joint_traj <- Np.assign_row traj_width joint_traj 0 start ;;
  joint_traj <- Np.assign_row traj_width joint_traj (-1) end_ ;;
  fold_left (ik_step poses)
            (Np.range 1 (Z.of_nat (length joint_traj) - 1))
            (Some joint_traj).

(** Segment [i] of the piecewise-linear path:
    [np.outer(1 - t, joint_traj[i]) + np.outer(t, joint_traj[i + 1])]. *)
Definition interp_segment (joint_traj : list (list R))
    (points_per_segment remainder : Z) (i : Z) : option (list (list R)) :=
  let segment_steps := segment_steps points_per_segment remainder i in
  t <- Np.linspace_z 0 1 segment_steps ;;
  a <- Np.get_row joint_traj i ;;
  b <- Np.get_row joint_traj (i + 1) ;;
  Some (map (fun tk => Np.blend (1 - tk) tk a b) t).

(** The blend towards the start configuration over the first rows. *)
Definition smooth_start_step (transition_steps : Z)
    (st : option (list (list R))) (i : Z) : option (list (list R)) :=
  trajectory <- st ;;
  let alpha := IZR i / IZR transition_steps in
  first <- Np.get_row trajectory 0 ;;
  row <- Np.get_row trajectory i ;;
  Np.assign_row traj_width trajectory i (Np.blend (1 - alpha) alpha first row).

(** The blend towards the end configuration over the last rows. *)
Definition smooth_end_step (steps transition_steps : Z)
    (st : option (list (list R))) (i : Z) : option (list (list R)) :=
  trajectory <- st ;;
  let alpha := IZR (i - (steps - transition_steps)) / IZR transition_steps in
  row <- Np.get_row trajectory i ;;
  last_row <- Np.get_row trajectory (-1) ;;
  Np.assign_row traj_width trajectory i
                (Np.blend (1 - alpha) alpha row last_row).

Definition smooth (steps : Z) (trajectory : list (list R))
  : option (list (list R)) :=
  let transition_steps := transition_steps_of steps in
  trajectory <- fold_left (smooth_start_step transition_steps)
                          (Np.range 1 transition_steps) (Some trajectory) ;;
  fold_left (smooth_end_step steps transition_steps)
            (Np.range (steps - transition_steps) (steps - 1))
            (Some trajectory).

(** The rows handed to the smoothing pass: the stacked segments with the
    first and last rows overwritten by [start] and [end], then normalised as
    a whole. *)
Definition combined_trajectory (joint_traj : list (list R))
    (start end_ : list R) (steps : Z) : option (list (list R)) :=
  let num_segments := Z.of_nat (num_midpoints + 1) in
  let points_per_segment := ((steps - 1) / num_segments)%Z in
  let remainder := ((steps - 1) mod num_segments)%Z in
  interpolated_segments <-
    Np.sequence (map (interp_segment joint_traj points_per_segment remainder)
                     (Np.range 0 num_segments)) ;;
  let combined_points := vstack_segments interpolated_segments in
  combined_points <- Np.assign_row traj_width combined_points 0 start ;;
  combined_points <- Np.assign_row traj_width combined_points (-1) end_ ;;
  Some (clip_joint_vals2 combined_points).

Definition task_and_joint_interp (start_pose end_pose : pose)
    (end_config : list R) (steps : Z) : option (list (list R)) :=
  let start := clip_joint_vals home_config in
  let end_ := clip_joint_vals end_config in
  joint_traj <- waypoints start_pose end_pose start end_ ;;
  trajectory <- combined_trajectory joint_traj start end_ steps ;;
  smooth steps trajectory.

End Robot.

(** ** [check_collision_aabb] *)

(** [a >= b] as a Python boolean. *)
Definition py_ge (a b : R) : bool := if Rge_dec a b then true else false.

(** [a > b] as a Python boolean. *)
Definition py_gt (a b : R) : bool := if Rgt_dec a b then true else false.

(** An axis-aligned bounding box as the simulator's [getAABB] returns it: the
    pair of its minimum and maximum corners. *)
Definition aabb : Type := (vec3 * vec3)%type.

(** The overlap test of [check_collision_aabb], [link_aabb[1]] being the
    maximum corner and [link_aabb[0]] the minimum one. *)
Definition aabb_overlap (link_aabb plane_aabb : aabb) : bool :=
  py_ge (vx (snd link_aabb)) (vx (fst plane_aabb)) &&
  Np.leb (vx (fst link_aabb)) (vx (snd plane_aabb)) &&
  py_ge (vy (snd link_aabb)) (vy (fst plane_aabb)) &&
  Np.leb (vy (fst link_aabb)) (vy (snd plane_aabb)) &&
  py_ge (vz (snd link_aabb)) (vz (fst plane_aabb)) &&
  Np.leb (vz (fst link_aabb)) (vz (snd plane_aabb)).

(** [getAABB] is the simulator's: [plane_aabb] is the box of the plane body
    and [link_aabb i] the box of link [i] of the robot.  The loop runs over
    the controllable joint indices and returns at the first overlap. *)
Fixpoint check_collision_aabb (controllable_joint_idx : list nat)
    (link_aabb : nat -> aabb) (plane_aabb : aabb) : bool :=
  match controllable_joint_idx with
  | [] => false
  | i :: rest =>
      if aabb_overlap (link_aabb i) plane_aabb then true
      else check_collision_aabb rest link_aabb plane_aabb
  end.

(** ** [setup_robot] and the joint state *)

Inductive joint_type : Type :=
  | JOINT_REVOLUTE | JOINT_PRISMATIC | JOINT_SPHERICAL | JOINT_PLANAR
  | JOINT_FIXED.

(** The entries of the simulator's [getJointInfo] that the module reads:
    [[0]] the joint index, [[2]] the joint type, [[8:10]] the limits. *)
Record joint_info : Type := mk_joint_info
  { jointIndex : nat; jointType : joint_type;
    jointLowerLimit : R; jointUpperLimit : R }.

(** [jointType in {JOINT_REVOLUTE, JOINT_PRISMATIC}]. *)
Definition is_controllable (t : joint_type) : bool :=
  match t with
  | JOINT_REVOLUTE | JOINT_PRISMATIC => true
  | _ => false
  end.

Section Setup.

(** [getNumJoints] and [getJointInfo] of the loaded robot. *)
Variable num_joints : nat.
Variable getJointInfo : nat -> joint_info.

Definition end_effector_index : Z := (Z.of_nat num_joints - 3)%Z.

Definition controllable_joint_idx : list nat :=
  map (fun joint => jointIndex (getJointInfo joint))
      (filter (fun joint => is_controllable (jointType (getJointInfo joint)))
              (seq 0 num_joints)).

Definition joint_limits : list (R * R) :=
  map (fun i => (jointLowerLimit (getJointInfo i),
                 jointUpperLimit (getJointInfo i)))
      controllable_joint_idx.

(** The limit arguments that [inverse_kinematics] hands to the solver. *)
Definition lower_limits : list R := map fst joint_limits.
Definition upper_limits : list R := map snd joint_limits.
Definition joint_ranges : list R :=
  map (fun p => snd p - fst p) (combine lower_limits upper_limits).

End Setup.

(** The simulator's joint positions, by joint index. *)
Definition joint_state : Type := nat -> R.

(** [resetJointState(robotId, joint_idx, value)]. *)
Definition resetJointState (st : joint_state) (joint_idx : nat) (value : R)
  : joint_state :=
  fun j => if Nat.eqb j joint_idx then value else st j.

(** [reset_joint_positions]: the loop over [enumerate(controllable_joint_idx)]
    from position [i] on; [joint_positions[i]] raises [IndexError] past the
    end of the list. *)
Fixpoint reset_joint_positions_from (i : nat) (idx : list nat)
    (joint_positions : list R) (st : joint_state) : option joint_state :=
  match idx with
  | [] => Some st
  | joint_idx :: rest =>
      value <- nth_error joint_positions i ;;
      reset_joint_positions_from (S i) rest joint_positions
                                 (resetJointState st joint_idx value)
  end.

Definition reset_joint_positions (idx : list nat) (joint_positions : list R)
    (st : joint_state) : option joint_state :=
  reset_joint_positions_from 0 idx joint_positions st.

(** [get_joint_positions]: [getJointState(robotId, i)[0]] for each
    controllable joint. *)
Definition get_joint_positions (idx : list nat) (st : joint_state) : list R :=
  map st idx.

(** ** [vector_field_sample_fn] *)

(** [f(a, b)] elementwise on two 1-D arrays with numpy broadcasting: equal
    lengths, or one of the two of length one. *)
Definition broadcast2 (f : R -> R -> R) (a b : list R) : option (list R) :=
  if Nat.eqb (length a) (length b)
  then Some (map (fun p => f (fst p) (snd p)) (combine a b))
  else match a, b with
       | [x], _ => Some (map (f x) b)
       | _, [y] => Some (map (fun x => f x y) a)
       | _, _ => None
       end.

Definition vec3_sub (a b : vec3) : vec3 :=
  mk_vec3 (vx a - vx b) (vy a - vy b) (vz a - vz b).

Definition vec3_add (a b : vec3) : vec3 :=
  mk_vec3 (vx a + vx b) (vy a + vy b) (vz a + vz b).

Definition vec3_array (v : vec3) : list R := [vx v; vy v; vz v].

Section Sampler.

Variable home_config : list R.
Variable calculateInverseKinematics :
  list R -> option (list R) -> list R -> list R.

(** The position of the end effector that [get_link_state] reports after
    [set_joint_positions(random_conf)] (the simulator's answer, whatever it
    makes of the motor targets). *)
Variable end_effector_position_at : list R -> vec3.

(** One call of the closure [sample] for the draw [random_conf] of
    [np.random.uniform]; a [goal_position] of [None] cannot be subtracted
    from and raises [TypeError]. *)
Definition vector_field_sample (goal_position : option vec3) (alpha : R)
    (random_conf : list R) : option (list R) :=
  let end_effector_position := end_effector_position_at random_conf in
  goal <- goal_position ;;
  let vector_to_goal := vec3_sub goal end_effector_position in
  let guided_position := vec3_add end_effector_position vector_to_goal in
  let guided_conf :=
    inverse_kinematics home_config calculateInverseKinematics
                       (vec3_array guided_position) None None in
  broadcast2 (fun r g => (1 - alpha) * r + alpha * g) random_conf guided_conf.

End Sampler.

(** Row [i] of a waypoint array is the normalised inverse-kinematics solution
    for pose [i], seeded with row [i - 1] of the same array. *)
Definition seeded_by_previous
    (ik : list R -> option (list R) -> list R -> list R)
    (poses joint_traj : list (list R)) (i : nat) : Prop :=
  exists pose_i previous_joint_config row,
    nth_error poses i = Some pose_i /\
    nth_error joint_traj (i - 1) = Some previous_joint_config /\
    nth_error joint_traj i = Some row /\
    Np.broadcast_to 6
      (clip_joint_vals (ik (firstn 3 pose_i) (Some (skipn 3 pose_i))
                           previous_joint_config)) = Some row.

(** ** [rrt_path] *)

(** The planner is code of [pybullet_planning].  One run of [rrt_connect], as
    this module sees it, is a [planner_run]: the planner returns [None] (the
    two trees did not meet within [max_iterations]) or a list of
    configurations, or it raises, or it calls [sample_fn()] and goes on with
    the configuration it gets.  It has no handler for an exception raised by
    [sample_fn], which ends the run. *)
Inductive planner_run : Type :=
| planner_return (path : option (list (list R)))
| planner_raise
| planner_sample (continue : list R -> planner_run).

(** [sample_fn call] is the outcome of call number [call] of the closure. *)
Fixpoint run_planner (sample_fn : nat -> option (list R)) (call : nat)
    (run : planner_run) : option (option (list (list R))) :=
  match run with
  | planner_return path => Some path
  | planner_raise => None
  | planner_sample continue =>
      conf <- sample_fn call ;;
      run_planner sample_fn (S call) (continue conf)
  end.

Section Rrt.

Variable home_config : list R.
Variable calculateInverseKinematics :
  list R -> option (list R) -> list R -> list R.
Variable end_effector_position_at : list R -> vec3.

(** The draws of [np.random.uniform] over the joint limits, in the order of
    the calls of [sample]. *)
Variable random_uniform : nat -> list R.

(** The closures of [pybullet_planning] and their constructors for this
    robot: [get_extend_fn(robotId, controllable_joint_idx)],
    [get_collision_fn(robotId, controllable_joint_idx, obstacles)] and
    [get_distance_fn(robotId, controllable_joint_idx)], each of which may
    raise. *)
Variables extend_fn collision_fn distance_fn : Type.
Variable get_extend_fn : option extend_fn.
Variable get_collision_fn : option (list Z) -> option collision_fn.
Variable get_distance_fn : option distance_fn.

(** [self.collision_objects], [None] unless the constructor of [LoadRobot]
    was given some. *)
Variable collision_objects : option (list Z).

Variable rrt_connect :
  list R -> list R -> extend_fn -> collision_fn -> distance_fn -> Z ->
  planner_run.

(** [self.vector_field_sample_fn(target_pos)], with its default [alpha]. *)
Definition sample_fn (target_pos : option vec3) (call : nat)
  : option (list R) :=
  vector_field_sample home_config calculateInverseKinematics
                      end_effector_position_at target_pos 0.8
                      (random_uniform call).

(** The value returned is Python's [None] or a path; the outer [option] is
    for an exception. *)
Definition rrt_path (start_positions end_positions : list R)
    (target_pos : option vec3) (steps rrt_iter : Z)
  : option (option (list (list R))) :=
  extend <- get_extend_fn ;;
  collision <- get_collision_fn collision_objects ;;
  distance <- get_distance_fn ;;
  path <- run_planner (sample_fn target_pos) 0
            (rrt_connect start_positions end_positions
                         extend collision distance rrt_iter) ;;
  match path with
  | Some (c :: cs) =>
      resampled <- sample_path_to_length (c :: cs) steps ;;
      Some (Some resampled)
  | _ => Some path
  end.

End Rrt.

(** ** [task_space_path_interp] *)

Section TaskSpace.

Variable home_config : list R.
Variable calculateInverseKinematics :
  list R -> option (list R) -> list R -> list R.

(** [len(self.controllable_joint_idx)]. *)
Variable num_controllable : nat.

Definition ts_ik_step (poses : list (list R)) (st : option (list (list R)))
    (i : Z) : option (list (list R)) :=
  joint_traj <- st ;;
  pose_i <- Np.get_row poses i ;;
  let point := firstn 3 pose_i in
  let orientation := skipn 3 pose_i in
  previous_joint_config <- Np.get_row joint_traj (i - 1) ;;
  let ik_solution :=
    inverse_kinematics home_config calculateInverseKinematics
                       point (Some orientation) (Some previous_joint_config) in
  Np.assign_row num_controllable joint_traj i (clip_joint_vals ik_solution).

Definition ts_smooth_start_step (transition_steps : Z)
    (st : option (list (list R))) (i : Z) : option (list (list R)) :=
  joint_traj <- st ;;
  let alpha := IZR i / IZR transition_steps in
  first <- Np.get_row joint_traj 0 ;;
  row <- Np.get_row joint_traj i ;;
  Np.assign_row num_controllable joint_traj i
                (Np.blend (1 - alpha) alpha first row).

Definition ts_smooth_end_step (steps transition_steps : Z)
    (st : option (list (list R))) (i : Z) : option (list (list R)) :=
  joint_traj <- st ;;
  let alpha := IZR (i - (steps - transition_steps)) / IZR transition_steps in
  row <- Np.get_row joint_traj i ;;
  last_row <- Np.get_row joint_traj (-1) ;;
  Np.assign_row num_controllable joint_traj i
                (Np.blend (1 - alpha) alpha row last_row).

Definition task_space_path_interp (start_pose end_pose : pose)
    (end_config : list R) (steps : Z) : option (list (list R)) :=
  interpolated_poses <-
    Np.sequence (map (fun p => Np.linspace_z (fst p) (snd p) steps)
                     (combine (pose_array start_pose) (pose_array end_pose))) ;;
  let poses := Np.zip_star interpolated_poses in
  let joint_traj := Np.zeros (Z.to_nat steps) num_controllable in
  joint_traj <- Np.assign_row num_controllable joint_traj 0
                              (clip_joint_vals home_config) ;;
  joint_traj <- Np.assign_row num_controllable joint_traj (-1)
                              (clip_joint_vals end_config) ;;
  joint_traj <- fold_left (ts_ik_step poses)
                          (Np.range 1 (Z.of_nat (length joint_traj) - 1))
                          (Some joint_traj) ;;
  let transition_steps := transition_steps_of steps in
  joint_traj <- fold_left (ts_smooth_start_step transition_steps)
                          (Np.range 1 transition_steps) (Some joint_traj) ;;
  fold_left (ts_smooth_end_step steps transition_steps)
            (Np.range (steps - transition_steps) (steps - 1))
            (Some joint_traj).

End TaskSpace.

(** ** [calculate_manipulability] *)

(** The simulator's [calculateJacobian] returns the translational and the
    rotational Jacobian of the end effector, [jac_t] and [jac_r]: three rows
    each, one column per degree of freedom. *)
Definition jacobian_rows : Type := (list R * list R * list R)%type.

Definition rows3 (j : jacobian_rows) : list (list R) :=
  let '(a, b, c) := j in [a; b; c].

Section Manipulability.

Variable calculateJacobian :
  list R -> list R -> list R -> jacobian_rows * jacobian_rows.

(** The value returned is nan ([Some None]) when the determinant is negative;
    the outer [None] is for an exception.  The option [visualize_jacobian]
    draws debug lines and changes no value; it is left out. *)
Definition calculate_manipulability (joint_positions : list R) (planar : bool)
  : option (option R) :=
  let zero_vec := repeat 0 (length joint_positions) in
  let (jac_t, jac_r) :=
    calculateJacobian joint_positions zero_vec zero_vec in
  jacobian <- Np.vstack (rows3 jac_t ++ rows3 jac_r) ;;
  jacobian <- (if planar
               then
                 let jac_t := firstn 2 (skipn 1 (rows3 jac_t)) in
                 jac_r <- nth_error (rows3 jac_r) 0 ;;
                 Np.vstack (jac_t ++ [jac_r])
               else Some jacobian) ;;
  Some (Np.sqrt (Np.det (Np.matmul_T jacobian jacobian))).

End Manipulability.





(** ** The candidate loop of [test/align_ee_hemisphere.py] *)

(** The loop of [AlignHemisphere.test] over the candidate configurations, each
    with the manipulability computed for it: [best_config] is replaced
    whenever the score exceeds [max_manipulability], which stays at its
    initial value 0 (its update is commented out in the source). *)
Definition select_best_config (candidates : list (list R * R))
  : option (list R) :=
  let max_manipulability := 0 in
  fold_left (fun best_config c =>
               if py_gt (snd c) max_manipulability then Some (fst c)
               else best_config)
            candidates None.

(** * Properties *)

(** ** Numeric facts *)

Lemma PI_bounds : 3.14 < PI < 3.15.
Proof.
  pose proof (PI_2_3_7_ineq 1) as H.
  unfold sum_f_R0, tg_alt, PI_2_3_7_tg, Ratan_seq in H; simpl in H.
  lra.
Qed.

(** Case analysis on the two [np.where] tests of [clip_joint_val]. *)
Ltac clip_cases :=
  unfold clip_joint_val, Np.where_gt, Np.where_lt, limit in *;
  pose proof PI_bounds;
  repeat match goal with
         | |- context [Rlt_dec ?a ?b] => destruct (Rlt_dec a b)
         | |- context [Rgt_dec ?a ?b] => destruct (Rgt_dec a b)
         | H : context [Rlt_dec ?a ?b] |- _ => destruct (Rlt_dec a b)
         | H : context [Rgt_dec ?a ?b] |- _ => destruct (Rgt_dec a b)
         end.

(** ** The normaliser, one component at a time *)

(** The five regimes of [clip_joint_val]. *)
Lemma clip_joint_val_far_below x :
  x <= 3 - 2 * PI -> clip_joint_val x = x + 2 * PI.
Proof. intros; clip_cases; lra. Qed.

Lemma clip_joint_val_just_below x :
  3 - 2 * PI < x < -3 -> clip_joint_val x = x.
Proof. intros; clip_cases; lra. Qed.

Lemma clip_joint_val_inside x :
  -3 <= x <= 3 -> clip_joint_val x = x.
Proof. intros; clip_cases; lra. Qed.

Lemma clip_joint_val_above x :
  3 < x -> clip_joint_val x = x - 2 * PI.
Proof. intros; clip_cases; lra. Qed.

Lemma clip_joint_val_fixed_iff x :
  clip_joint_val x = x <-> 3 - 2 * PI < x <= 3.
Proof. split; intros; clip_cases; lra. Qed.

Lemma clip_joint_val_window_iff x :
  -3 <= clip_joint_val x <= 3 <-> clips_into_window x.
Proof. unfold clips_into_window; split; intros; clip_cases; lra. Qed.

Lemma clip_joint_val_shift x :
  exists k : Z,
    (k = (-1)%Z \/ k = 0%Z \/ k = 1%Z) /\
    clip_joint_val x = x + IZR k * (2 * PI).
Proof.
  clip_cases.
  - exists 0%Z; split; [auto | lra].
  - exists 1%Z; split; [auto | lra].
  - exists (-1)%Z; split; [auto | lra].
  - exists 0%Z; split; [auto | lra].
Qed.

Lemma shift_unique (k k' : Z) x :
  x + IZR k * (2 * PI) = x + IZR k' * (2 * PI) -> k = k'.
Proof.
  intros H. pose proof PI_bounds.
  apply eq_IZR. nra.
Qed.

Lemma clip_joint_val_period_iff x :
  clip_joint_val (x + 2 * PI) = clip_joint_val x <-> 3 - 4 * PI < x <= 3.
Proof. split; intros; clip_cases; lra. Qed.

Lemma clip_joint_val_idempotent_iff x :
  clip_joint_val (clip_joint_val x) = clip_joint_val x
  <-> 3 - 4 * PI < x <= 3 + 2 * PI.
Proof.
  rewrite clip_joint_val_fixed_iff.
  split; intros; clip_cases; lra.
Qed.

Lemma clip_joint_vals_length jc : length (clip_joint_vals jc) = length jc.
Proof. apply length_map. Qed.

Lemma clip_joint_vals_nth_error jc i :
  nth_error (clip_joint_vals jc) i = option_map clip_joint_val (nth_error jc i).
Proof. apply nth_error_map. Qed.

(** ** The normaliser on configurations *)

(** C2 (as stated, refuted): a joint value just above the window is sent below
    it, and a far one stays above it, so the output of [clip_joint_vals] is
    not always within [[-3, 3]]. *)
Lemma clip_joint_vals_leaves_window :
  (exists y, In y (clip_joint_vals [3.1]) /\ ~ (-3 <= y <= 3)) /\
  (exists y, In y (clip_joint_vals [12]) /\ ~ (-3 <= y <= 3)).
Proof.
  split.
  - exists (3.1 - 2 * PI). split.
    + left. apply clip_joint_val_above. lra.
    + pose proof PI_bounds. lra.
  - exists (12 - 2 * PI). split.
    + left. apply clip_joint_val_above. lra.
    + pose proof PI_bounds. lra.
Qed.

(** C2 (amended): when every component of the configuration lies in
    [[-3, 3]], [[2 pi - 3, 2 pi + 3]] or [[-3 - 2 pi, 3 - 2 pi]], every
    component returned by [clip_joint_vals] lies in [[-3, 3]]. *)
Theorem clip_joint_vals_in_window (joint_config : list R) :
  (forall x, In x joint_config -> clips_into_window x) ->
  forall y, In y (clip_joint_vals joint_config) -> -3 <= y <= 3.
Proof.
  intros Hin y Hy.
  apply in_map_iff in Hy. destruct Hy as [x [<- Hx]].
  apply clip_joint_val_window_iff. auto.
Qed.

Lemma clip_joint_vals_in_window_witness :
  Forall (fun y => -3 <= y <= 3) (clip_joint_vals [0; 4; -4; 3]).
Proof.
  apply Forall_forall.
  apply (clip_joint_vals_in_window [0; 4; -4; 3]).
  intros x Hx. unfold clips_into_window. pose proof PI_bounds.
  simpl in Hx.
  destruct Hx as [<- | [<- | [<- | [<- | []]]]]; lra.
Defined.

(** C6 (as stated, refuted): normalising [4 + 2 pi] gives [4], normalising [4]
    gives [4 - 2 pi]. *)
Lemma clip_joint_vals_not_periodic :
  clip_joint_vals [4 + 2 * PI] = [4] /\
  clip_joint_vals [4] = [4 - 2 * PI] /\
  clip_joint_vals [4 + 2 * PI] <> clip_joint_vals [4].
Proof.
  assert (A : clip_joint_vals [4 + 2 * PI] = [4]).
  { simpl. f_equal. rewrite clip_joint_val_above; pose proof PI_bounds; lra. }
  assert (B : clip_joint_vals [4] = [4 - 2 * PI]).
  { simpl. f_equal. apply clip_joint_val_above; lra. }
  repeat split; auto.
  rewrite A, B. intros E. injection E as E. pose proof PI_bounds. lra.
Qed.

(** C6 (amended): [clip_joint_vals] changes nothing on a configuration whose
    components all lie in [[-3, 3]]; and normalising [theta + 2 pi] gives the
    same result as normalising [theta] exactly for the joint values
    [3 - 4 pi < theta <= 3]. *)
Theorem clip_joint_vals_noop_and_period :
  (forall joint_config,
      (forall x, In x joint_config -> -3 <= x <= 3) ->
      clip_joint_vals joint_config = joint_config) /\
  (forall theta,
      clip_joint_vals [theta + 2 * PI] = clip_joint_vals [theta]
      <-> 3 - 4 * PI < theta <= 3).
Proof.
  split.
  - induction joint_config as [| x l IH]; intros H; simpl; [reflexivity |].
    rewrite clip_joint_val_inside by (apply H; left; reflexivity).
    f_equal. apply IH. intros y Hy. apply H. right. exact Hy.
  - intros theta. rewrite <- clip_joint_val_period_iff. simpl.
    split; intros E; [injection E as E; exact E | f_equal; exact E].
Qed.

Lemma clip_joint_vals_noop_and_period_witness :
  clip_joint_vals [0; -3; 3; 1.5] = [0; -3; 3; 1.5] /\
  clip_joint_vals [-4 + 2 * PI] = clip_joint_vals [-4].
Proof.
  split.
  - apply (proj1 clip_joint_vals_noop_and_period).
    intros x Hx. simpl in Hx.
    destruct Hx as [<- | [<- | [<- | [<- | []]]]]; lra.
  - apply (proj2 clip_joint_vals_noop_and_period).
    pose proof PI_bounds. lra.
Defined.

(** C9: [clip_joint_vals] keeps the length of the configuration, and each
    output component is the input component plus [k * 2 pi] for exactly one
    [k] among [-1], [0], [1]; a component within [[-3, 3]] is not moved. *)
Theorem clip_joint_vals_shift (joint_config : list R) :
  length (clip_joint_vals joint_config) = length joint_config /\
  forall i x, nth_error joint_config i = Some x ->
    exists y, nth_error (clip_joint_vals joint_config) i = Some y /\
      (exists k : Z,
          (k = (-1)%Z \/ k = 0%Z \/ k = 1%Z) /\ y - x = IZR k * (2 * PI) /\
          forall k' : Z, y - x = IZR k' * (2 * PI) -> k' = k) /\
      (-3 <= x <= 3 -> y = x).
Proof.
  split; [apply clip_joint_vals_length |].
  intros i x Hi. exists (clip_joint_val x). split.
  - rewrite clip_joint_vals_nth_error, Hi. reflexivity.
  - split.
    + destruct (clip_joint_val_shift x) as [k [Hk E]].
      exists k. split; [exact Hk |]. split; [lra |].
      intros k' E'. apply (shift_unique k' k x). lra.
    + apply clip_joint_val_inside.
Qed.

Lemma clip_joint_vals_shift_witness :
  exists y, nth_error (clip_joint_vals [0; 4; -4]) 1 = Some y /\
            (y - 4 = - (2 * PI) \/ y - 4 = 0 \/ y - 4 = 2 * PI).
Proof.
  destruct (proj2 (clip_joint_vals_shift [0; 4; -4]) 1%nat 4 eq_refl)
    as [y [Hy [[k [Hk [Ek _]]] _]]].
  exists y. split; [exact Hy |].
  destruct Hk as [-> | [-> | ->]]; simpl in Ek; lra.
Defined.

(** ** The pose check *)

Lemma np_clip_inside v lo hi : lo <= v <= hi -> Np.clip v lo hi = v.
Proof.
  intros [H1 H2]. unfold Np.clip.
  rewrite Rmax_left by exact H1. apply Rmin_left. exact H2.
Qed.

Lemma np_clip_below v : v <= -1 -> Np.clip v (-1) 1 = -1.
Proof.
  intros H. unfold Np.clip.
  rewrite Rmax_right by exact H. apply Rmin_left. lra.
Qed.

Lemma np_clip_above v : 1 <= v -> Np.clip v (-1) 1 = 1.
Proof.
  intros H. unfold Np.clip.
  rewrite Rmax_left by lra. apply Rmin_right. exact H.
Qed.

Lemma np_clip_opp v : Np.clip (- v) (-1) 1 = - Np.clip v (-1) 1.
Proof.
  destruct (Rle_dec v (-1)); [| destruct (Rle_dec 1 v)].
  - rewrite (np_clip_below v), (np_clip_above (- v)) by lra. lra.
  - rewrite (np_clip_above v), (np_clip_below (- v)) by lra. lra.
  - rewrite (np_clip_inside v), (np_clip_inside (- v)) by lra. reflexivity.
Qed.

(** The error compared with the orientation tolerance depends on the
    magnitude of entry 0 of the relative quaternion only. *)
Lemma ori_error_opp v :
  Rabs (PI - 2 * acos (Np.clip (- v) (-1) 1))
  = Rabs (PI - 2 * acos (Np.clip v (-1) 1)).
Proof.
  rewrite np_clip_opp, acos_opp.
  replace (PI - 2 * (PI - acos (Np.clip v (-1) 1)))
    with (- (PI - 2 * acos (Np.clip v (-1) 1))) by ring.
  apply Rabs_Ropp.
Qed.

Lemma ori_error_abs v v' :
  Rabs v = Rabs v' ->
  Rabs (PI - 2 * acos (Np.clip v (-1) 1))
  = Rabs (PI - 2 * acos (Np.clip v' (-1) 1)).
Proof.
  intros H.
  assert (E : v = v' \/ v = - v').
  { revert H. unfold Rabs.
    destruct (Rcase_abs v), (Rcase_abs v'); intros H; lra. }
  destruct E as [-> | ->]; [reflexivity | apply ori_error_opp].
Qed.

Lemma quat_norm2_nonneg (q : quat) : 0 <= quat_norm2 q.
Proof. destruct q as [x y z w]. unfold quat_norm2. simpl. nra. Qed.

Lemma quat_norm2_zero_iff (q : quat) :
  quat_norm2 q = 0 <-> q = mk_quat 0 0 0 0.
Proof.
  destruct q as [x y z w]. unfold quat_norm2. simpl. split.
  - intros H.
    assert (x = 0) by nra. assert (y = 0) by nra.
    assert (z = 0) by nra. assert (w = 0) by nra. subst. reflexivity.
  - intros E. injection E as -> -> -> ->. ring.
Qed.

Lemma quat_norm2_conjugate (q : quat) :
  quat_norm2 (q1_conjugate q) = quat_norm2 q.
Proof. destruct q as [x y z w]. unfold quat_norm2. simpl. ring. Qed.

Lemma quat_norm_pos (q : quat) : quat_norm2 q <> 0 -> 0 < sqrt (quat_norm2 q).
Proof.
  intros H. apply sqrt_lt_R0. pose proof (quat_norm2_nonneg q). lra.
Qed.

Lemma quat_mul_scale_q0 (ca cb : R) (a b : quat) :
  q0 (quat_mul (quat_scale ca a) (quat_scale cb b))
  = ca * cb * q0 (quat_mul a b).
Proof. destruct a, b. simpl. ring. Qed.

Lemma quat_mul_conj_q0 (q : quat) : q0 (quat_mul (q1_conjugate q) q) = 0.
Proof. destruct q as [x y z w]. simpl. ring. Qed.

(** A zero quaternion on either side makes the angle nan. *)
Lemma quaternion_angle_difference_nan flip (qa qb : quat) :
  quat_norm2 qa = 0 \/ quat_norm2 qb = 0 ->
  quaternion_angle_difference flip qa qb = None.
Proof.
  intros H. unfold quaternion_angle_difference, multiplyTransforms_orn.
  rewrite quat_norm2_conjugate.
  destruct (Req_dec_T (quat_norm2 qa) 0); [reflexivity |].
  destruct (Req_dec_T (quat_norm2 qb) 0); [reflexivity |].
  destruct H; contradiction.
Qed.

(** For non-zero quaternions the angle is read from [v], entry 0 of the
    product of the normalised quaternions, up to the sign the simulator
    picks. *)
Lemma quaternion_angle_difference_some flip (qa qb : quat) :
  quat_norm2 qa <> 0 -> quat_norm2 qb <> 0 ->
  exists v,
    quaternion_angle_difference flip qa qb
    = Some (2 * acos (Np.clip v (-1) 1)) /\
    Rabs v = Rabs (q0 (quat_mul (q1_conjugate qa) qb)
                   / (sqrt (quat_norm2 qa) * sqrt (quat_norm2 qb))).
Proof.
  intros Ha Hb. unfold quaternion_angle_difference, multiplyTransforms_orn.
  rewrite quat_norm2_conjugate.
  destruct (Req_dec_T (quat_norm2 qa) 0); [contradiction |].
  destruct (Req_dec_T (quat_norm2 qb) 0); [contradiction |].
  pose proof (quat_norm_pos qa Ha) as Pa.
  pose proof (quat_norm_pos qb Hb) as Pb.
  assert (E : q0 (quat_mul (quat_normalize (q1_conjugate qa))
                           (quat_normalize qb))
              = q0 (quat_mul (q1_conjugate qa) qb)
                / (sqrt (quat_norm2 qa) * sqrt (quat_norm2 qb))).
  { unfold quat_normalize. rewrite quat_mul_scale_q0, quat_norm2_conjugate.
    field. lra. }
  destruct (flip (q1_conjugate qa) qb); eexists; split; try reflexivity.
  - change (q0 (quat_scale (-1) ?p)) with (-1 * q0 p). rewrite E.
    rewrite <- (Rabs_Ropp (q0 _ / _)). f_equal. ring.
  - rewrite E. reflexivity.
Qed.

(** Entry 0 of the relative quaternion of an orientation with itself vanishes,
    so the angle read from it is [pi]. *)
Lemma quaternion_angle_difference_same flip (q : quat) :
  quat_norm2 q <> 0 -> quaternion_angle_difference flip q q = Some PI.
Proof.
  intros H.
  destruct (quaternion_angle_difference_some flip q q H H) as [v [E Hv]].
  rewrite E. f_equal.
  rewrite quat_mul_conj_q0 in Hv.
  assert (v = 0).
  { unfold Rdiv in Hv. rewrite Rmult_0_l, Rabs_R0 in Hv.
    revert Hv. unfold Rabs. destruct (Rcase_abs v); lra. }
  subst v. rewrite np_clip_inside by lra. rewrite acos_0. field.
Qed.

Lemma norm_diff_same (p : vec3) : norm_diff p p = 0.
Proof.
  unfold norm_diff.
  replace ((vx p - vx p) ^ 2 + (vy p - vy p) ^ 2 + (vz p - vz p) ^ 2) with 0
    by ring.
  apply sqrt_0.
Qed.

Lemma np_leb_true a b : a <= b -> Np.leb a b = true.
Proof.
  intros H. unfold Np.leb.
  destruct (Rle_dec a b); [reflexivity | contradiction].
Qed.

(** C1 (as stated, refuted): with the zero quaternion as orientation of both
    poses the relative quaternion is nan and the check fails although the
    poses are identical, whichever sign convention the simulator follows. *)
Lemma check_pose_within_tolerance_zero_orientation :
  check_pose_within_tolerance (fun _ _ => false)
    (mk_vec3 0.3 0 0.5) (mk_quat 0 0 0 0)
    (mk_vec3 0.3 0 0.5) (mk_quat 0 0 0 0) 0.01 0.05 = false /\
  check_pose_within_tolerance (fun _ _ => true)
    (mk_vec3 0.3 0 0.5) (mk_quat 0 0 0 0)
    (mk_vec3 0.3 0 0.5) (mk_quat 0 0 0 0) 0.01 0.05 = false.
Proof.
  split; unfold check_pose_within_tolerance;
    rewrite quaternion_angle_difference_nan;
    try reflexivity; left; apply quat_norm2_zero_iff; reflexivity.
Qed.

(** C1 (amended): for identical achieved and target poses whose orientation
    is not the zero quaternion, [check_pose_within_tolerance] returns [true],
    whatever the strictly positive position and orientation tolerances. *)
Theorem check_pose_within_tolerance_same (flip : quat -> quat -> bool)
    (position : vec3) (orientation : quat) (pos_tolerance ori_tolerance : R) :
  orientation <> mk_quat 0 0 0 0 ->
  0 < pos_tolerance -> 0 < ori_tolerance ->
  check_pose_within_tolerance flip position orientation position orientation
                              pos_tolerance ori_tolerance = true.
Proof.
  intros Hq Hp Ho. unfold check_pose_within_tolerance.
  rewrite norm_diff_same, quaternion_angle_difference_same
    by (rewrite quat_norm2_zero_iff; exact Hq).
  replace (PI - PI) with 0 by ring. rewrite Rabs_R0.
  rewrite !np_leb_true by lra. reflexivity.
Qed.

Lemma check_pose_within_tolerance_same_witness :
  check_pose_within_tolerance (fun _ _ => false)
    (mk_vec3 0.3 0 0.5) (mk_quat 0 0 0 2)
    (mk_vec3 0.3 0 0.5) (mk_quat 0 0 0 2) 0.01 0.05 = true.
Proof.
  apply (check_pose_within_tolerance_same (fun _ _ => false)
           (mk_vec3 0.3 0 0.5) (mk_quat 0 0 0 2) 0.01 0.05); try lra.
  intros E. injection E as E. lra.
Defined.

(** ** numpy primitives: shapes and entries *)

Lemma nth_map_in {A B : Type} (f : A -> B) (l : list A) i d d' :
  (i < length l)%nat -> nth i (map f l) d = f (nth i l d').
Proof.
  revert i. induction l as [| a l IH]; intros [| i] H; simpl in *; try lia.
  - reflexivity.
  - apply IH. lia.
Qed.

Lemma linspace_length a b n : length (Np.linspace a b n) = n.
Proof.
  destruct n as [| [| k]]; simpl; try reflexivity.
  rewrite length_app, length_map, length_seq. simpl. lia.
Qed.

(** Entry [i] of [linspace a b (m + 1)], by one formula for all of them. *)
Lemma linspace_nth a b m i :
  (0 < m)%nat -> (i <= m)%nat ->
  nth i (Np.linspace a b (S m)) 0 = a + INR i * ((b - a) / INR m).
Proof.
  intros Hm Hi. destruct m as [| k]; [lia |].
  cbn [Np.linspace].
  assert (Hk : INR (S k) <> 0) by (apply not_0_INR; lia).
  destruct (Nat.eq_dec i (S k)) as [-> | Hne].
  - rewrite app_nth2; rewrite length_map, length_seq; [| lia].
    rewrite Nat.sub_diag. simpl nth. field. exact Hk.
  - rewrite app_nth1 by (rewrite length_map, length_seq; lia).
    rewrite (nth_map_in _ _ _ _ 0%nat) by (rewrite length_seq; lia).
    rewrite seq_nth by lia. reflexivity.
Qed.

Lemma linspace_first a b n : (1 <= n)%nat -> nth 0 (Np.linspace a b n) 0 = a.
Proof.
  intros Hn. destruct n as [| [| k]]; [lia | reflexivity |].
  rewrite linspace_nth by lia. simpl INR. lra.
Qed.

Lemma linspace_last a b n :
  (2 <= n)%nat -> nth (n - 1) (Np.linspace a b n) 0 = b.
Proof.
  intros Hn. destruct n as [| [| k]]; try lia.
  replace (S (S k) - 1)%nat with (S k) by lia.
  rewrite linspace_nth by lia. field. apply not_0_INR. lia.
Qed.

Lemma linspace_z_some a b steps :
  (0 <= steps)%Z ->
  Np.linspace_z a b steps = Some (Np.linspace a b (Z.to_nat steps)).
Proof.
  intros H. unfold Np.linspace_z.
  destruct (Z.ltb_spec steps 0); [lia | reflexivity].
Qed.

Lemma sequence_map_some {A B : Type} (f : A -> B) (g : A -> option B) l :
  (forall x, In x l -> g x = Some (f x)) ->
  Np.sequence (map g l) = Some (map f l).
Proof.
  induction l as [| x l IH]; intros H; simpl; [reflexivity |].
  rewrite (H x) by (left; reflexivity).
  rewrite IH by (intros y Hy; apply H; right; exact Hy). reflexivity.
Qed.

(** The rows of [zip_star] when every column has [n] entries. *)
Lemma zip_star_rows (cols : list (list R)) n :
  cols <> [] -> (forall c, In c cols -> length c = n) ->
  Np.zip_star cols = map (fun i => map (fun c => nth i c 0) cols) (seq 0 n).
Proof.
  induction cols as [| c rest IH]; intros Hne Hlen; [congruence |].
  destruct rest as [| c' rest'].
  - cbn [Np.zip_star map].
    assert (Hc : length c = n) by (apply Hlen; left; reflexivity).
    clear - Hc. subst n.
    apply nth_ext with (d := []) (d' := []).
    + rewrite !length_map, length_seq. reflexivity.
    + intros i Hi. rewrite length_map in Hi.
      rewrite (nth_map_in _ _ _ _ 0) by exact Hi.
      rewrite (nth_map_in _ _ _ _ 0%nat) by (rewrite length_seq; exact Hi).
      rewrite seq_nth by exact Hi. reflexivity.
  - change (Np.zip_star (c :: c' :: rest'))
      with (map (fun p => fst p :: snd p)
                (combine c (Np.zip_star (c' :: rest')))).
    rewrite IH; [| discriminate | intros x Hx; apply Hlen; right; exact Hx].
    assert (Hc : length c = n) by (apply Hlen; left; reflexivity).
    apply nth_ext with (d := []) (d' := []).
    + rewrite !length_map, length_combine, length_map, length_seq. lia.
    + intros i Hi.
      rewrite length_map, length_combine, length_map, length_seq in Hi.
      assert (Hin : (i < n)%nat) by lia.
      rewrite (nth_map_in _ _ _ _ (0, []))
        by (rewrite length_combine, length_map, length_seq; lia).
      rewrite combine_nth by (rewrite length_map, length_seq; lia).
      rewrite !(nth_map_in _ (seq 0 n) _ _ 0%nat) by (rewrite length_seq; lia).
      rewrite !seq_nth by lia. reflexivity.
Qed.

Lemma zip_star_length (cols : list (list R)) n :
  cols <> [] -> (forall c, In c cols -> length c = n) ->
  length (Np.zip_star cols) = n.
Proof.
  intros. rewrite (zip_star_rows cols n) by assumption.
  rewrite length_map, length_seq. reflexivity.
Qed.

Lemma zip_star_nth_error (cols : list (list R)) n i :
  cols <> [] -> (forall c, In c cols -> length c = n) -> (i < n)%nat ->
  nth_error (Np.zip_star cols) i = Some (map (fun c => nth i c 0) cols).
Proof.
  intros Hne Hlen Hi. rewrite (zip_star_rows cols n) by assumption.
  rewrite nth_error_map, nth_error_seq.
  destruct (Nat.ltb_spec i n); [reflexivity | lia].
Qed.

Lemma zip_star_column (cols : list (list R)) n j :
  (forall c, In c cols -> length c = n) -> (j < length cols)%nat ->
  column (Np.zip_star cols) j = nth j cols [].
Proof.
  intros Hlen Hj.
  assert (Hne : cols <> [])
    by (destruct cols; [simpl in Hj; lia | discriminate]).
  rewrite (zip_star_rows cols n) by assumption.
  unfold column. rewrite map_map.
  assert (Hn : length (nth j cols []) = n) by (apply Hlen, nth_In, Hj).
  apply nth_ext with (d := 0) (d' := 0).
  - rewrite length_map, length_seq. symmetry. exact Hn.
  - intros i Hi. rewrite length_map, length_seq in Hi.
    rewrite (nth_map_in _ _ _ _ 0%nat) by (rewrite length_seq; exact Hi).
    rewrite seq_nth by exact Hi. simpl.
    apply (nth_map_in (fun c => nth i c 0) cols j 0 []). exact Hj.
Qed.

Lemma map_fst_combine {A B : Type} (l : list A) (l' : list B) :
  length l = length l' -> map fst (combine l l') = l.
Proof.
  revert l'. induction l as [| a l IH]; intros [| b l'] H; simpl in *;
    try discriminate; [reflexivity |].
  f_equal. apply IH. lia.
Qed.

Lemma map_snd_combine {A B : Type} (l : list A) (l' : list B) :
  length l = length l' -> map snd (combine l l') = l'.
Proof.
  revert l'. induction l as [| a l IH]; intros [| b l'] H; simpl in *;
    try discriminate; [reflexivity |].
  f_equal. apply IH. lia.
Qed.

Lemma nth_error_combine {A B : Type} (l : list A) (l' : list B) j a b :
  nth_error l j = Some a -> nth_error l' j = Some b ->
  nth_error (combine l l') j = Some (a, b).
Proof.
  revert l l'. induction j as [| j IH]; intros [| x l] [| y l'] Ha Hb;
    simpl in *; try discriminate.
  - congruence.
  - apply IH; assumption.
Qed.

Lemma linspace_monotonic a b n :
  (2 <= n)%nat -> monotonic_between a b (Np.linspace a b n).
Proof.
  intros Hn i i' x y Hii Hx Hy.
  destruct n as [| m]; [lia |].
  assert (Hm : (0 < m)%nat) by lia.
  assert (Hi' : (i' < S m)%nat).
  { rewrite <- (linspace_length a b (S m)). apply nth_error_Some. congruence. }
  apply nth_error_nth with (d := 0) in Hx.
  apply nth_error_nth with (d := 0) in Hy.
  rewrite linspace_nth in Hx, Hy by lia. subst x y.
  assert (Hmr : 0 < INR m) by (apply lt_0_INR; exact Hm).
  assert (H0 : 0 <= INR i) by apply pos_INR.
  assert (H1 : INR i <= INR i') by (apply le_INR; exact Hii).
  assert (H2 : INR i' <= INR m) by (apply le_INR; lia).
  set (d := (b - a) / INR m).
  assert (Hd : d * INR m = b - a) by (unfold d; field; lra).
  split; intros Hab.
  - assert (0 <= d).
    { destruct (Rle_lt_dec 0 d); [assumption | exfalso; nra]. }
    nra.
  - assert (d <= 0).
    { destruct (Rle_lt_dec d 0); [assumption | exfalso; nra]. }
    nra.
Qed.

(** ** Linear and cubic interpolation *)

Lemma linear_interp_path_eq s e steps limit_joints :
  (0 <= steps)%Z ->
  linear_interp_path s e steps limit_joints =
  Some (Np.zip_star
          (map (fun p => Np.linspace (fst p) (snd p) (Z.to_nat steps))
               (combine (if limit_joints then clip_joint_vals s else s)
                        (if limit_joints then clip_joint_vals e else e)))).
Proof.
  intros H. unfold linear_interp_path.
  rewrite (sequence_map_some
             (fun p => Np.linspace (fst p) (snd p) (Z.to_nat steps))).
  - reflexivity.
  - intros p _. apply linspace_z_some. exact H.
Qed.

Lemma sequence_nth_error_pairs {A : Type} (g : R -> R -> A) (s e : list R) :
  length s = length e ->
  Np.sequence
    (map (fun i => a <- nth_error s i ;; b <- nth_error e i ;; Some (g a b))
         (seq 0 (length s)))
  = Some (map (fun p => g (fst p) (snd p)) (combine s e)).
Proof.
  revert e. induction s as [| a s IH]; intros [| b e] H; simpl in *;
    try discriminate; [reflexivity |].
  rewrite <- seq_shift, map_map. simpl.
  rewrite IH by lia. reflexivity.
Qed.

Lemma cubic_interp_path_eq s e steps :
  (0 <= steps)%Z -> length s = length e ->
  cubic_interp_path s e steps true =
  Some (Np.zip_star
          (map (fun p => map (cubic_spline_clamped (fst p) (snd p))
                             (Np.linspace 0 1 (Z.to_nat steps)))
               (combine (clip_joint_vals s) (clip_joint_vals e)))).
Proof.
  intros H Hlen. unfold cubic_interp_path.
  rewrite linspace_z_some by exact H.
  rewrite <- (clip_joint_vals_length s).
  rewrite (sequence_nth_error_pairs
             (fun a b => map (cubic_spline_clamped a b)
                             (Np.linspace 0 1 (Z.to_nat steps)))).
  - reflexivity.
  - rewrite !clip_joint_vals_length. exact Hlen.
Qed.

Lemma cubic_spline_clamped_0 y0 y1 : cubic_spline_clamped y0 y1 0 = y0.
Proof. unfold cubic_spline_clamped. ring. Qed.

Lemma cubic_spline_clamped_1 y0 y1 : cubic_spline_clamped y0 y1 1 = y1.
Proof. unfold cubic_spline_clamped. ring. Qed.

(** Rows [0] and [n - 1] of the zipped columns [f p] for [p] over the joint
    pairs, when each column starts at [fst p] and ends at [snd p]. *)
Lemma zipped_columns_endpoints (f : R * R -> list R) (s e : list R) n :
  length s = length e -> s <> [] -> (2 <= n)%nat ->
  (forall p, length (f p) = n) ->
  (forall p, nth 0 (f p) 0 = fst p) ->
  (forall p, nth (n - 1) (f p) 0 = snd p) ->
  let path := Np.zip_star (map f (combine s e)) in
  length path = n /\
  nth_error path 0 = Some s /\
  nth_error path (n - 1) = Some e.
Proof.
  intros Hlen Hne Hn Hf H0 H1 path.
  assert (Hcols : map f (combine s e) <> []).
  { destruct s; [congruence |]. destruct e; [discriminate | discriminate]. }
  assert (Hall : forall c, In c (map f (combine s e)) -> length c = n).
  { intros c Hc. apply in_map_iff in Hc. destruct Hc as [p [<- _]]. apply Hf. }
  unfold path. split; [| split].
  - apply zip_star_length; assumption.
  - rewrite (zip_star_nth_error _ n) by (assumption || lia).
    rewrite map_map. f_equal.
    rewrite <- (map_fst_combine s e Hlen) at 2.
    apply map_ext. intros p. apply H0.
  - rewrite (zip_star_nth_error _ n) by (assumption || lia).
    rewrite map_map. f_equal.
    rewrite <- (map_snd_combine s e Hlen) at 2.
    apply map_ext. intros p. apply H1.
Qed.

(** C4 (as stated, refuted): with no joint at all both interpolators return an
    empty path, not one of [steps] configurations. *)
Lemma interp_path_no_joint :
  linear_interp_path [] [] 5 true = Some [] /\
  cubic_interp_path [] [] 5 true = Some [] /\
  length (@nil (list R)) <> Z.to_nat 5.
Proof.
  split; [reflexivity |]. split; [reflexivity |]. simpl. lia.
Qed.

(** C4 (amended): for start and end configurations of equal, non-zero length
    and [steps >= 2], with [limit_joints] on, [linear_interp_path] and
    [cubic_interp_path] return a path of exactly [steps] configurations whose
    first one is the normalised start and whose last one is the normalised
    end; on the linear path each joint's values run monotonically from its
    start value to its end value. *)
Theorem interp_path_endpoints (start_positions end_positions : list R)
    (steps : Z) :
  length start_positions = length end_positions ->
  start_positions <> [] -> (2 <= steps)%Z ->
  (exists path,
      linear_interp_path start_positions end_positions steps true = Some path /\
      length path = Z.to_nat steps /\
      nth_error path 0 = Some (clip_joint_vals start_positions) /\
      nth_error path (Z.to_nat steps - 1)
        = Some (clip_joint_vals end_positions) /\
      forall j sj ej,
        nth_error (clip_joint_vals start_positions) j = Some sj ->
        nth_error (clip_joint_vals end_positions) j = Some ej ->
        monotonic_between sj ej (column path j)) /\
  (exists path,
      cubic_interp_path start_positions end_positions steps true = Some path /\
      length path = Z.to_nat steps /\
      nth_error path 0 = Some (clip_joint_vals start_positions) /\
      nth_error path (Z.to_nat steps - 1)
        = Some (clip_joint_vals end_positions)).
Proof.
  intros Hlen Hne Hsteps.
  set (n := Z.to_nat steps).
  assert (Hn : (2 <= n)%nat) by (unfold n; lia).
  assert (Hlen' : length (clip_joint_vals start_positions)
                  = length (clip_joint_vals end_positions))
    by (rewrite !clip_joint_vals_length; exact Hlen).
  assert (Hne' : clip_joint_vals start_positions <> [])
    by (destruct start_positions; [congruence | discriminate]).
  split.
  - eexists. split; [apply linear_interp_path_eq; lia |].
    fold n.
    destruct (zipped_columns_endpoints
                (fun p => Np.linspace (fst p) (snd p) n)
                (clip_joint_vals start_positions)
                (clip_joint_vals end_positions) n Hlen' Hne' Hn)
      as [L [F E]].
    + intros p. apply linspace_length.
    + intros p. apply linspace_first. lia.
    + intros p. apply linspace_last. exact Hn.
    + split; [exact L |]. split; [exact F |]. split; [exact E |].
      intros j sj ej Hs He.
      assert (Hj : (j < length (combine (clip_joint_vals start_positions)
                                        (clip_joint_vals end_positions)))%nat).
      { rewrite length_combine, <- Hlen', Nat.min_id.
        apply nth_error_Some. congruence. }
      rewrite (zip_star_column _ n).
      * rewrite (nth_map_in _ _ _ _ (0, 0)) by exact Hj.
        rewrite (nth_error_nth _ _ (0, 0) (nth_error_combine _ _ _ _ _ Hs He)).
        apply (linspace_monotonic sj ej n Hn).
      * intros c Hc. apply in_map_iff in Hc. destruct Hc as [p [<- _]].
        apply linspace_length.
      * rewrite length_map. exact Hj.
  - eexists. split; [apply cubic_interp_path_eq; [lia | exact Hlen] |].
    fold n.
    apply (zipped_columns_endpoints
             (fun p => map (cubic_spline_clamped (fst p) (snd p))
                           (Np.linspace 0 1 n))
             (clip_joint_vals start_positions)
             (clip_joint_vals end_positions) n Hlen' Hne' Hn).
    + intros p. rewrite length_map. apply linspace_length.
    + intros p.
      rewrite (nth_map_in _ _ _ _ 0) by (rewrite linspace_length; lia).
      rewrite linspace_first by lia. apply cubic_spline_clamped_0.
    + intros p.
      rewrite (nth_map_in _ _ _ _ 0) by (rewrite linspace_length; lia).
      rewrite linspace_last by lia. apply cubic_spline_clamped_1.
Qed.

Lemma interp_path_endpoints_witness :
  exists path,
    linear_interp_path [0; 4] [1; -1] 3 true = Some path /\
    length path = 3%nat /\
    nth_error path 0 = Some (clip_joint_vals [0; 4]) /\
    nth_error path 2 = Some (clip_joint_vals [1; -1]).
Proof.
  destruct (interp_path_endpoints [0; 4] [1; -1] 3) as [[path H] _].
  - reflexivity.
  - discriminate.
  - lia.
  - exists path. intuition.
Defined.

(** ** Resampling *)

Lemma shape2_some path L J :
  shape2 path = Some (L, J) ->
  L = length path /\ (1 <= L)%nat /\ forall r, In r path -> length r = J.
Proof.
  unfold shape2. destruct path as [| r rs]; [discriminate |].
  destruct (forallb _ rs) eqn:E; [| discriminate].
  intros H. injection H as <- <-. split; [reflexivity |]. split; [simpl; lia |].
  intros r' [<- | Hin]; [reflexivity |].
  rewrite forallb_forall in E. apply Nat.eqb_eq. apply E. exact Hin.
Qed.

(** [np.interp] at the first and at the last abscissa of [np.arange(L)]. *)
Lemma interp1_arange_first fp L :
  length fp = L -> (1 <= L)%nat ->
  Np.interp1 0 (Np.arange L) fp = nth 0 fp 0.
Proof.
  intros Hlen HL. unfold Np.arange.
  destruct fp as [| f0 [| f1 fp]]; simpl in Hlen; subst L;
    try (simpl in HL; lia).
  - reflexivity.
  - cbn [seq map Np.interp1 nth].
    destruct (Rlt_dec 0 (INR 1)) as [_ | n]; [| exfalso; apply n; simpl; lra].
    destruct (Rle_dec 0 (INR 0)) as [_ | n]; [reflexivity |].
    exfalso; apply n; simpl; lra.
Qed.

Lemma interp1_skip x x0 x1 xs f0 f1 fs :
  x1 <= x ->
  Np.interp1 x (x0 :: x1 :: xs) (f0 :: f1 :: fs)
  = Np.interp1 x (x1 :: xs) (f1 :: fs).
Proof.
  intros H. cbn [Np.interp1].
  destruct (Rlt_dec x x1) as [l | _]; [lra | reflexivity].
Qed.

(** At or beyond the last abscissa [np.interp] returns the last ordinate. *)
Lemma interp1_beyond x fp : forall xp,
  length xp = length fp -> fp <> [] ->
  (forall x', In x' xp -> x' <= x) ->
  Np.interp1 x xp fp = nth (length fp - 1) fp 0.
Proof.
  induction fp as [| f0 fp IH]; intros xp Hlen Hne Hall; [congruence |].
  destruct xp as [| x0 xp]; [discriminate |].
  destruct fp as [| f1 fp].
  - destruct xp; [reflexivity | discriminate].
  - destruct xp as [| x1 xp]; [discriminate |].
    rewrite interp1_skip by (apply Hall; right; left; reflexivity).
    rewrite IH.
    + simpl length. replace (S (S (length fp)) - 1)%nat
        with (S (S (length fp) - 1)) by lia. reflexivity.
    + simpl in *. lia.
    + discriminate.
    + intros x' Hx'. apply Hall. right. exact Hx'.
Qed.

Lemma interp1_arange_last fp L :
  length fp = L -> (1 <= L)%nat ->
  Np.interp1 (INR L - 1) (Np.arange L) fp = nth (L - 1) fp 0.
Proof.
  intros Hlen HL. subst L.
  apply interp1_beyond.
  - unfold Np.arange. rewrite length_map, length_seq. reflexivity.
  - destruct fp; [simpl in HL; lia | discriminate].
  - intros x' Hx'. unfold Np.arange in Hx'.
    apply in_map_iff in Hx'. destruct Hx' as [i [<- Hi]].
    apply in_seq in Hi.
    replace (INR (length fp) - 1) with (INR (length fp - 1))
      by (rewrite minus_INR by exact HL; reflexivity).
    apply le_INR. lia.
Qed.

Lemma column_length path i : length (column path i) = length path.
Proof. apply length_map. Qed.

(** Reading row [k] column by column gives the row back. *)
Lemma row_of_columns path J k :
  (forall r, In r path -> length r = J) -> (k < length path)%nat ->
  map (fun i => nth k (column path i) 0) (seq 0 J) = nth k path [].
Proof.
  intros Hrows Hk.
  assert (HJ : length (nth k path []) = J) by (apply Hrows, nth_In, Hk).
  apply nth_ext with (d := 0) (d' := 0).
  - rewrite length_map, length_seq. symmetry. exact HJ.
  - intros i Hi. rewrite length_map, length_seq in Hi.
    rewrite (nth_map_in _ _ _ _ 0%nat) by (rewrite length_seq; exact Hi).
    rewrite seq_nth by exact Hi. simpl. unfold column.
    apply (nth_map_in (fun row => nth i row 0) path k 0 []). exact Hk.
Qed.

(** The value of [sample_path_to_length] on a rectangular path. *)
Lemma sample_path_to_length_eq path L J desired_length :
  shape2 path = Some (L, J) -> (0 <= desired_length)%Z ->
  sample_path_to_length path desired_length =
  Some (Np.zip_star
          (map (fun i =>
                  Np.interp (Np.linspace 0 (INR L - 1) (Z.to_nat desired_length))
                            (Np.arange L) (column path i))
               (seq 0 J))).
Proof.
  intros Hs Hd. unfold sample_path_to_length. rewrite Hs. cbn [fst snd].
  rewrite linspace_z_some by exact Hd. reflexivity.
Qed.

Lemma sample_path_to_length_rows path L J desired_length :
  shape2 path = Some (L, J) -> (1 <= J)%nat -> (1 <= desired_length)%Z ->
  exists out,
    sample_path_to_length path desired_length = Some out /\
    length out = Z.to_nat desired_length /\
    nth_error out 0 = nth_error path 0 /\
    ((2 <= desired_length)%Z ->
     nth_error out (Z.to_nat desired_length - 1)
       = nth_error path (length path - 1)).
Proof.
  intros Hs HJ Hd.
  destruct (shape2_some _ _ _ Hs) as [HL [HL1 Hrows]].
  set (n := Z.to_nat desired_length).
  assert (Hn : (1 <= n)%nat) by (unfold n; lia).
  eexists. split; [apply (sample_path_to_length_eq path L J); [exact Hs | lia] |].
  fold n.
  set (cols := map _ (seq 0 J)).
  assert (Hne : cols <> []).
  { unfold cols. destruct J; [lia |]. simpl. discriminate. }
  assert (Hall : forall c, In c cols -> length c = n).
  { intros c Hc. apply in_map_iff in Hc. destruct Hc as [i [<- _]].
    unfold Np.interp. rewrite length_map. apply linspace_length. }
  split; [apply zip_star_length; assumption |].
  split.
  - rewrite (zip_star_nth_error cols n) by (assumption || lia).
    unfold cols. rewrite map_map.
    rewrite (nth_error_nth' path []) by lia. f_equal.
    rewrite <- (row_of_columns path J 0 Hrows) by lia.
    apply map_ext. intros i. unfold Np.interp.
    rewrite (nth_map_in _ _ _ _ 0) by (rewrite linspace_length; lia).
    rewrite linspace_first by lia.
    apply interp1_arange_first; [rewrite column_length; auto | lia].
  - intros Hd2.
    rewrite (zip_star_nth_error cols n) by (assumption || lia).
    unfold cols. rewrite map_map.
    rewrite (nth_error_nth' path []) by lia. f_equal.
    rewrite <- (row_of_columns path J (length path - 1) Hrows) by lia.
    apply map_ext. intros i. unfold Np.interp.
    rewrite (nth_map_in _ _ _ _ 0) by (rewrite linspace_length; lia).
    rewrite linspace_last by (unfold n; lia).
    rewrite <- HL.
    apply interp1_arange_last; [rewrite column_length; auto | lia].
Qed.

Lemma sample_two_rows_one_step :
  sample_path_to_length [[0]; [1]] 1 = Some [[0]].
Proof.
  destruct (sample_path_to_length_rows [[0]; [1]] 2 1 1)
    as [out [E [Hl [Hf _]]]]; try reflexivity; try lia.
  rewrite E. f_equal.
  destruct out as [| r [| r' out]]; simpl in Hl; try discriminate.
  simpl in Hf. congruence.
Qed.

(** C5 (as stated, refuted): asked for one row, the resampler returns the
    first raw row only, so the last output row is not the last raw row; and a
    path of configurations without joints comes back with no row at all. *)
Lemma sample_path_to_length_loses_end :
  (sample_path_to_length [[0]; [1]] 1 = Some [[0]] /\
   last [[0]] [] <> last [[0]; [1]] []) /\
  (sample_path_to_length [[]; []] 2 = Some [] /\
   length (@nil (list R)) <> Z.to_nat 2).
Proof.
  split; split.
  - exact sample_two_rows_one_step.
  - simpl. intros E. injection E as E. lra.
  - reflexivity.
  - simpl. lia.
Qed.

(** C5 (amended): for a raw path of [L >= 1] configurations of [J >= 1] joints
    each and a requested length [S >= 1], [sample_path_to_length] returns
    exactly [S] rows, the first being the first raw row; for [S >= 2] the last
    row is the last raw row. *)
Theorem sample_path_to_length_endpoints (path : list (list R)) (L J : nat)
    (desired_length : Z) :
  shape2 path = Some (L, J) -> (1 <= J)%nat -> (1 <= desired_length)%Z ->
  exists out,
    sample_path_to_length path desired_length = Some out /\
    length out = Z.to_nat desired_length /\
    nth_error out 0 = nth_error path 0 /\
    ((2 <= desired_length)%Z ->
     nth_error out (Z.to_nat desired_length - 1)
       = nth_error path (length path - 1)).
Proof. apply sample_path_to_length_rows. Qed.

Lemma sample_path_to_length_endpoints_witness :
  exists out,
    sample_path_to_length [[0; 0]; [1; 2]; [2; 1]] 5 = Some out /\
    length out = 5%nat /\
    nth_error out 0 = Some [0; 0] /\
    nth_error out 4 = Some [2; 1].
Proof.
  destruct (sample_path_to_length_endpoints [[0; 0]; [1; 2]; [2; 1]] 3 2 5)
    as [out [E [Hl [Hf Hlast]]]].
  - reflexivity.
  - lia.
  - lia.
  - exists out. split; [exact E |]. split; [exact Hl |].
    split; [exact Hf |]. apply Hlast. lia.
Defined.

(** ** The manipulability measure *)

(** The expansion on matrices of two and three rows. *)
Lemma det_2x2 (a b c d : R) : Np.det [[a; b]; [c; d]] = a * d - b * c.
Proof. unfold Np.det. simpl. ring. Qed.

Lemma det_3x3 (a b c d e f g h i : R) :
  Np.det [[a; b; c]; [d; e; f]; [g; h; i]]
  = a * (e * i - f * h) - b * (d * i - f * g) + c * (d * h - e * g).
Proof. unfold Np.det. simpl. ring. Qed.

(** *** Rows of a determinant *)















(** *** Gram matrices *)













(** *** Linear dependence of the rows *)
















(** A planar Jacobian with the rows of the identity has manipulability 1. *)
Lemma calculate_manipulability_identity :
  calculate_manipulability
    (fun _ _ _ => (([0; 0; 0], [1; 0; 0], [0; 1; 0]),
                   ([0; 0; 1], [0; 0; 0], [0; 0; 0])))
    [0; 0; 0] true = Some (Some 1).
Proof.
  unfold calculate_manipulability, Np.vstack, Np.sqrt.
  cbn [rows3 app forallb firstn skipn nth_error length Nat.eqb andb].
  replace (Np.det _) with 1 by (unfold Np.det; simpl; ring).
  destruct (Rle_dec 0 1) as [_ | N]; [| exfalso; apply N; lra].
  rewrite sqrt_1. reflexivity.
Qed.


(** ** The sampling-based planner *)

Section RrtFacts.

Variable home_config : list R.
Variable calculateInverseKinematics :
  list R -> option (list R) -> list R -> list R.
Variable end_effector_position_at : list R -> vec3.
Variable random_uniform : nat -> list R.
Variables extend_fn collision_fn distance_fn : Type.
Variable get_extend_fn : option extend_fn.
Variable get_collision_fn : option (list Z) -> option collision_fn.
Variable get_distance_fn : option distance_fn.
Variable collision_objects : option (list Z).
Variable rrt_connect :
  list R -> list R -> extend_fn -> collision_fn -> distance_fn -> Z ->
  planner_run.

(** C8 (amended): once the three closures are built, [rrt_path] raises only
    when the planner run raises or when a path that was found cannot be
    resampled, never because no path was found: a [None] from the planner
    run is returned as [None] and an empty path as the empty path.  When the
    run returns [L >= 1] configurations of [J >= 1] joints and [steps >= 1],
    the result has exactly [steps] configurations and starts with the raw
    path's first configuration; for [steps >= 2] it ends with the raw path's
    last one. *)
Theorem rrt_path_result
    (start_positions end_positions : list R) (target_pos : option vec3)
    (steps rrt_iter : Z)
    (extend : extend_fn) (collision : collision_fn) (distance : distance_fn) :
  get_extend_fn = Some extend ->
  get_collision_fn collision_objects = Some collision ->
  get_distance_fn = Some distance ->
  let planned :=
    run_planner
      (sample_fn home_config calculateInverseKinematics
                 end_effector_position_at random_uniform target_pos) 0
      (rrt_connect start_positions end_positions
                   extend collision distance rrt_iter) in
  let returned :=
    rrt_path home_config calculateInverseKinematics end_effector_position_at
             random_uniform extend_fn collision_fn distance_fn
             get_extend_fn get_collision_fn get_distance_fn collision_objects
             rrt_connect start_positions end_positions target_pos
             steps rrt_iter in
  (returned = None <->
   planned = None \/
   exists raw, raw <> [] /\ planned = Some (Some raw) /\
               sample_path_to_length raw steps = None) /\
  (planned = Some None -> returned = Some None) /\
  (planned = Some (Some []) -> returned = Some (Some [])) /\
  (forall raw L J,
      planned = Some (Some raw) ->
      shape2 raw = Some (L, J) -> (1 <= J)%nat -> (1 <= steps)%Z ->
      exists out,
        returned = Some (Some out) /\
        length out = Z.to_nat steps /\
        nth_error out 0 = nth_error raw 0 /\
        ((2 <= steps)%Z ->
         nth_error out (Z.to_nat steps - 1) = nth_error raw (length raw - 1))).
Proof.
  intros He Hc Hd planned returned.
  subst planned returned. unfold rrt_path. rewrite He, Hc, Hd.
  split; [| split; [| split]].
  - destruct (run_planner _ 0 _) as [[[| c cs] |] |].
    + split; [discriminate |].
      intros [E | [raw [Hraw [E _]]]]; [discriminate |].
      injection E as <-. contradiction.
    + destruct (sample_path_to_length (c :: cs) steps) as [out |] eqn:E.
      * split; [discriminate |].
        intros [E' | [raw [_ [E1 E2]]]]; [discriminate |].
        injection E1 as <-. rewrite E in E2. discriminate.
      * split; [| reflexivity]. intros _. right.
        exists (c :: cs). repeat split; [discriminate | exact E].
    + split; [discriminate |].
      intros [E | [raw [_ [E _]]]]; discriminate.
    + split; [left |]; reflexivity.
  - intros ->. reflexivity.
  - intros ->. reflexivity.
  - intros raw L J -> Hs HJ Hsteps.
    destruct (sample_path_to_length_rows raw L J steps Hs HJ Hsteps)
      as [out [E H]].
    destruct raw as [| c cs]; [discriminate |].
    rewrite E. exists out. split; [reflexivity | exact H].
Qed.

End RrtFacts.

(** C8 (as stated, refuted): a robot of one joint, obstacles and a target
    position given; the planner draws one sample and returns the two
    configurations [[0]] and [[1]].  With one step requested, the path
    returned is the start configuration alone. *)
Lemma rrt_path_one_step_loses_end :
  rrt_path [0] (fun _ _ _ => [0.5]) (fun _ => mk_vec3 0 0 0) (fun _ => [0.2])
           unit unit unit (Some tt) (fun _ => Some tt) (Some tt) (Some [])
           (fun _ _ _ _ _ _ =>
              planner_sample (fun _ => planner_return (Some [[0]; [1]])))
           [0] [1] (Some (mk_vec3 0.3 0 0.5)) 1 500
  = Some (Some [[0]]) /\
  last [[0]] [] <> last [[0]; [1]] [].
Proof.
  split.
  - unfold rrt_path. cbn [run_planner].
    unfold sample_fn, vector_field_sample, broadcast2, inverse_kinematics.
    cbn [length Nat.eqb]. rewrite sample_two_rows_one_step. reflexivity.
  - simpl. intros E. injection E as E. lra.
Qed.

Lemma rrt_path_result_witness :
  rrt_path [0; 0] (fun _ _ _ => [0.5; 0.5]) (fun _ => mk_vec3 0 0 0)
           (fun _ => [0.2; 0.2])
           unit unit unit (Some tt) (fun _ => Some tt) (Some tt) (Some [])
           (fun _ _ _ _ _ _ => planner_sample (fun _ => planner_return None))
           [0; 0] [2; 1] (Some (mk_vec3 0.3 0 0.5)) 100 500 = Some None /\
  exists out,
    rrt_path [0; 0] (fun _ _ _ => [0.5; 0.5]) (fun _ => mk_vec3 0 0 0)
             (fun _ => [0.2; 0.2])
             unit unit unit (Some tt) (fun _ => Some tt) (Some tt) (Some [])
             (fun _ _ _ _ _ _ =>
                planner_sample
                  (fun _ => planner_return (Some [[0; 0]; [1; 2]; [2; 1]])))
             [0; 0] [2; 1] (Some (mk_vec3 0.3 0 0.5)) 100 500
    = Some (Some out) /\
    length out = 100%nat /\
    nth_error out 0 = Some [0; 0] /\
    nth_error out 99 = Some [2; 1].
Proof.
  split.
  - apply (proj1 (proj2 (rrt_path_result
                    [0; 0] (fun _ _ _ => [0.5; 0.5]) (fun _ => mk_vec3 0 0 0)
                    (fun _ => [0.2; 0.2])
                    unit unit unit (Some tt) (fun _ => Some tt) (Some tt)
                    (Some [])
                    (fun _ _ _ _ _ _ =>
                       planner_sample (fun _ => planner_return None))
                    [0; 0] [2; 1] (Some (mk_vec3 0.3 0 0.5)) 100 500
                    tt tt tt eq_refl eq_refl eq_refl))).
    reflexivity.
  - destruct (proj2 (proj2 (proj2 (rrt_path_result
                    [0; 0] (fun _ _ _ => [0.5; 0.5]) (fun _ => mk_vec3 0 0 0)
                    (fun _ => [0.2; 0.2])
                    unit unit unit (Some tt) (fun _ => Some tt) (Some tt)
                    (Some [])
                    (fun _ _ _ _ _ _ =>
                       planner_sample
                         (fun _ =>
                            planner_return (Some [[0; 0]; [1; 2]; [2; 1]])))
                    [0; 0] [2; 1] (Some (mk_vec3 0.3 0 0.5)) 100 500
                    tt tt tt eq_refl eq_refl eq_refl)))
                    [[0; 0]; [1; 2]; [2; 1]] 3%nat 2%nat)
      as [out [E [Hl [Hf Hlast]]]].
    + reflexivity.
    + reflexivity.
    + lia.
    + lia.
    + exists out. split; [exact E |]. split; [exact Hl |].
      split; [exact Hf |]. apply Hlast. lia.
Defined.

(** ** Row assignment *)

Lemma set_row_length m k row : length (Np.set_row m k row) = length m.
Proof.
  revert k. induction m as [| h t IH]; intros [| k]; simpl; auto.
Qed.

Lemma set_row_nth_error_same m k row :
  (k < length m)%nat -> nth_error (Np.set_row m k row) k = Some row.
Proof.
  revert k. induction m as [| h t IH]; intros [| k] H; simpl in *; try lia.
  - reflexivity.
  - apply IH. lia.
Qed.

Lemma set_row_nth_error_other m k j row :
  j <> k -> nth_error (Np.set_row m k row) j = nth_error m j.
Proof.
  revert k j. induction m as [| h t IH]; intros [| k] [| j] H; simpl;
    try reflexivity; try congruence.
  apply IH. congruence.
Qed.

Lemma set_row_In m k row r :
  In r (Np.set_row m k row) -> r = row \/ In r m.
Proof.
  revert k. induction m as [| h t IH]; intros [| k] H; simpl in *; try tauto.
  - destruct H as [<- | H]; auto.
  - destruct H as [<- | H]; auto. destruct (IH _ H); auto.
Qed.

Lemma py_index_nonneg len i :
  (0 <= i < Z.of_nat len)%Z -> Np.py_index len i = Some (Z.to_nat i).
Proof.
  intros H. unfold Np.py_index.
  destruct (Z.leb_spec 0 i); [| lia].
  destruct (Z.ltb_spec i (Z.of_nat len)); [reflexivity | lia].
Qed.

Lemma py_index_last len :
  (1 <= len)%nat -> Np.py_index len (-1) = Some (len - 1)%nat.
Proof.
  intros H. unfold Np.py_index.
  destruct (Z.leb_spec 0 (-1)); [lia |]. cbn [andb].
  destruct (Z.leb_spec (- Z.of_nat len) (-1)); [| lia].
  destruct (Z.ltb_spec (-1) 0); [| lia]. cbn [andb].
  f_equal. lia.
Qed.

Lemma py_index_lt len i k : Np.py_index len i = Some k -> (k < len)%nat.
Proof.
  unfold Np.py_index.
  destruct (Z.leb_spec 0 i), (Z.ltb_spec i (Z.of_nat len)); cbn [andb].
  all: try (intros E; injection E as <-; lia).
  all: destruct (Z.leb_spec (- Z.of_nat len) i), (Z.ltb_spec i 0); cbn [andb].
  all: try discriminate.
  all: intros E; injection E as <-; lia.
Qed.

Lemma broadcast_to_some width v row :
  Np.broadcast_to width v = Some row ->
  length row = width /\ (length v = width \/ length v = 1%nat).
Proof.
  unfold Np.broadcast_to.
  destruct (Nat.eqb_spec (length v) width) as [E | _].
  - intros H. injection H as <-. auto.
  - destruct v as [| x [| y v]]; try discriminate.
    intros H. injection H as <-. rewrite repeat_length. auto.
Qed.

Lemma broadcast_to_same width v :
  length v = width -> Np.broadcast_to width v = Some v.
Proof.
  intros H. unfold Np.broadcast_to.
  destruct (Nat.eqb_spec (length v) width); [reflexivity | contradiction].
Qed.

Lemma broadcast_to_defined width v :
  length v = width \/ length v = 1%nat ->
  exists row, Np.broadcast_to width v = Some row.
Proof.
  intros [H | H].
  - exists v. apply broadcast_to_same. exact H.
  - unfold Np.broadcast_to.
    destruct (Nat.eqb_spec (length v) width); [eauto |].
    destruct v as [| x [| y v]]; try discriminate. eauto.
Qed.

(** What a successful [m[i, :] = v] did. *)
Lemma assign_row_some width m i v m' :
  Np.assign_row width m i v = Some m' ->
  exists k row,
    Np.py_index (length m) i = Some k /\ Np.broadcast_to width v = Some row /\
    m' = Np.set_row m k row.
Proof.
  unfold Np.assign_row.
  destruct (Np.py_index (length m) i) as [k |]; [| discriminate].
  destruct (Np.broadcast_to width v) as [row |]; [| discriminate].
  intros H. injection H as <-. eauto.
Qed.

Lemma assign_row_same_width width m i v k :
  Np.py_index (length m) i = Some k -> length v = width ->
  Np.assign_row width m i v = Some (Np.set_row m k v).
Proof.
  intros Hk Hv. unfold Np.assign_row.
  rewrite Hk, broadcast_to_same by exact Hv. reflexivity.
Qed.

Lemma get_row_nth_error m i k :
  Np.py_index (length m) i = Some k -> Np.get_row m i = nth_error m k.
Proof. intros H. unfold Np.get_row. rewrite H. reflexivity. Qed.

Lemma blend_length a b x y :
  length (Np.blend a b x y) = Nat.min (length x) (length y).
Proof. unfold Np.blend. rewrite length_map, length_combine. reflexivity. Qed.

Lemma range_In lo hi i : In i (Np.range lo hi) <-> (lo <= i < hi)%Z.
Proof.
  unfold Np.range. rewrite in_map_iff. split.
  - intros [k [<- Hk]]. apply in_seq in Hk. lia.
  - intros H. exists (Z.to_nat (i - lo)). split; [lia |].
    apply in_seq. lia.
Qed.

Lemma fold_left_none {A B : Type} (f : option A -> B -> option A) l :
  (forall b, f None b = None) -> fold_left f l None = None.
Proof.
  intros H. induction l as [| b l IH]; simpl; [reflexivity |].
  rewrite H. exact IH.
Qed.

(** A loop whose every pass keeps an invariant of the array runs to its end
    and keeps it. *)
Lemma fold_left_invariant {A B : Type} (P : A -> Prop)
    (f : option A -> B -> option A) (l : list B) :
  (forall a b, In b l -> P a -> exists a', f (Some a) b = Some a' /\ P a') ->
  forall a, P a -> exists a', fold_left f l (Some a) = Some a' /\ P a'.
Proof.
  induction l as [| b l IH]; intros Hstep a Ha; simpl.
  - eauto.
  - destruct (Hstep a b (or_introl eq_refl) Ha) as [a1 [E1 P1]].
    rewrite E1. apply IH; [| exact P1].
    intros a0 b0 Hb0. apply Hstep. right. exact Hb0.
Qed.

Lemma fold_left_some_invariant {A B : Type} (P : A -> Prop)
    (f : option A -> B -> option A) (l : list B) :
  (forall b, f None b = None) ->
  (forall a b a', f (Some a) b = Some a' -> P a -> P a') ->
  forall a a', fold_left f l (Some a) = Some a' -> P a -> P a'.
Proof.
  intros Hnone Hstep.
  induction l as [| b l IH]; intros a a' H Ha; simpl in H.
  - injection H as <-. exact Ha.
  - destruct (f (Some a) b) as [a1 |] eqn:E.
    + apply (IH a1 a' H). apply (Hstep a b a1 E Ha).
    + rewrite fold_left_none in H by exact Hnone. discriminate.
Qed.

Lemma zeros_shape rows cols : matrix_shape rows cols (Np.zeros rows cols).
Proof.
  unfold matrix_shape, Np.zeros. split; [apply repeat_length |].
  intros r Hr. apply repeat_spec in Hr. subst r. apply repeat_length.
Qed.

Lemma assign_row_shape rows width m i v m' :
  Np.assign_row width m i v = Some m' ->
  matrix_shape rows width m -> matrix_shape rows width m'.
Proof.
  intros H [Hl Hw].
  destruct (assign_row_some _ _ _ _ _ H) as [k [row [_ [Hb ->]]]].
  split; [rewrite set_row_length; exact Hl |].
  intros r Hr. destruct (set_row_In _ _ _ _ Hr) as [-> | Hin].
  - apply (broadcast_to_some _ _ _ Hb).
  - apply Hw. exact Hin.
Qed.

Lemma assign_row_defined rows width m i v :
  matrix_shape rows width m ->
  (0 <= i < Z.of_nat rows)%Z \/ (i = (-1)%Z /\ (1 <= rows)%nat) ->
  length v = width \/ length v = 1%nat ->
  exists m', Np.assign_row width m i v = Some m'.
Proof.
  intros [Hl _] Hi Hv. unfold Np.assign_row.
  destruct (broadcast_to_defined width v Hv) as [row ->].
  destruct Hi as [Hi | [-> Hr]].
  - rewrite py_index_nonneg by (rewrite Hl; exact Hi). eauto.
  - rewrite py_index_last by (rewrite Hl; exact Hr). eauto.
Qed.

Lemma linspace_vec_length a b n : length (Np.linspace_vec a b n) = n.
Proof.
  destruct n as [| [| k]]; simpl; try reflexivity.
  rewrite length_app, length_map, length_seq. simpl. lia.
Qed.

Lemma get_row_defined m i :
  (0 <= i < Z.of_nat (length m))%Z -> exists r, Np.get_row m i = Some r /\ In r m.
Proof.
  intros H. unfold Np.get_row. rewrite py_index_nonneg by exact H.
  destruct (nth_error m (Z.to_nat i)) as [r |] eqn:E.
  - exists r. split; [reflexivity |]. apply nth_error_In in E. exact E.
  - apply nth_error_None in E. lia.
Qed.

(** ** The waypoints of [task_and_joint_interp] *)

Section RobotFacts.

Variable home : list R.
Variable ik : list R -> option (list R) -> list R -> list R.

Lemma ik_step_none poses i : ik_step home ik poses None i = None.
Proof. reflexivity. Qed.

Lemma ik_step_shape poses jt i jt' :
  ik_step home ik poses (Some jt) i = Some jt' ->
  matrix_shape 27 6 jt -> matrix_shape 27 6 jt'.
Proof.
  unfold ik_step. intros H Hs.
  destruct (Np.get_row poses i); [| discriminate].
  destruct (Np.get_row jt (i - 1)); [| discriminate].
  apply (assign_row_shape _ _ _ _ _ _ H Hs).
Qed.

(** The waypoint array, when it is built, is 27 by 6, and the start and end
    configurations had 6 entries or one. *)
Lemma waypoints_shape start_pose end_pose start end_ jt :
  waypoints home ik start_pose end_pose start end_ = Some jt ->
  matrix_shape 27 6 jt /\
  (length start = 6%nat \/ length start = 1%nat) /\
  (length end_ = 6%nat \/ length end_ = 1%nat).
Proof.
  unfold waypoints. intros H.
  destruct (Np.assign_row traj_width _ 0 start) as [jt1 |] eqn:E1;
    [| discriminate].
  destruct (Np.assign_row traj_width jt1 (-1) end_) as [jt2 |] eqn:E2;
    [| discriminate].
  pose proof (assign_row_shape 27 6 _ _ _ _ E1 (zeros_shape 27 6)) as S1.
  pose proof (assign_row_shape 27 6 _ _ _ _ E2 S1) as S2.
  split; [| split].
  - apply (fold_left_some_invariant (matrix_shape 27 6) _ _
             (ik_step_none _) (ik_step_shape _) _ _ H S2).
  - destruct (assign_row_some _ _ _ _ _ E1) as [k [row [_ [Hb _]]]].
    apply (broadcast_to_some _ _ _ Hb).
  - destruct (assign_row_some _ _ _ _ _ E2) as [k [row [_ [Hb _]]]].
    apply (broadcast_to_some _ _ _ Hb).
Qed.


Lemma waypoints_defined start_pose end_pose start end_ :
  (forall p o r, length (ik p o r) = 6%nat \/ length (ik p o r) = 1%nat) ->
  length start = 6%nat \/ length start = 1%nat ->
  length end_ = 6%nat \/ length end_ = 1%nat ->
  exists jt, waypoints home ik start_pose end_pose start end_ = Some jt /\
             matrix_shape 27 6 jt.
Proof.
  intros Hik Hs He. unfold waypoints.
  destruct (assign_row_defined 27 6 (Np.zeros (num_midpoints + 2) traj_width)
              0 start (zeros_shape 27 6)) as [jt1 E1]; [left; lia | exact Hs |].
  unfold traj_width in *. rewrite E1.
  pose proof (assign_row_shape 27 6 _ _ _ _ E1 (zeros_shape 27 6)) as S1.
  destruct (assign_row_defined 27 6 jt1 (-1) end_ S1) as [jt2 E2];
    [right; split; [reflexivity | lia] | exact He |].
  rewrite E2.
  pose proof (assign_row_shape 27 6 _ _ _ _ E2 S1) as S2.
  apply fold_left_invariant; [| exact S2].
  intros a i Hi Sa. apply range_In in Hi.
  rewrite (proj1 S2) in Hi.
  unfold ik_step.
  destruct (get_row_defined
              (Np.linspace_vec (pose_array start_pose) (pose_array end_pose)
                               (num_midpoints + 2)) i) as [pose_i [-> _]].
  { rewrite linspace_vec_length. unfold num_midpoints. lia. }
  destruct (get_row_defined a (i - 1)) as [prev [-> _]].
  { rewrite (proj1 Sa). lia. }
  destruct (assign_row_defined 27 6 a i
              (clip_joint_vals
                 (inverse_kinematics home ik (firstn 3 pose_i)
                    (Some (skipn 3 pose_i)) (Some prev))) Sa) as [a' E'].
  { left. lia. }
  { rewrite clip_joint_vals_length. apply Hik. }
  exists a'. split; [exact E' |].
  apply (assign_row_shape 27 6 _ _ _ _ E' Sa).
Qed.

(** When the waypoints are built, the solver's first answer had 6 entries or
    one. *)
Lemma waypoints_first_solve start_pose end_pose start end_ jt :
  waypoints home ik start_pose end_pose start end_ = Some jt ->
  exists p o r, length (ik p o r) = 6%nat \/ length (ik p o r) = 1%nat.
Proof.
  unfold waypoints. intros H.
  destruct (Np.assign_row traj_width _ 0 start) as [jt1 |] eqn:E1;
    [| discriminate].
  destruct (Np.assign_row traj_width jt1 (-1) end_) as [jt2 |] eqn:E2;
    [| discriminate].
  pose proof (assign_row_shape 27 6 _ _ _ _ E1 (zeros_shape 27 6)) as S1.
  pose proof (assign_row_shape 27 6 _ _ _ _ E2 S1) as S2.
  rewrite (proj1 S2) in H.
  change (Np.range 1 (Z.of_nat 27 - 1)) with (1%Z :: Np.range 2 26) in H.
  cbn [fold_left] in H.
  destruct (ik_step home ik _ (Some jt2) 1) as [jt3 |] eqn:E3.
  - unfold ik_step in E3.
    destruct (Np.get_row _ 1) as [pose_i |]; [| discriminate].
    destruct (Np.get_row jt2 (1 - 1)) as [prev |]; [| discriminate].
    destruct (assign_row_some _ _ _ _ _ E3) as [k [row [_ [Hb _]]]].
    apply broadcast_to_some in Hb. destruct Hb as [_ Hb].
    rewrite clip_joint_vals_length in Hb. unfold inverse_kinematics in Hb.
    eauto.
  - rewrite fold_left_none in H by reflexivity. discriminate.
Qed.
End RobotFacts.

(** ** Stacking the segments *)

Lemma sequence_map_defined {A B : Type} (Q : A -> B -> Prop)
    (g : A -> option B) (l : list A) :
  (forall x, In x l -> exists y, g x = Some y /\ Q x y) ->
  exists ys, Np.sequence (map g l) = Some ys /\ Forall2 Q l ys.
Proof.
  induction l as [| x l IH]; intros H; simpl.
  - exists []. split; [reflexivity | constructor].
  - destruct (H x (or_introl eq_refl)) as [y [Ey Qy]].
    destruct IH as [ys [Eys Qys]].
    { intros x' Hx'. apply H. right. exact Hx'. }
    rewrite Ey, Eys. exists (y :: ys). split; [reflexivity |].
    constructor; assumption.
Qed.

Lemma enumerate_from_tl (rest : list (list (list R))) : forall k,
  (1 <= k)%nat ->
  map (fun p => if Nat.eqb (fst p) 0 then snd p else tl (snd p))
      (combine (seq k (length rest)) rest)
  = map (@tl (list R)) rest.
Proof.
  induction rest as [| s rest IH]; intros k Hk; [reflexivity |].
  cbn [length seq combine map fst snd].
  destruct k as [| k]; [lia |]. cbn [Nat.eqb].
  f_equal. apply IH. lia.
Qed.

(** Every segment but the first loses its first row. *)
Lemma vstack_segments_cons s0 rest :
  vstack_segments (s0 :: rest) = s0 ++ concat (map (@tl (list R)) rest).
Proof.
  unfold vstack_segments. cbn [length seq combine map concat Nat.eqb fst snd].
  rewrite enumerate_from_tl by lia. reflexivity.
Qed.

Lemma length_tl {A : Type} (l : list A) : length (tl l) = (length l - 1)%nat.
Proof. destruct l; simpl; lia. Qed.

Lemma In_tl {A : Type} (x : A) l : In x (tl l) -> In x l.
Proof. destruct l; simpl; auto. Qed.

Lemma vstack_segments_length s0 rest :
  (1 <= length s0)%nat ->
  length (vstack_segments (s0 :: rest))
  = S (list_sum (map (fun s => (length s - 1)%nat) (s0 :: rest))).
Proof.
  intros H. rewrite vstack_segments_cons, length_app, length_concat, map_map.
  rewrite (map_ext (fun s => length (tl s)) (fun s => (length s - 1)%nat))
    by (intros s; apply length_tl).
  change (list_sum (map (fun s => (length s - 1)%nat) (s0 :: rest)))
    with ((length s0 - 1) + list_sum (map (fun s => (length s - 1)%nat) rest))%nat.
  lia.
Qed.

Lemma vstack_segments_In segs r :
  In r (vstack_segments segs) -> exists s, In s segs /\ In r s.
Proof.
  destruct segs as [| s0 rest]; [intros [] |].
  rewrite vstack_segments_cons. intros H.
  apply in_app_or in H. destruct H as [H | H].
  - exists s0. split; [left; reflexivity | exact H].
  - apply in_concat in H. destruct H as [t [Ht Hr]].
    apply in_map_iff in Ht. destruct Ht as [s [<- Hs]].
    exists s. split; [right; exact Hs | apply In_tl; exact Hr].
Qed.

(** The budget: [n] segments of [pps] points each, one more for the first
    [rem] of them. *)
Lemma range_0_nat n : Np.range 0 (Z.of_nat n) = map Z.of_nat (seq 0 n).
Proof.
  unfold Np.range. rewrite Z.sub_0_r, Nat2Z.id. reflexivity.
Qed.

Lemma sum_segment_points (pps rem : Z) (n : nat) :
  (0 <= pps)%Z -> (0 <= rem)%Z ->
  Z.of_nat
    (list_sum (map (fun i => (Z.to_nat (segment_steps pps rem i) - 1)%nat)
                   (map Z.of_nat (seq 0 n))))
  = (Z.of_nat n * pps + Z.min (Z.of_nat n) rem)%Z.
Proof.
  intros Hp Hr. induction n as [| n IH].
  - simpl. lia.
  - rewrite seq_S, !map_app, list_sum_app, Nat2Z.inj_add, IH.
    simpl list_sum. unfold segment_steps.
    destruct (Z.ltb_spec (Z.of_nat n) rem); lia.
Qed.

Lemma Forall2_sum_lengths {A : Type} (f : A -> nat) (idx : list A)
    (segs : list (list (list R))) :
  Forall2 (fun i s => length s = f i /\ forall r, In r s -> length r = 6%nat)
          idx segs ->
  list_sum (map (fun s => (length s - 1)%nat) segs)
  = list_sum (map (fun i => (f i - 1)%nat) idx).
Proof.
  induction 1 as [| i s idx segs [Hl _] _ IH]; [reflexivity |].
  simpl. rewrite Hl, IH. reflexivity.
Qed.

Lemma Forall2_In_r {A B : Type} (Q : A -> B -> Prop) l ys y :
  Forall2 Q l ys -> In y ys -> exists x, In x l /\ Q x y.
Proof.
  induction 1 as [| x y' l ys Hq _ IH]; intros Hin; [destruct Hin |].
  destruct Hin as [<- | Hin].
  - exists x. split; [left; reflexivity | exact Hq].
  - destruct (IH Hin) as [x' [Hx' Hq']]. exists x'. split; [right |]; assumption.
Qed.

Lemma interp_segment_defined jt pps rem i :
  matrix_shape 27 6 jt -> (0 <= i < 26)%Z -> (0 <= pps)%Z ->
  exists seg,
    interp_segment jt pps rem i = Some seg /\
    (length seg = Z.to_nat (segment_steps pps rem i) /\
     forall r, In r seg -> length r = 6%nat).
Proof.
  intros [Hl Hw] Hi Hp. unfold interp_segment.
  rewrite linspace_z_some
    by (unfold segment_steps; destruct (Z.ltb_spec i rem); lia).
  destruct (get_row_defined jt i) as [a [-> Ha]]; [lia |].
  destruct (get_row_defined jt (i + 1)) as [b [-> Hb]]; [lia |].
  eexists. split; [reflexivity |]. split.
  - rewrite length_map. apply linspace_length.
  - intros r Hr. apply in_map_iff in Hr. destruct Hr as [tk [<- _]].
    rewrite blend_length, (Hw a Ha), (Hw b Hb). reflexivity.
Qed.

Lemma clip_joint_vals2_shape rows width m :
  matrix_shape rows width m -> matrix_shape rows width (clip_joint_vals2 m).
Proof.
  intros [Hl Hw]. unfold clip_joint_vals2. split.
  - rewrite length_map. exact Hl.
  - intros r Hr. apply in_map_iff in Hr. destruct Hr as [r' [<- Hr']].
    rewrite clip_joint_vals_length. apply Hw. exact Hr'.
Qed.

(** The array handed to the smoothing pass has [steps] rows of 6 entries; its
    first and last rows are the start and end rows, normalised once more. *)
Lemma combined_trajectory_rows jt start end_ steps rs re :
  matrix_shape 27 6 jt -> (2 <= steps)%Z ->
  Np.broadcast_to 6 start = Some rs -> Np.broadcast_to 6 end_ = Some re ->
  exists T,
    combined_trajectory jt start end_ steps = Some T /\
    matrix_shape (Z.to_nat steps) 6 T /\
    nth_error T 0 = Some (clip_joint_vals rs) /\
    nth_error T (Z.to_nat steps - 1) = Some (clip_joint_vals re).
Proof.
  intros Hjt Hsteps Hrs Hre. unfold combined_trajectory.
  change (Z.of_nat (num_midpoints + 1)) with 26%Z.
  set (pps := ((steps - 1) / 26)%Z).
  set (rem := ((steps - 1) mod 26)%Z).
  assert (Hpps : (0 <= pps)%Z) by (apply Z.div_pos; lia).
  assert (Hrem : (0 <= rem < 26)%Z) by (apply Z.mod_pos_bound; lia).
  assert (Hsum : (26 * pps + rem = steps - 1)%Z).
  { unfold pps, rem. symmetry. apply Z.div_mod. lia. }
  destruct (sequence_map_defined
              (fun i s => length s = Z.to_nat (segment_steps pps rem i) /\
                          forall r, In r s -> length r = 6%nat)
              (interp_segment jt pps rem) (Np.range 0 26)) as [segs [-> HQ]].
  { intros i Hi. apply range_In in Hi.
    apply interp_segment_defined; [exact Hjt | lia | exact Hpps]. }
  change 26%Z with (Z.of_nat 26) in HQ. rewrite range_0_nat in HQ.
  set (C := vstack_segments segs).
  assert (HC : matrix_shape (Z.to_nat steps) 6 C).
  { split.
    - unfold C.
      pose proof (Forall2_sum_lengths _ _ _ HQ) as Hs.
      pose proof (sum_segment_points pps rem 26 Hpps (proj1 Hrem)) as Hz.
      rewrite <- Hs in Hz.
      destruct segs as [| s0 rest]; [inversion HQ |].
      rewrite vstack_segments_length.
      + lia.
      + change (map Z.of_nat (seq 0 26))
          with (0%Z :: map Z.of_nat (seq 1 25)) in HQ.
        apply Forall2_cons_iff in HQ. destruct HQ as [[Hl0 _] _].
        rewrite Hl0. unfold segment_steps.
        destruct (Z.ltb_spec 0 rem); lia.
    - intros r Hr. apply vstack_segments_In in Hr.
      destruct Hr as [s [Hs Hr]].
      destruct (Forall2_In_r _ _ _ _ HQ Hs) as [i [_ [_ Hw]]].
      apply Hw. exact Hr. }
  unfold traj_width.
  assert (E1 : Np.assign_row 6 C 0 start = Some (Np.set_row C 0 rs)).
  { unfold Np.assign_row.
    rewrite py_index_nonneg by (rewrite (proj1 HC); lia).
    rewrite Hrs. reflexivity. }
  rewrite E1.
  pose proof (assign_row_shape _ _ _ _ _ _ E1 HC) as HC1.
  assert (E2 : Np.assign_row 6 (Np.set_row C 0 rs) (-1) end_
               = Some (Np.set_row (Np.set_row C 0 rs) (Z.to_nat steps - 1) re)).
  { unfold Np.assign_row.
    rewrite py_index_last by (rewrite (proj1 HC1); lia).
    rewrite Hre, (proj1 HC1). reflexivity. }
  rewrite E2.
  pose proof (assign_row_shape _ _ _ _ _ _ E2 HC1) as HC2.
  eexists. split; [reflexivity |].
  split; [apply clip_joint_vals2_shape; exact HC2 |].
  unfold clip_joint_vals2. rewrite !nth_error_map. split.
  - rewrite set_row_nth_error_other by lia.
    rewrite set_row_nth_error_same by (rewrite (proj1 HC); lia).
    reflexivity.
  - rewrite set_row_nth_error_same by (rewrite (proj1 HC1); lia).
    reflexivity.
Qed.

(** ** The smoothing pass *)

Lemma transition_steps_bound steps :
  (1 <= steps)%Z -> (0 <= transition_steps_of steps <= steps - 1)%Z.
Proof.
  intros H. unfold transition_steps_of.
  pose proof (Z.div_mod (2 * steps) 5) as D.
  pose proof (Z.mod_pos_bound (2 * steps) 5) as B.
  lia.
Qed.

(** Overwriting an inner row with a row of 6 entries keeps the shape and the
    two end rows. *)
Lemma assign_inner_row n m i v r0 rl :
  matrix_shape n 6 m ->
  nth_error m 0 = Some r0 -> nth_error m (n - 1) = Some rl ->
  (1 <= i <= Z.of_nat n - 2)%Z -> length v = 6%nat ->
  exists m',
    Np.assign_row traj_width m i v = Some m' /\
    matrix_shape n 6 m' /\
    nth_error m' 0 = Some r0 /\ nth_error m' (n - 1) = Some rl.
Proof.
  intros Hs H0 Hl Hi Hv. unfold traj_width.
  assert (E : Np.assign_row 6 m i v = Some (Np.set_row m (Z.to_nat i) v)).
  { apply assign_row_same_width; [| exact Hv].
    apply py_index_nonneg. rewrite (proj1 Hs). lia. }
  eexists. split; [exact E |].
  split; [apply (assign_row_shape _ _ _ _ _ _ E Hs) |].
  rewrite !set_row_nth_error_other by lia. auto.
Qed.

Lemma smooth_rows steps T r0 rl :
  (2 <= steps)%Z ->
  matrix_shape (Z.to_nat steps) 6 T ->
  nth_error T 0 = Some r0 -> nth_error T (Z.to_nat steps - 1) = Some rl ->
  exists T',
    smooth steps T = Some T' /\
    matrix_shape (Z.to_nat steps) 6 T' /\
    nth_error T' 0 = Some r0 /\ nth_error T' (Z.to_nat steps - 1) = Some rl.
Proof.
  intros Hsteps HT H0 Hl.
  pose proof (transition_steps_bound steps ltac:(lia)) as Hts.
  set (n := Z.to_nat steps) in *.
  set (P := fun m : list (list R) =>
              matrix_shape n 6 m /\
              nth_error m 0 = Some r0 /\ nth_error m (n - 1) = Some rl).
  assert (Hrow : forall m j, P m -> (0 <= j < Z.of_nat n)%Z ->
                 exists r, Np.get_row m j = Some r /\ length r = 6%nat).
  { intros m j [[Hlen Hw] _] Hj.
    destruct (get_row_defined m j) as [r [Er Hr]]; [rewrite Hlen; exact Hj |].
    exists r. split; [exact Er | apply Hw; exact Hr]. }
  assert (Hlast : forall m, P m -> Np.get_row m (-1) = Some rl).
  { intros m [[Hlen _] [_ Hml]].
    rewrite (get_row_nth_error m (-1) (n - 1)); [exact Hml |].
    rewrite <- Hlen. apply py_index_last. rewrite Hlen. unfold n. lia. }
  assert (Hfirst : forall m, P m -> Np.get_row m 0 = Some r0).
  { intros m [[Hlen _] [Hm0 _]].
    rewrite (get_row_nth_error m 0 0%nat); [exact Hm0 |].
    apply py_index_nonneg. rewrite Hlen. unfold n. lia. }
  assert (Hr0 : length r0 = 6%nat).
  { apply (proj2 HT). apply nth_error_In in H0. exact H0. }
  assert (Hrl : length rl = 6%nat).
  { apply (proj2 HT). apply nth_error_In in Hl. exact Hl. }
  unfold smooth.
  destruct (fold_left_invariant P
              (smooth_start_step (transition_steps_of steps))
              (Np.range 1 (transition_steps_of steps))) with (a := T)
    as [T1 [E1 P1]].
  { intros m i Hi Pm. apply range_In in Hi. unfold smooth_start_step.
    rewrite (Hfirst m Pm).
    destruct (Hrow m i Pm) as [row [-> Hw]]; [unfold n; lia |].
    destruct Pm as [Sm [Hm0 Hml]].
    apply assign_inner_row; try assumption; [unfold n; lia |].
    rewrite blend_length, Hr0, Hw. reflexivity. }
  { unfold P. auto. }
  rewrite E1.
  destruct (fold_left_invariant P
              (smooth_end_step steps (transition_steps_of steps))
              (Np.range (steps - transition_steps_of steps) (steps - 1)))
    with (a := T1) as [T2 [E2 P2]].
  { intros m i Hi Pm. apply range_In in Hi. unfold smooth_end_step.
    destruct (Hrow m i Pm) as [row [-> Hw]]; [unfold n; lia |].
    rewrite (Hlast m Pm).
    destruct Pm as [Sm [Hm0 Hml]].
    apply assign_inner_row; try assumption; [unfold n; lia |].
    rewrite blend_length, Hrl, Hw. reflexivity. }
  { exact P1. }
  exists T2. split; [exact E2 | exact P2].
Qed.

(** ** The width of what is returned *)

Lemma sequence_some_In {A B : Type} (g : A -> option B) (l : list A) :
  forall ys, Np.sequence (map g l) = Some ys ->
  forall y, In y ys -> exists x, In x l /\ g x = Some y.
Proof.
  induction l as [| x l IH]; intros ys H y Hy; simpl in H.
  - injection H as <-. destruct Hy.
  - destruct (g x) as [y0 |] eqn:Ex; [| discriminate].
    destruct (Np.sequence (map g l)) as [ys0 |]; [| discriminate].
    injection H as <-. destruct Hy as [<- | Hy].
    + exists x. split; [left; reflexivity | exact Ex].
    + destruct (IH ys0 eq_refl y Hy) as [x' [Hx' Ex']].
      exists x'. split; [right; exact Hx' | exact Ex'].
Qed.

Lemma get_row_In m i r : Np.get_row m i = Some r -> In r m.
Proof.
  unfold Np.get_row. destruct (Np.py_index (length m) i); [| discriminate].
  apply nth_error_In.
Qed.

Lemma assign_row_width width m i v m' :
  Np.assign_row width m i v = Some m' ->
  (forall r, In r m -> length r = width) ->
  forall r, In r m' -> length r = width.
Proof.
  intros H Hw.
  apply (assign_row_shape (length m) width m i v m' H (conj eq_refl Hw)).
Qed.

Lemma interp_segment_width jt pps rem i seg :
  (forall r, In r jt -> length r = 6%nat) ->
  interp_segment jt pps rem i = Some seg ->
  forall r, In r seg -> length r = 6%nat.
Proof.
  intros Hw. unfold interp_segment.
  destruct (Np.linspace_z 0 1 _) as [t |]; [| discriminate].
  destruct (Np.get_row jt i) as [a |] eqn:Ea; [| discriminate].
  destruct (Np.get_row jt (i + 1)) as [b |] eqn:Eb; [| discriminate].
  intros H. injection H as <-. intros r Hr.
  apply in_map_iff in Hr. destruct Hr as [tk [<- _]].
  rewrite blend_length, (Hw a (get_row_In _ _ _ Ea)),
    (Hw b (get_row_In _ _ _ Eb)). reflexivity.
Qed.

Lemma combined_trajectory_width jt start end_ steps T :
  (forall r, In r jt -> length r = 6%nat) ->
  combined_trajectory jt start end_ steps = Some T ->
  forall r, In r T -> length r = 6%nat.
Proof.
  intros Hw. unfold combined_trajectory.
  destruct (Np.sequence _) as [segs |] eqn:Es; [| discriminate].
  destruct (Np.assign_row traj_width (vstack_segments segs) 0 start)
    as [C1 |] eqn:E1; [| discriminate].
  destruct (Np.assign_row traj_width C1 (-1) end_) as [C2 |] eqn:E2;
    [| discriminate].
  intros H. injection H as <-.
  assert (H0 : forall r, In r (vstack_segments segs) -> length r = 6%nat).
  { intros r Hr. apply vstack_segments_In in Hr. destruct Hr as [s [Hs Hr]].
    destruct (sequence_some_In _ _ _ Es s Hs) as [i [_ Ei]].
    apply (interp_segment_width _ _ _ _ _ Hw Ei r Hr). }
  pose proof (assign_row_width _ _ _ _ _ E1 H0) as H1.
  pose proof (assign_row_width _ _ _ _ _ E2 H1) as H2.
  intros r Hr. unfold clip_joint_vals2 in Hr.
  apply in_map_iff in Hr. destruct Hr as [r' [<- Hr']].
  rewrite clip_joint_vals_length. apply H2. exact Hr'.
Qed.

Lemma smooth_width steps T T' :
  smooth steps T = Some T' ->
  (forall r, In r T -> length r = 6%nat) ->
  forall r, In r T' -> length r = 6%nat.
Proof.
  unfold smooth. intros H Hw.
  set (W := fun m : list (list R) => forall r, In r m -> length r = 6%nat).
  destruct (fold_left (smooth_start_step _) _ (Some T)) as [T1 |] eqn:E1;
    [| discriminate].
  assert (H1 : W T1).
  { refine (fold_left_some_invariant W _ _ (fun _ => eq_refl) _ T T1 E1 Hw).
    intros a b a'. unfold smooth_start_step.
    destruct (Np.get_row a 0); [| discriminate].
    destruct (Np.get_row a b); [| discriminate].
    intros Ha Wa. exact (assign_row_width _ _ _ _ _ Ha Wa). }
  refine (fold_left_some_invariant W _ _ (fun _ => eq_refl) _ T1 T' H H1).
  intros a b a'. unfold smooth_end_step.
  destruct (Np.get_row a b); [| discriminate].
  destruct (Np.get_row a (-1)); [| discriminate].
  intros Ha Wa. exact (assign_row_width _ _ _ _ _ Ha Wa).
Qed.

(** ** [task_and_joint_interp] as a whole *)

Section PlannerFacts.

Variable home : list R.
Variable ik : list R -> option (list R) -> list R -> list R.

(** A returned trajectory has rows of 6 entries, and it is returned only when
    the home configuration, the end configuration and the solver's first
    answer each had 6 entries or one. *)
Lemma task_and_joint_interp_some start_pose end_pose end_config steps traj :
  task_and_joint_interp home ik start_pose end_pose end_config steps
  = Some traj ->
  (forall row, In row traj -> length row = 6%nat) /\
  (length home = 6%nat \/ length home = 1%nat) /\
  (length end_config = 6%nat \/ length end_config = 1%nat) /\
  exists p o r, length (ik p o r) = 6%nat \/ length (ik p o r) = 1%nat.
Proof.
  unfold task_and_joint_interp. intros H.
  destruct (waypoints home ik _ _ _ _) as [jt |] eqn:Ew; [| discriminate].
  destruct (combined_trajectory jt _ _ steps) as [T |] eqn:Ec; [| discriminate].
  destruct (waypoints_shape _ _ _ _ _ _ _ Ew) as [[_ Hw] [Hh He]].
  rewrite clip_joint_vals_length in Hh, He.
  split; [| split; [exact Hh | split; [exact He |]]].
  - apply (smooth_width _ _ _ H).
    apply (combined_trajectory_width _ _ _ _ _ Hw Ec).
  - apply (waypoints_first_solve _ _ _ _ _ _ _ Ew).
Qed.

(** With shapes that fit, a trajectory of [steps] rows is returned; its first
    and last rows are the start and end rows normalised a second time. *)
Lemma task_and_joint_interp_rows start_pose end_pose end_config steps :
  (forall p o r, length (ik p o r) = 6%nat \/ length (ik p o r) = 1%nat) ->
  length home = 6%nat \/ length home = 1%nat ->
  length end_config = 6%nat \/ length end_config = 1%nat ->
  (2 <= steps)%Z ->
  exists traj rs re,
    task_and_joint_interp home ik start_pose end_pose end_config steps
    = Some traj /\
    Np.broadcast_to 6 (clip_joint_vals home) = Some rs /\
    Np.broadcast_to 6 (clip_joint_vals end_config) = Some re /\
    matrix_shape (Z.to_nat steps) 6 traj /\
    nth_error traj 0 = Some (clip_joint_vals rs) /\
    nth_error traj (Z.to_nat steps - 1) = Some (clip_joint_vals re).
Proof.
  intros Hik Hh He Hsteps. unfold task_and_joint_interp.
  destruct (waypoints_defined home ik start_pose end_pose
              (clip_joint_vals home) (clip_joint_vals end_config) Hik)
    as [jt [-> Sjt]]; try (rewrite clip_joint_vals_length; assumption).
  destruct (broadcast_to_defined 6 (clip_joint_vals home)) as [rs Hrs];
    [rewrite clip_joint_vals_length; exact Hh |].
  destruct (broadcast_to_defined 6 (clip_joint_vals end_config)) as [re Hre];
    [rewrite clip_joint_vals_length; exact He |].
  destruct (combined_trajectory_rows jt _ _ steps rs re Sjt Hsteps Hrs Hre)
    as [T [-> [ST [T0 Tl]]]].
  destruct (smooth_rows steps T _ _ Hsteps ST T0 Tl) as [T' [-> [ST' [T0' Tl']]]].
  exists T', rs, re. auto 10.
Qed.

End PlannerFacts.

Lemma clip_joint_vals_idempotent l :
  (forall x, In x l -> 3 - 4 * PI < x <= 3 + 2 * PI) ->
  clip_joint_vals (clip_joint_vals l) = clip_joint_vals l.
Proof.
  intros H. unfold clip_joint_vals. rewrite map_map.
  apply map_ext_in. intros x Hx.
  apply clip_joint_val_idempotent_iff. apply H. exact Hx.
Qed.

(** X1: for a six-joint robot whose home and end joint values lie in
    [(3 - 4 pi, 3 + 2 pi]] and [steps >= 2], [task_and_joint_interp] returns
    exactly [steps] rows of 6 values, the first being the normalised home
    configuration and the last the normalised end configuration (the stacked
    segments each drop their first row, see [vstack_segments_cons]). *)
Theorem task_and_joint_interp_endpoints
    (home : list R) (ik : list R -> option (list R) -> list R -> list R)
    (start_pose end_pose : pose) (end_config : list R) (steps : Z) :
  (forall p o r, length (ik p o r) = 6%nat) ->
  length home = 6%nat -> length end_config = 6%nat ->
  (forall x, In x home -> 3 - 4 * PI < x <= 3 + 2 * PI) ->
  (forall x, In x end_config -> 3 - 4 * PI < x <= 3 + 2 * PI) ->
  (2 <= steps)%Z ->
  exists traj,
    task_and_joint_interp home ik start_pose end_pose end_config steps
    = Some traj /\
    length traj = Z.to_nat steps /\
    (forall row, In row traj -> length row = 6%nat) /\
    nth_error traj 0 = Some (clip_joint_vals home) /\
    nth_error traj (Z.to_nat steps - 1) = Some (clip_joint_vals end_config).
Proof.
  intros Hik Hh He Hhome Hend Hsteps.
  destruct (task_and_joint_interp_rows home ik start_pose end_pose end_config
              steps) as [traj [rs [re [E [Hrs [Hre [[Hl Hw] [H0 H1]]]]]]]];
    auto.
  rewrite broadcast_to_same in Hrs by (rewrite clip_joint_vals_length; exact Hh).
  rewrite broadcast_to_same in Hre by (rewrite clip_joint_vals_length; exact He).
  injection Hrs as <-. injection Hre as <-.
  rewrite clip_joint_vals_idempotent in H0 by exact Hhome.
  rewrite clip_joint_vals_idempotent in H1 by exact Hend.
  exists traj. auto.
Qed.

Lemma task_and_joint_interp_endpoints_witness :
  exists traj,
    task_and_joint_interp
      [0; - (PI / 2); 0; - (PI / 2); 0; 0] (fun _ _ _ => [0; 0; 0; 0; 0; 0])
      (mk_vec3 0 0 0, mk_quat 0 0 0 1) (mk_vec3 0.3 0 0, mk_quat 0 0 0 1)
      [1; 4; -4; 0; 0; 0] 250 = Some traj /\
    length traj = 250%nat /\
    nth_error traj 0 = Some (clip_joint_vals [0; - (PI / 2); 0; - (PI / 2); 0; 0]) /\
    nth_error traj 249 = Some (clip_joint_vals [1; 4; -4; 0; 0; 0]).
Proof.
  destruct (task_and_joint_interp_endpoints
              [0; - (PI / 2); 0; - (PI / 2); 0; 0]
              (fun _ _ _ => [0; 0; 0; 0; 0; 0])
              (mk_vec3 0 0 0, mk_quat 0 0 0 1)
              (mk_vec3 0.3 0 0, mk_quat 0 0 0 1)
              [1; 4; -4; 0; 0; 0] 250) as [traj [E [Hl [_ [H0 H1]]]]].
  - reflexivity.
  - reflexivity.
  - reflexivity.
  - intros x Hx. pose proof PI_bounds. simpl in Hx.
    destruct Hx as [<- | [<- | [<- | [<- | [<- | [<- | []]]]]]]; lra.
  - intros x Hx. pose proof PI_bounds. simpl in Hx.
    destruct Hx as [<- | [<- | [<- | [<- | [<- | [<- | []]]]]]]; lra.
  - lia.
  - exists traj. auto.
Defined.

(** C3 (evaluation at the failing input): with the home configuration
    [[10, 0, 0, 0, 0, 0]] and 250 steps the path has 250 rows, but its first
    row is [[10 - 4 pi, 0, 0, 0, 0, 0]] while the normalised home
    configuration is [[10 - 2 pi, 0, 0, 0, 0, 0]]: the start row written into
    the path is normalised a second time with the rest of the array. *)
Theorem task_and_joint_interp_reclips_home :
  exists traj,
    task_and_joint_interp
      [10; 0; 0; 0; 0; 0] (fun _ _ _ => [0; 0; 0; 0; 0; 0])
      (mk_vec3 0 0 0, mk_quat 0 0 0 1) (mk_vec3 0.3 0 0, mk_quat 0 0 0 1)
      [0; 0; 0; 0; 0; 0] 250 = Some traj /\
    length traj = 250%nat /\
    clip_joint_vals [10; 0; 0; 0; 0; 0] = [10 - 2 * PI; 0; 0; 0; 0; 0] /\
    nth_error traj 0 = Some [10 - 4 * PI; 0; 0; 0; 0; 0] /\
    nth_error traj 0 <> Some (clip_joint_vals [10; 0; 0; 0; 0; 0]).
Proof.
  pose proof PI_bounds as HPI.
  assert (C0 : clip_joint_val 0 = 0) by (apply clip_joint_val_inside; lra).
  assert (C1 : clip_joint_vals [10; 0; 0; 0; 0; 0]
               = [10 - 2 * PI; 0; 0; 0; 0; 0]).
  { cbn [clip_joint_vals map]. rewrite C0.
    rewrite clip_joint_val_above by lra. reflexivity. }
  assert (C2 : clip_joint_vals [10 - 2 * PI; 0; 0; 0; 0; 0]
               = [10 - 4 * PI; 0; 0; 0; 0; 0]).
  { cbn [clip_joint_vals map]. rewrite C0.
    rewrite clip_joint_val_above by lra. f_equal. lra. }
  destruct (task_and_joint_interp_rows
              [10; 0; 0; 0; 0; 0] (fun _ _ _ => [0; 0; 0; 0; 0; 0])
              (mk_vec3 0 0 0, mk_quat 0 0 0 1)
              (mk_vec3 0.3 0 0, mk_quat 0 0 0 1)
              [0; 0; 0; 0; 0; 0] 250)
    as [traj [rs [re [E [Hrs [_ [[Hl _] [H0 _]]]]]]]];
    try (left; reflexivity); try lia.
  rewrite C1 in Hrs. rewrite broadcast_to_same in Hrs by reflexivity.
  injection Hrs as <-. rewrite C2 in H0.
  exists traj. split; [exact E |]. split; [exact Hl |]. split; [exact C1 |].
  split; [exact H0 |].
  rewrite H0, C1. intros Heq. injection Heq as Heq. lra.
Qed.

(** C10 (as stated, refuted): for a robot with a single controllable joint,
    whose configurations and inverse-kinematics solutions have one value, the
    call is well defined; every row of the result still has 6 values. *)
Lemma task_and_joint_interp_one_joint :
  exists traj,
    task_and_joint_interp [0] (fun _ _ _ => [0])
      (mk_vec3 0 0 0, mk_quat 0 0 0 1) (mk_vec3 0.3 0 0, mk_quat 0 0 0 1)
      [0] 250 = Some traj /\
    (forall row, In row traj -> length row = 6%nat) /\
    length [0] <> 6%nat.
Proof.
  destruct (task_and_joint_interp_rows [0] (fun _ _ _ => [0])
              (mk_vec3 0 0 0, mk_quat 0 0 0 1)
              (mk_vec3 0.3 0 0, mk_quat 0 0 0 1) [0] 250)
    as [traj [rs [re [E [_ [_ [[_ Hw] _]]]]]]];
    try (right; reflexivity); try lia.
  exists traj. split; [exact E |]. split; [exact Hw |]. simpl. lia.
Qed.

(** C10 (amended): the waypoint array of [task_and_joint_interp] is 6 columns
    wide whatever the robot, so every configuration it returns has exactly 6
    joint values; for a robot whose inverse-kinematics solutions have [n]
    values the call is well defined only if [n] is 6 or 1 and the home and end
    configurations have 6 values or 1 (numpy broadcasts a single value over
    the 6 columns), and for [steps >= 2] it is well defined in each of these
    cases. *)
Theorem task_and_joint_interp_width
    (home : list R) (ik : list R -> option (list R) -> list R -> list R)
    (n : nat) (start_pose end_pose : pose) (end_config : list R) (steps : Z) :
  (forall p o r, length (ik p o r) = n) ->
  (forall traj,
      task_and_joint_interp home ik start_pose end_pose end_config steps
      = Some traj ->
      (forall row, In row traj -> length row = 6%nat) /\
      (n = 6%nat \/ n = 1%nat) /\
      (length home = 6%nat \/ length home = 1%nat) /\
      (length end_config = 6%nat \/ length end_config = 1%nat)) /\
  ((n = 6%nat \/ n = 1%nat) ->
   (length home = 6%nat \/ length home = 1%nat) ->
   (length end_config = 6%nat \/ length end_config = 1%nat) ->
   (2 <= steps)%Z ->
   exists traj,
     task_and_joint_interp home ik start_pose end_pose end_config steps
     = Some traj /\
     length traj = Z.to_nat steps /\
     forall row, In row traj -> length row = 6%nat).
Proof.
  intros Hn. split.
  - intros traj E.
    destruct (task_and_joint_interp_some _ _ _ _ _ _ _ E)
      as [Hw [Hh [He [p [o [r Hik]]]]]].
    rewrite Hn in Hik. auto.
  - intros Hn6 Hh He Hsteps.
    destruct (task_and_joint_interp_rows home ik start_pose end_pose end_config
                steps) as [traj [rs [re [E [_ [_ [[Hl Hw] _]]]]]]]; auto.
    + intros p o r. rewrite Hn. exact Hn6.
    + exists traj. auto.
Qed.

Lemma task_and_joint_interp_width_witness :
  exists traj,
    task_and_joint_interp
      [0; - (PI / 2); 0; - (PI / 2); 0; 0] (fun _ _ _ => [0; 0; 0; 0; 0; 0])
      (mk_vec3 0 0 0, mk_quat 0 0 0 1) (mk_vec3 0.3 0 0, mk_quat 0 0 0 1)
      [1; 4; -4; 0; 0; 0] 250 = Some traj /\
    length traj = 250%nat /\
    forall row, In row traj -> length row = 6%nat.
Proof.
  apply (proj2 (task_and_joint_interp_width
                  [0; - (PI / 2); 0; - (PI / 2); 0; 0]
                  (fun _ _ _ => [0; 0; 0; 0; 0; 0]) 6
                  (mk_vec3 0 0 0, mk_quat 0 0 0 1)
                  (mk_vec3 0.3 0 0, mk_quat 0 0 0 1)
                  [1; 4; -4; 0; 0; 0] 250 (fun _ _ _ => eq_refl))).
  - left; reflexivity.
  - left; reflexivity.
  - left; reflexivity.
  - lia.
Defined.

(** * Further properties *)

(** ** The pose check beyond identical poses *)

Lemma np_leb_false a b : b < a -> Np.leb a b = false.
Proof.
  intros H. unfold Np.leb.
  destruct (Rle_dec a b); [lra | reflexivity].
Qed.

(** Entry 0 of the relative quaternion changes sign when the two
    orientations are swapped. *)
Lemma relative_q0_swap (qa qb : quat) :
  q0 (quat_mul (q1_conjugate qb) qa) = - q0 (quat_mul (q1_conjugate qa) qb).
Proof. destruct qa, qb. simpl. ring. Qed.

(** The check in terms of [v], entry 0 of the relative quaternion, known up
    to its sign. *)
Lemma check_pose_within_tolerance_eq flip
    (pa : vec3) (qa : quat) (pb : vec3) (qb : quat)
    (pos_tolerance ori_tolerance : R) :
  quat_norm2 qa <> 0 -> quat_norm2 qb <> 0 ->
  exists v,
    Rabs v = Rabs (q0 (quat_mul (q1_conjugate qb) qa)
                   / (sqrt (quat_norm2 qb) * sqrt (quat_norm2 qa))) /\
    check_pose_within_tolerance flip pa qa pb qb pos_tolerance ori_tolerance
    = Np.leb (norm_diff pa pb) pos_tolerance
      && Np.leb (Rabs (PI - 2 * acos (Np.clip v (-1) 1))) ori_tolerance.
Proof.
  intros Ha Hb.
  destruct (quaternion_angle_difference_some flip qb qa Hb Ha) as [v [E Hv]].
  exists v. split; [exact Hv |].
  unfold check_pose_within_tolerance. rewrite E. reflexivity.
Qed.

Lemma check_pose_within_tolerance_nan flip
    (pa : vec3) (qa : quat) (pb : vec3) (qb : quat)
    (pos_tolerance ori_tolerance : R) :
  quat_norm2 qa = 0 \/ quat_norm2 qb = 0 ->
  check_pose_within_tolerance flip pa qa pb qb pos_tolerance ori_tolerance
  = false.
Proof.
  intros H. unfold check_pose_within_tolerance.
  rewrite quaternion_angle_difference_nan by tauto. reflexivity.
Qed.

Lemma norm_diff_sym (a b : vec3) : norm_diff a b = norm_diff b a.
Proof. unfold norm_diff. f_equal. ring. Qed.

Lemma norm_diff_ge_coord (a b : vec3) :
  Rabs (vx a - vx b) <= norm_diff a b /\
  Rabs (vy a - vy b) <= norm_diff a b /\
  Rabs (vz a - vz b) <= norm_diff a b.
Proof.
  unfold norm_diff.
  set (dx := vx a - vx b). set (dy := vy a - vy b). set (dz := vz a - vz b).
  assert (Hx : 0 <= dx ^ 2) by nra.
  assert (Hy : 0 <= dy ^ 2) by nra.
  assert (Hz : 0 <= dz ^ 2) by nra.
  repeat split.
  - rewrite <- (sqrt_Rsqr_abs dx), Rsqr_pow2. apply sqrt_le_1_alt. lra.
  - rewrite <- (sqrt_Rsqr_abs dy), Rsqr_pow2. apply sqrt_le_1_alt. lra.
  - rewrite <- (sqrt_Rsqr_abs dz), Rsqr_pow2. apply sqrt_le_1_alt. lra.
Qed.

(** X2: [check_pose_within_tolerance] gives the same answer when the achieved
    and the target pose are exchanged. *)
Theorem check_pose_within_tolerance_sym (flip : quat -> quat -> bool)
    (pa : vec3) (qa : quat) (pb : vec3) (qb : quat)
    (pos_tolerance ori_tolerance : R) :
  check_pose_within_tolerance flip pa qa pb qb pos_tolerance ori_tolerance
  = check_pose_within_tolerance flip pb qb pa qa pos_tolerance ori_tolerance.
Proof.
  destruct (Req_dec (quat_norm2 qa) 0) as [Ha | Ha];
    [rewrite !check_pose_within_tolerance_nan by tauto; reflexivity |].
  destruct (Req_dec (quat_norm2 qb) 0) as [Hb | Hb];
    [rewrite !check_pose_within_tolerance_nan by tauto; reflexivity |].
  destruct (check_pose_within_tolerance_eq flip pa qa pb qb
              pos_tolerance ori_tolerance Ha Hb) as [v [Hv ->]].
  destruct (check_pose_within_tolerance_eq flip pb qb pa qa
              pos_tolerance ori_tolerance Hb Ha) as [v' [Hv' ->]].
  rewrite (norm_diff_sym pa pb). f_equal. f_equal.
  apply ori_error_abs. rewrite Hv, Hv', (relative_q0_swap qa qb).
  rewrite <- (Rabs_Ropp (q0 (quat_mul (q1_conjugate qa) qb) / _)).
  rewrite (Rmult_comm (sqrt (quat_norm2 qb))). f_equal. unfold Rdiv. ring.
Qed.

(** X3: when one coordinate of the achieved position is off the target by
    more than the position tolerance, the check fails, whatever the
    orientations and the orientation tolerance. *)
Theorem check_pose_within_tolerance_offset (flip : quat -> quat -> bool)
    (pa : vec3) (qa : quat) (pb : vec3) (qb : quat)
    (pos_tolerance ori_tolerance : R) :
  pos_tolerance < Rabs (vx pa - vx pb) \/
  pos_tolerance < Rabs (vy pa - vy pb) \/
  pos_tolerance < Rabs (vz pa - vz pb) ->
  check_pose_within_tolerance flip pa qa pb qb pos_tolerance ori_tolerance
  = false.
Proof.
  intros H. unfold check_pose_within_tolerance.
  destruct (quaternion_angle_difference flip qb qa); [| reflexivity].
  destruct (norm_diff_ge_coord pa pb) as [Hx [Hy Hz]].
  rewrite np_leb_false by (destruct H as [H | [H | H]]; lra).
  reflexivity.
Qed.

Lemma check_pose_within_tolerance_offset_witness :
  check_pose_within_tolerance (fun _ _ => false)
    (mk_vec3 0.3 0 0.52) (mk_quat 0 0 0 1)
    (mk_vec3 0.3 0 0.5) (mk_quat 0 0 0 1) 0.01 0.05 = false.
Proof.
  apply check_pose_within_tolerance_offset.
  right. right. cbn [vz]. unfold Rabs. destruct (Rcase_abs _); lra.
Defined.

(** X4: with a negative position tolerance or a negative orientation
    tolerance the check fails for every pair of poses, identical ones
    included. *)
Theorem check_pose_within_tolerance_negative (flip : quat -> quat -> bool)
    (pa : vec3) (qa : quat) (pb : vec3) (qb : quat)
    (pos_tolerance ori_tolerance : R) :
  pos_tolerance < 0 \/ ori_tolerance < 0 ->
  check_pose_within_tolerance flip pa qa pb qb pos_tolerance ori_tolerance
  = false.
Proof.
  intros H. unfold check_pose_within_tolerance.
  destruct (quaternion_angle_difference flip qb qa) as [angle |];
    [| reflexivity].
  destruct H as [H | H].
  - rewrite np_leb_false; [reflexivity |].
    unfold norm_diff. pose proof (sqrt_pos
      ((vx pa - vx pb) ^ 2 + (vy pa - vy pb) ^ 2 + (vz pa - vz pb) ^ 2)). lra.
  - rewrite (np_leb_false (Rabs _) ori_tolerance).
    + apply andb_false_r.
    + pose proof (Rabs_pos (PI - angle)). lra.
Qed.

Lemma check_pose_within_tolerance_negative_witness :
  check_pose_within_tolerance (fun _ _ => false)
    (mk_vec3 0.3 0 0.5) (mk_quat 0 0 0 1)
    (mk_vec3 0.3 0 0.5) (mk_quat 0 0 0 1) 0.01 (-0.05) = false.
Proof.
  apply check_pose_within_tolerance_negative. right. lra.
Defined.

(** X5: for orientations other than the zero quaternion, an orientation
    tolerance of [pi] or more accepts every pair of orientations: the check
    then depends on the positions only. *)
Theorem check_pose_within_tolerance_wide (flip : quat -> quat -> bool)
    (pa : vec3) (qa : quat) (pb : vec3) (qb : quat)
    (pos_tolerance ori_tolerance : R) :
  qa <> mk_quat 0 0 0 0 -> qb <> mk_quat 0 0 0 0 ->
  PI <= ori_tolerance ->
  check_pose_within_tolerance flip pa qa pb qb pos_tolerance ori_tolerance
  = Np.leb (norm_diff pa pb) pos_tolerance.
Proof.
  intros Ha Hb H. rewrite <- quat_norm2_zero_iff in Ha, Hb.
  destruct (check_pose_within_tolerance_eq flip pa qa pb qb
              pos_tolerance ori_tolerance Ha Hb) as [v [_ ->]].
  rewrite (np_leb_true (Rabs _) ori_tolerance); [apply andb_true_r |].
  pose proof (acos_bound (Np.clip v (-1) 1)).
  unfold Rabs. destruct (Rcase_abs _); lra.
Qed.

Lemma check_pose_within_tolerance_wide_witness :
  check_pose_within_tolerance (fun _ _ => false)
    (mk_vec3 0 0 0) (mk_quat 1 0 0 0)
    (mk_vec3 0 0 0) (mk_quat 0 0 0 1) 0.01 4
  = Np.leb (norm_diff (mk_vec3 0 0 0) (mk_vec3 0 0 0)) 0.01.
Proof.
  apply check_pose_within_tolerance_wide.
  - intros E. injection E as E. lra.
  - intros E. injection E as E. lra.
  - pose proof PI_bounds. lra.
Defined.

(** X6: replacing an orientation quaternion by its negative, which stands
    for the same rotation, does not change the answer. *)
Theorem check_pose_within_tolerance_neg_quat (flip : quat -> quat -> bool)
    (pa : vec3) (qa : quat) (pb : vec3) (qb : quat)
    (pos_tolerance ori_tolerance : R) :
  let neg q := mk_quat (- q0 q) (- q1 q) (- q2 q) (- q3 q) in
  check_pose_within_tolerance flip pa (neg qa) pb qb
                              pos_tolerance ori_tolerance
  = check_pose_within_tolerance flip pa qa pb qb
                                pos_tolerance ori_tolerance /\
  check_pose_within_tolerance flip pa qa pb (neg qb)
                              pos_tolerance ori_tolerance
  = check_pose_within_tolerance flip pa qa pb qb
                                pos_tolerance ori_tolerance.
Proof.
  intros neg.
  assert (N : forall q, quat_norm2 (neg q) = quat_norm2 q)
    by (intros [x y z w]; unfold quat_norm2; simpl; ring).
  assert (E1 : q0 (quat_mul (q1_conjugate qb) (neg qa))
               = - q0 (quat_mul (q1_conjugate qb) qa))
    by (destruct qa, qb; simpl; ring).
  assert (E2 : q0 (quat_mul (q1_conjugate (neg qb)) qa)
               = - q0 (quat_mul (q1_conjugate qb) qa))
    by (destruct qa, qb; simpl; ring).
  destruct (Req_dec (quat_norm2 qa) 0) as [Ha | Ha];
    [rewrite !check_pose_within_tolerance_nan by (rewrite ?N; tauto);
     split; reflexivity |].
  destruct (Req_dec (quat_norm2 qb) 0) as [Hb | Hb];
    [rewrite !check_pose_within_tolerance_nan by (rewrite ?N; tauto);
     split; reflexivity |].
  destruct (check_pose_within_tolerance_eq flip pa qa pb qb
              pos_tolerance ori_tolerance Ha Hb) as [v [Hv ->]].
  destruct (check_pose_within_tolerance_eq flip pa (neg qa) pb qb
              pos_tolerance ori_tolerance) as [v1 [Hv1 ->]];
    [rewrite N; exact Ha | exact Hb |].
  destruct (check_pose_within_tolerance_eq flip pa qa pb (neg qb)
              pos_tolerance ori_tolerance) as [v2 [Hv2 ->]];
    [exact Ha | rewrite N; exact Hb |].
  rewrite N, E1 in Hv1. rewrite N, E2 in Hv2.
  assert (A : forall x d, Rabs (- x / d) = Rabs (x / d)).
  { intros x d. rewrite <- (Rabs_Ropp (x / d)). f_equal. unfold Rdiv. ring. }
  rewrite A in Hv1, Hv2.
  split; f_equal; f_equal; apply ori_error_abs; congruence.
Qed.

Lemma relative_q0_identity_target x y z w :
  q0 (quat_mul (q1_conjugate (mk_quat 0 0 0 1)) (mk_quat x y z w)) = - x.
Proof. simpl. ring. Qed.

(** X7: the orientation test reads entry 0 of the relative quaternion only.
    Against the target orientation [[0, 0, 0, 1]] every achieved orientation
    other than the zero quaternion whose entry 0 is zero (a rotation about an
    axis in the y-z plane, by any angle) is accepted with any non-negative
    orientation tolerance. *)
Theorem check_pose_within_tolerance_blind (flip : quat -> quat -> bool)
    (position : vec3) (qy qz qw : R) (pos_tolerance ori_tolerance : R) :
  mk_quat 0 qy qz qw <> mk_quat 0 0 0 0 ->
  0 <= pos_tolerance -> 0 <= ori_tolerance ->
  check_pose_within_tolerance flip position (mk_quat 0 qy qz qw)
                              position (mk_quat 0 0 0 1)
                              pos_tolerance ori_tolerance = true.
Proof.
  intros Hq Hp Ho. rewrite <- quat_norm2_zero_iff in Hq.
  destruct (check_pose_within_tolerance_eq flip
              position (mk_quat 0 qy qz qw) position (mk_quat 0 0 0 1)
              pos_tolerance ori_tolerance Hq) as [v [Hv ->]].
  { unfold quat_norm2. simpl. lra. }
  rewrite norm_diff_same.
  rewrite relative_q0_identity_target in Hv.
  rewrite (ori_error_abs v 0).
  - rewrite np_clip_inside by lra. rewrite acos_0.
    replace (PI - 2 * (PI / 2)) with 0 by field. rewrite Rabs_R0.
    rewrite !np_leb_true by lra. reflexivity.
  - rewrite Hv. f_equal. unfold Rdiv. ring.
Qed.

Lemma check_pose_within_tolerance_blind_witness :
  check_pose_within_tolerance (fun _ _ => false)
                              (mk_vec3 0.3 0 0.5) (mk_quat 0 0 1 0)
                              (mk_vec3 0.3 0 0.5) (mk_quat 0 0 0 1)
                              0.01 0.05 = true.
Proof.
  apply check_pose_within_tolerance_blind; try lra.
  intros E. injection E as E. lra.
Defined.

(** X8: against the target orientation [[0, 0, 0, 1]], an achieved
    orientation that is a rotation by [theta] about the x axis, with
    [-pi <= theta <= pi], passes the orientation test exactly when
    [|theta| <= ori_tolerance]. *)
Theorem check_pose_within_tolerance_roll (flip : quat -> quat -> bool)
    (position : vec3) (theta pos_tolerance ori_tolerance : R) :
  - PI <= theta <= PI -> 0 <= pos_tolerance ->
  check_pose_within_tolerance flip
    position (mk_quat (sin (theta / 2)) 0 0 (cos (theta / 2)))
    position (mk_quat 0 0 0 1) pos_tolerance ori_tolerance
  = Np.leb (Rabs theta) ori_tolerance.
Proof.
  intros Ht Hp.
  assert (N1 : quat_norm2 (mk_quat (sin (theta / 2)) 0 0 (cos (theta / 2)))
               = 1).
  { unfold quat_norm2. simpl. pose proof (sin2_cos2 (theta / 2)) as H.
    unfold Rsqr in H. lra. }
  assert (N2 : quat_norm2 (mk_quat 0 0 0 1) = 1)
    by (unfold quat_norm2; simpl; ring).
  destruct (check_pose_within_tolerance_eq flip
              position (mk_quat (sin (theta / 2)) 0 0 (cos (theta / 2)))
              position (mk_quat 0 0 0 1) pos_tolerance ori_tolerance)
    as [v [Hv ->]]; [lra | lra |].
  rewrite norm_diff_same, np_leb_true by exact Hp.
  cbn [andb]. f_equal.
  rewrite relative_q0_identity_target, N1, N2, sqrt_1 in Hv.
  rewrite (ori_error_abs v (- sin (theta / 2)))
    by (rewrite Hv; f_equal; field).
  pose proof (SIN_bound (theta / 2)) as Hs.
  rewrite np_clip_inside by lra.
  rewrite acos_opp, acos_asin by lra.
  rewrite asin_sin by lra.
  replace (PI - 2 * (PI - (PI / 2 - theta / 2))) with (- theta) by field.
  apply Rabs_Ropp.
Qed.

Lemma check_pose_within_tolerance_roll_witness :
  check_pose_within_tolerance (fun _ _ => false)
    (mk_vec3 0 0 0) (mk_quat (sin (0.2 / 2)) 0 0 (cos (0.2 / 2)))
    (mk_vec3 0 0 0) (mk_quat 0 0 0 1) 0.01 0.05
  = Np.leb (Rabs 0.2) 0.05.
Proof.
  apply check_pose_within_tolerance_roll; pose proof PI_bounds; lra.
Defined.

(** ** The bounding-box collision test *)

Lemma py_ge_true_iff a b : py_ge a b = true <-> b <= a.
Proof.
  unfold py_ge. destruct (Rge_dec a b); split; intros; try reflexivity;
    try discriminate; lra.
Qed.

Lemma np_leb_true_iff a b : Np.leb a b = true <-> a <= b.
Proof.
  unfold Np.leb. destruct (Rle_dec a b); split; intros; try reflexivity;
    try discriminate; lra.
Qed.

(** The overlap test holds when the two boxes share a point on each of the
    three axes, boundaries included. *)
Lemma aabb_overlap_iff (a b : aabb) :
  aabb_overlap a b = true <->
  (vx (fst b) <= vx (snd a) /\ vx (fst a) <= vx (snd b)) /\
  (vy (fst b) <= vy (snd a) /\ vy (fst a) <= vy (snd b)) /\
  (vz (fst b) <= vz (snd a) /\ vz (fst a) <= vz (snd b)).
Proof.
  unfold aabb_overlap.
  rewrite !andb_true_iff, !py_ge_true_iff, !np_leb_true_iff. tauto.
Qed.

Lemma check_collision_aabb_iff idx link_aabb plane_aabb :
  check_collision_aabb idx link_aabb plane_aabb = true <->
  exists i, In i idx /\ aabb_overlap (link_aabb i) plane_aabb = true.
Proof.
  induction idx as [| i rest IH]; simpl.
  - split; [discriminate | intros [i [[] _]]].
  - destruct (aabb_overlap (link_aabb i) plane_aabb) eqn:E.
    + split; [intros _; exists i; auto | reflexivity].
    + rewrite IH. split.
      * intros [j [Hj Ej]]. exists j. auto.
      * intros [j [[<- | Hj] Ej]]; [congruence | exists j; auto].
Qed.

(** X9: when every controllable link's box lies strictly above the plane's
    box (its lowest z above the plane's highest z), [check_collision_aabb]
    reports no collision; the same holds for a gap along any other axis, in
    either direction. *)
Theorem check_collision_aabb_separated
    (idx : list nat) (link_aabb : nat -> aabb) (plane_aabb : aabb) :
  (forall i, In i idx ->
     vx (snd (link_aabb i)) < vx (fst plane_aabb) \/
     vx (snd plane_aabb) < vx (fst (link_aabb i)) \/
     vy (snd (link_aabb i)) < vy (fst plane_aabb) \/
     vy (snd plane_aabb) < vy (fst (link_aabb i)) \/
     vz (snd (link_aabb i)) < vz (fst plane_aabb) \/
     vz (snd plane_aabb) < vz (fst (link_aabb i))) ->
  check_collision_aabb idx link_aabb plane_aabb = false.
Proof.
  intros H.
  destruct (check_collision_aabb idx link_aabb plane_aabb) eqn:E;
    [| reflexivity].
  apply check_collision_aabb_iff in E. destruct E as [i [Hi Ho]].
  apply aabb_overlap_iff in Ho. specialize (H i Hi). lra.
Qed.

Lemma check_collision_aabb_separated_witness :
  check_collision_aabb [0%nat; 1%nat]
    (fun i => (mk_vec3 (-0.1) (-0.1) (0.2 + INR i),
               mk_vec3 0.1 0.1 (0.4 + INR i)))
    (mk_vec3 (-15) (-15) (-0.01), mk_vec3 15 15 0) = false.
Proof.
  apply check_collision_aabb_separated.
  intros i Hi. do 5 right. cbn [fst snd vz].
  pose proof (pos_INR i). lra.
Defined.

(** X10: touching counts as a collision: a controllable link whose box
    overlaps the plane's box in x and y and whose lowest z equals the plane's
    highest z is reported. *)
Theorem check_collision_aabb_touching
    (idx : list nat) (link_aabb : nat -> aabb) (plane_aabb : aabb) (i : nat) :
  In i idx ->
  vx (fst plane_aabb) <= vx (snd (link_aabb i)) ->
  vx (fst (link_aabb i)) <= vx (snd plane_aabb) ->
  vy (fst plane_aabb) <= vy (snd (link_aabb i)) ->
  vy (fst (link_aabb i)) <= vy (snd plane_aabb) ->
  vz (fst (link_aabb i)) <= vz (snd (link_aabb i)) ->
  vz (fst plane_aabb) <= vz (snd plane_aabb) ->
  vz (fst (link_aabb i)) = vz (snd plane_aabb) ->
  check_collision_aabb idx link_aabb plane_aabb = true.
Proof.
  intros Hi Hx1 Hx2 Hy1 Hy2 Hzl Hzp Hz.
  apply check_collision_aabb_iff. exists i. split; [exact Hi |].
  apply aabb_overlap_iff. lra.
Qed.

Lemma check_collision_aabb_touching_witness :
  check_collision_aabb [2%nat]
    (fun _ => (mk_vec3 (-0.1) (-0.1) 0, mk_vec3 0.1 0.1 0.3))
    (mk_vec3 (-15) (-15) (-0.01), mk_vec3 15 15 0) = true.
Proof.
  apply (check_collision_aabb_touching _ _ _ 2%nat);
    cbn [fst snd vx vy vz]; try lra.
  left. reflexivity.
Defined.

(** X11: only the links of the controllable joints are tested: two robots
    whose boxes agree on those links get the same answer, whatever the boxes
    of their other links (a link behind a fixed joint is never looked at). *)
Theorem check_collision_aabb_only_controllable
    (idx : list nat) (link_aabb link_aabb' : nat -> aabb) (plane_aabb : aabb) :
  (forall i, In i idx -> link_aabb i = link_aabb' i) ->
  check_collision_aabb idx link_aabb plane_aabb
  = check_collision_aabb idx link_aabb' plane_aabb.
Proof.
  induction idx as [| i rest IH]; intros H; simpl; [reflexivity |].
  rewrite <- (H i) by (left; reflexivity).
  rewrite IH by (intros j Hj; apply H; right; exact Hj).
  reflexivity.
Qed.

Lemma check_collision_aabb_only_controllable_witness :
  check_collision_aabb [1%nat]
    (fun i => (mk_vec3 0 0 (INR i), mk_vec3 1 1 (INR i + 1)))
    (mk_vec3 (-15) (-15) (-0.01), mk_vec3 15 15 0)
  = check_collision_aabb [1%nat]
    (fun i => if Nat.eqb i 0
              then (mk_vec3 0 0 (-1), mk_vec3 1 1 1)
              else (mk_vec3 0 0 (INR i), mk_vec3 1 1 (INR i + 1)))
    (mk_vec3 (-15) (-15) (-0.01), mk_vec3 15 15 0).
Proof.
  apply check_collision_aabb_only_controllable.
  intros i [<- | []]. reflexivity.
Defined.

(** ** Robot setup and the joint state *)

Lemma map_id_on {A : Type} (f : A -> A) (l : list A) :
  (forall x, In x l -> f x = x) -> map f l = l.
Proof.
  induction l as [| a l IH]; intros H; simpl; [reflexivity |].
  rewrite (H a) by (left; reflexivity).
  rewrite IH by (intros x Hx; apply H; right; exact Hx). reflexivity.
Qed.

Lemma seq_strongly_sorted len : forall start,
  StronglySorted lt (seq start len).
Proof.
  induction len as [| len IH]; intros start; simpl; constructor.
  - apply IH.
  - apply Forall_forall. intros x Hx. apply in_seq in Hx. lia.
Qed.

Lemma filter_strongly_sorted (f : nat -> bool) l :
  StronglySorted lt l -> StronglySorted lt (filter f l).
Proof.
  induction 1 as [| a l Hs IH Ha]; simpl; [constructor |].
  destruct (f a); [| exact IH].
  constructor; [exact IH |].
  apply Forall_forall. intros x Hx. apply filter_In in Hx.
  rewrite Forall_forall in Ha. apply Ha. tauto.
Qed.

(** When the simulator numbers its joints as it does ([getJointInfo(j)[0]]
    is [j]), the list is the filter of [range(num_joints)]. *)
Lemma controllable_joint_idx_filter num_joints getJointInfo :
  (forall j, (j < num_joints)%nat -> jointIndex (getJointInfo j) = j) ->
  controllable_joint_idx num_joints getJointInfo
  = filter (fun joint => is_controllable (jointType (getJointInfo joint)))
           (seq 0 num_joints).
Proof.
  intros H. unfold controllable_joint_idx. apply map_id_on.
  intros j Hj. apply filter_In in Hj. destruct Hj as [Hj _].
  apply in_seq in Hj. apply H. lia.
Qed.

(** X12: [setup_robot] collects exactly the joints of type revolute or
    prismatic, each once and in increasing order, and one pair of limits for
    each of them. *)
Theorem controllable_joint_idx_spec
    (num_joints : nat) (getJointInfo : nat -> joint_info) :
  (forall j, (j < num_joints)%nat -> jointIndex (getJointInfo j) = j) ->
  let idx := controllable_joint_idx num_joints getJointInfo in
  (forall i, In i idx <->
             (i < num_joints)%nat /\
             (jointType (getJointInfo i) = JOINT_REVOLUTE \/
              jointType (getJointInfo i) = JOINT_PRISMATIC)) /\
  NoDup idx /\ StronglySorted lt idx /\
  (length idx <= num_joints)%nat /\
  length (joint_limits num_joints getJointInfo) = length idx.
Proof.
  intros H idx. unfold idx.
  rewrite (controllable_joint_idx_filter _ _ H).
  split; [| split; [| split; [| split]]].
  - intros i. rewrite filter_In, in_seq. unfold is_controllable.
    destruct (jointType (getJointInfo i)); intuition (try lia; discriminate).
  - apply NoDup_filter, seq_NoDup.
  - apply filter_strongly_sorted, seq_strongly_sorted.
  - pose proof (filter_length_le
      (fun joint => is_controllable (jointType (getJointInfo joint)))
      (seq 0 num_joints)) as Hle.
    rewrite length_seq in Hle. exact Hle.
  - unfold joint_limits. rewrite length_map.
    rewrite (controllable_joint_idx_filter _ _ H). reflexivity.
Qed.

Lemma controllable_joint_idx_spec_witness :
  NoDup (controllable_joint_idx 3
           (fun j => mk_joint_info j
                       (if Nat.eqb j 1 then JOINT_FIXED else JOINT_REVOLUTE)
                       (-1) 1)).
Proof.
  apply (controllable_joint_idx_spec 3
           (fun j => mk_joint_info j
                       (if Nat.eqb j 1 then JOINT_FIXED else JOINT_REVOLUTE)
                       (-1) 1)).
  intros j _. reflexivity.
Defined.

Lemma reset_joint_positions_from_spec idx : forall i joint_positions st,
  NoDup idx -> (i + length idx <= length joint_positions)%nat ->
  exists st',
    reset_joint_positions_from i idx joint_positions st = Some st' /\
    get_joint_positions idx st' = firstn (length idx) (skipn i joint_positions) /\
    forall j, ~ In j idx -> st' j = st j.
Proof.
  induction idx as [| k rest IH]; intros i joint_positions st Hnd Hlen.
  - exists st. simpl. auto.
  - inversion Hnd as [| k' rest' Hk Hnd']; subst.
    simpl in Hlen. cbn [reset_joint_positions_from].
    destruct (nth_error joint_positions i) as [value |] eqn:Ev;
      [| apply nth_error_None in Ev; lia].
    destruct (IH (S i) joint_positions (resetJointState st k value) Hnd')
      as [st' [E [Hget Hframe]]]; [lia |].
    exists st'. split; [exact E |]. split.
    + cbn [get_joint_positions map length].
      unfold get_joint_positions in Hget. rewrite Hget.
      rewrite (Hframe k Hk). unfold resetJointState. rewrite Nat.eqb_refl.
      clear - Ev. revert joint_positions Ev.
      induction i as [| i IHi]; intros [| a l] Ev; simpl in Ev;
        try discriminate.
      * injection Ev as ->. reflexivity.
      * specialize (IHi l Ev). cbn [skipn] in *. exact IHi.
    + intros j Hj. rewrite Hframe by (intros Hin; apply Hj; right; exact Hin).
      unfold resetJointState.
      destruct (Nat.eqb_spec j k) as [-> | _]; [| reflexivity].
      exfalso. apply Hj. left. reflexivity.
Qed.

Lemma reset_joint_positions_from_short idx : forall i joint_positions st,
  (i <= length joint_positions)%nat ->
  (length joint_positions < i + length idx)%nat ->
  reset_joint_positions_from i idx joint_positions st = None.
Proof.
  induction idx as [| k rest IH]; intros i joint_positions st Hi H;
    simpl in H; [lia |].
  cbn [reset_joint_positions_from].
  destruct (nth_error joint_positions i) as [value |] eqn:Ev; [| reflexivity].
  assert (i < length joint_positions)%nat
    by (apply nth_error_Some; congruence).
  apply IH; lia.
Qed.

(** X13: after [reset_joint_positions] with at least as many values as there
    are controllable joints (their indices distinct), [get_joint_positions]
    reads back the first of these values, in order, and no other joint has
    moved; with fewer values the call raises. *)
Theorem reset_get_joint_positions
    (idx : list nat) (joint_positions : list R) (st : joint_state) :
  NoDup idx ->
  ((length idx <= length joint_positions)%nat ->
   exists st',
     reset_joint_positions idx joint_positions st = Some st' /\
     get_joint_positions idx st' = firstn (length idx) joint_positions /\
     forall j, ~ In j idx -> st' j = st j) /\
  ((length joint_positions < length idx)%nat ->
   reset_joint_positions idx joint_positions st = None).
Proof.
  intros Hnd. split.
  - intros Hlen.
    apply (reset_joint_positions_from_spec idx 0 joint_positions st Hnd).
    simpl. exact Hlen.
  - intros Hlen. apply reset_joint_positions_from_short; lia.
Qed.

Lemma reset_get_joint_positions_witness :
  exists st',
    reset_joint_positions [0%nat; 2%nat; 3%nat] [0.5; -1; 2; 7] (fun _ => 0)
    = Some st' /\
    get_joint_positions [0%nat; 2%nat; 3%nat] st' = [0.5; -1; 2].
Proof.
  destruct (proj1 (reset_get_joint_positions
                     [0%nat; 2%nat; 3%nat] [0.5; -1; 2; 7] (fun _ => 0)
                     ltac:(repeat constructor; simpl; intuition lia))
                  ltac:(simpl; lia)) as [st' [E [G _]]].
  exists st'. split; [exact E | exact G].
Defined.

(** ** The candidate loop of the hemisphere test *)

Lemma select_fold_nonpositive (l : list (list R * R)) : forall best,
  (forall c, In c l -> snd c <= 0) ->
  fold_left (fun best_config c =>
               if py_gt (snd c) 0 then Some (fst c) else best_config)
            l best = best.
Proof.
  induction l as [| c l IH]; intros best H; simpl; [reflexivity |].
  unfold py_gt at 2.
  destruct (Rgt_dec (snd c) 0) as [Hgt | _].
  - specialize (H c (or_introl eq_refl)). lra.
  - apply IH. intros c' Hc'. apply H. right. exact Hc'.
Qed.

(** X14: the loop of [AlignHemisphere.test] keeps the last candidate whose
    manipulability is positive, whatever the scores of the candidates before
    it (the running maximum is never raised), and keeps [None] when no score
    is positive. *)
Theorem select_best_config_last_positive
    (before after : list (list R * R)) (c : list R * R) :
  ((forall c', In c' (before ++ c :: after) -> snd c' <= 0) ->
   select_best_config (before ++ c :: after) = None) /\
  (0 < snd c -> (forall c', In c' after -> snd c' <= 0) ->
   select_best_config (before ++ c :: after) = Some (fst c)).
Proof.
  unfold select_best_config. split.
  - intros H. apply select_fold_nonpositive. exact H.
  - intros Hc Hafter. rewrite fold_left_app. cbn [fold_left].
    unfold py_gt at 2.
    destruct (Rgt_dec (snd c) 0) as [_ | n]; [| lra].
    apply select_fold_nonpositive. exact Hafter.
Qed.

Lemma select_best_config_last_positive_witness :
  select_best_config ([([1; 1], 0.9)] ++ ([2; 2], 0.1) :: [([3; 3], 0)])
  = Some [2; 2].
Proof.
  apply (proj2 (select_best_config_last_positive
                  [([1; 1], 0.9)] [([3; 3], 0)] ([2; 2], 0.1))).
  - cbn [snd]. lra.
  - intros c' [<- | []]. cbn [snd]. lra.
Defined.

(** ** The goal-biased sampler *)

Lemma guided_position_is_goal (goal ee : vec3) :
  vec3_add ee (vec3_sub goal ee) = goal.
Proof.
  destruct goal, ee. unfold vec3_add, vec3_sub. simpl. f_equal; ring.
Qed.

(** X15: one call of the sampler of [vector_field_sample_fn] returns
    [(1 - alpha) * random_conf + alpha * q], where [q] is the
    inverse-kinematics solution for the goal position itself, seeded with the
    home configuration: the end-effector position read from the simulator
    cancels out, so the result does not depend on it. *)
Theorem vector_field_sample_value
    (home_config : list R)
    (ik : list R -> option (list R) -> list R -> list R)
    (end_effector_position_at : list R -> vec3)
    (goal : vec3) (alpha : R) (random_conf : list R) :
  vector_field_sample home_config ik end_effector_position_at
                      (Some goal) alpha random_conf
  = broadcast2 (fun r g => (1 - alpha) * r + alpha * g) random_conf
               (ik (vec3_array goal) None home_config).
Proof.
  unfold vector_field_sample, inverse_kinematics.
  rewrite guided_position_is_goal. reflexivity.
Qed.

Lemma blend_within_limits (alpha : R) (limits : list (R * R)) :
  0 <= alpha <= 1 ->
  forall a b,
    Forall2 (fun v lim => fst lim <= v <= snd lim) a limits ->
    Forall2 (fun v lim => fst lim <= v <= snd lim) b limits ->
    Forall2 (fun v lim => fst lim <= v <= snd lim)
            (map (fun p => (1 - alpha) * fst p + alpha * snd p) (combine a b))
            limits.
Proof.
  intros Ha a b HA. revert b.
  induction HA as [| x lim a limits Hx _ IH]; intros b HB.
  - inversion HB; subst. constructor.
  - inversion HB as [| y lim' b' limits' Hy HB']; subst.
    cbn [combine map fst snd]. constructor; [| apply IH; exact HB'].
    destruct Hx, Hy. split; nra.
Qed.

(** X16: with [0 <= alpha <= 1], when the random draw and the
    inverse-kinematics solution for the goal both respect the joint limits,
    joint by joint, so does the sample. *)
Theorem vector_field_sample_within_limits
    (home_config : list R)
    (ik : list R -> option (list R) -> list R -> list R)
    (end_effector_position_at : list R -> vec3)
    (goal : vec3) (alpha : R) (random_conf : list R)
    (limits : list (R * R)) :
  0 <= alpha <= 1 ->
  Forall2 (fun v lim => fst lim <= v <= snd lim) random_conf limits ->
  Forall2 (fun v lim => fst lim <= v <= snd lim)
          (ik (vec3_array goal) None home_config) limits ->
  exists final_conf,
    vector_field_sample home_config ik end_effector_position_at
                        (Some goal) alpha random_conf = Some final_conf /\
    Forall2 (fun v lim => fst lim <= v <= snd lim) final_conf limits.
Proof.
  intros Ha Hr Hg.
  unfold vector_field_sample, inverse_kinematics.
  rewrite guided_position_is_goal. unfold broadcast2.
  rewrite (Forall2_length Hr), <- (Forall2_length Hg), Nat.eqb_refl.
  eexists. split; [reflexivity |].
  apply blend_within_limits; assumption.
Qed.

Lemma vector_field_sample_within_limits_witness :
  exists final_conf,
    vector_field_sample [0; 0] (fun _ _ _ => [1; -1])
                        (fun _ => mk_vec3 0.2 0.1 0.7)
                        (Some (mk_vec3 0.5 0.95 1.1)) 0.8 [-2; 2]
    = Some final_conf /\
    Forall2 (fun v lim => fst lim <= v <= snd lim) final_conf
            [(-3, 3); (-3, 3)].
Proof.
  apply vector_field_sample_within_limits.
  - lra.
  - repeat constructor; cbn [fst snd]; lra.
  - repeat constructor; cbn [fst snd]; lra.
Defined.

(** ** More on linear and cubic interpolation *)

Lemma cubic_spline_clamped_monotone y0 y1 t t' :
  0 <= t -> t <= t' -> t' <= 1 ->
  (y0 <= y1 ->
   y0 <= cubic_spline_clamped y0 y1 t /\
   cubic_spline_clamped y0 y1 t <= cubic_spline_clamped y0 y1 t' /\
   cubic_spline_clamped y0 y1 t' <= y1) /\
  (y1 <= y0 ->
   y1 <= cubic_spline_clamped y0 y1 t' /\
   cubic_spline_clamped y0 y1 t' <= cubic_spline_clamped y0 y1 t /\
   cubic_spline_clamped y0 y1 t <= y0).
Proof.
  intros H0 Htt H1. unfold cubic_spline_clamped.
  set (g := fun u : R => 3 * u ^ 2 - 2 * u ^ 3).
  assert (Hg0 : forall u, 0 <= u <= 1 -> 0 <= g u).
  { intros u Hu. unfold g.
    replace (3 * u ^ 2 - 2 * u ^ 3) with (u * u * (3 - 2 * u)) by ring.
    apply Rmult_le_pos; nra. }
  assert (Hg1 : forall u, 0 <= u <= 1 -> g u <= 1).
  { intros u Hu. unfold g.
    replace (3 * u ^ 2 - 2 * u ^ 3)
      with (1 - (1 - u) * (1 - u) * (1 + 2 * u)) by ring.
    assert (0 <= (1 - u) * (1 - u) * (1 + 2 * u))
      by (apply Rmult_le_pos; nra).
    lra. }
  assert (Hgm : g t <= g t').
  { unfold g.
    assert (E : 3 * t' ^ 2 - 2 * t' ^ 3 - (3 * t ^ 2 - 2 * t ^ 3)
                = (t' - t) * (2 * (t * (1 - t)) + 2 * (t' * (1 - t'))
                              + (t * (1 - t') + t' * (1 - t)))) by ring.
    assert (0 <= (t' - t) * (2 * (t * (1 - t)) + 2 * (t' * (1 - t'))
                             + (t * (1 - t') + t' * (1 - t)))).
    { apply Rmult_le_pos; [lra |].
      assert (0 <= t * (1 - t)) by (apply Rmult_le_pos; lra).
      assert (0 <= t' * (1 - t')) by (apply Rmult_le_pos; lra).
      assert (0 <= t * (1 - t')) by (apply Rmult_le_pos; lra).
      assert (0 <= t' * (1 - t)) by (apply Rmult_le_pos; lra).
      lra. }
    lra. }
  assert (Et : forall u, -2 * (y1 - y0) * u ^ 3 + 3 * (y1 - y0) * u ^ 2
                         + 0 * u + y0 = y0 + (y1 - y0) * g u)
    by (intros u; unfold g; ring).
  rewrite !Et.
  pose proof (Hg0 t ltac:(lra)). pose proof (Hg1 t' ltac:(lra)).
  split; intros Hy; repeat split; nra.
Qed.

Lemma cubic_column_monotonic y0 y1 n :
  (2 <= n)%nat ->
  monotonic_between y0 y1
    (map (cubic_spline_clamped y0 y1) (Np.linspace 0 1 n)).
Proof.
  intros Hn i i' x y Hii Hx Hy.
  rewrite nth_error_map in Hx, Hy.
  destruct (nth_error (Np.linspace 0 1 n) i) as [t |] eqn:Et;
    [| discriminate].
  destruct (nth_error (Np.linspace 0 1 n) i') as [t' |] eqn:Et';
    [| discriminate].
  injection Hx as <-. injection Hy as <-.
  destruct (linspace_monotonic 0 1 n Hn i i' t t' Hii Et Et') as [Hm _].
  destruct (Hm ltac:(lra)) as [Ht0 [Htt Ht1]].
  apply cubic_spline_clamped_monotone; assumption.
Qed.

(** X17: the cubic path does not overshoot: for configurations of equal,
    non-zero length and [steps >= 2], each joint's values on the path of
    [cubic_interp_path] run monotonically from its normalised start value to
    its normalised end value and stay between the two. *)
Theorem cubic_interp_path_monotonic (start_positions end_positions : list R)
    (steps : Z) :
  length start_positions = length end_positions ->
  start_positions <> [] -> (2 <= steps)%Z ->
  exists path,
    cubic_interp_path start_positions end_positions steps true = Some path /\
    forall j sj ej,
      nth_error (clip_joint_vals start_positions) j = Some sj ->
      nth_error (clip_joint_vals end_positions) j = Some ej ->
      monotonic_between sj ej (column path j).
Proof.
  intros Hlen Hne Hsteps.
  set (n := Z.to_nat steps).
  assert (Hn : (2 <= n)%nat) by (unfold n; lia).
  assert (Hlen' : length (clip_joint_vals start_positions)
                  = length (clip_joint_vals end_positions))
    by (rewrite !clip_joint_vals_length; exact Hlen).
  eexists. split; [apply cubic_interp_path_eq; [lia | exact Hlen] |].
  fold n. intros j sj ej Hs He.
  assert (Hj : (j < length (combine (clip_joint_vals start_positions)
                                    (clip_joint_vals end_positions)))%nat).
  { rewrite length_combine, <- Hlen', Nat.min_id.
    apply nth_error_Some. congruence. }
  rewrite (zip_star_column _ n).
  - rewrite (nth_map_in _ _ _ _ (0, 0)) by exact Hj.
    rewrite (nth_error_nth _ _ (0, 0) (nth_error_combine _ _ _ _ _ Hs He)).
    apply (cubic_column_monotonic sj ej n Hn).
  - intros c Hc. apply in_map_iff in Hc. destruct Hc as [p [<- _]].
    rewrite length_map. apply linspace_length.
  - rewrite length_map. exact Hj.
Qed.

Lemma cubic_interp_path_monotonic_witness :
  exists path,
    cubic_interp_path [0; 4] [1; -1] 5 true = Some path /\
    monotonic_between 0 1 (column path 0).
Proof.
  destruct (cubic_interp_path_monotonic [0; 4] [1; -1] 5)
    as [path [E H]].
  - reflexivity.
  - discriminate.
  - lia.
  - exists path. split; [exact E |].
    apply (H 0%nat 0 1).
    + cbn [clip_joint_vals map nth_error]. f_equal.
      apply clip_joint_val_inside. lra.
    + cbn [clip_joint_vals map nth_error]. f_equal.
      apply clip_joint_val_inside. lra.
Defined.

Lemma sequence_none {A : Type} (l : list (option A)) :
  In None l -> Np.sequence l = None.
Proof.
  induction l as [| x l IH]; intros H; [destruct H |].
  destruct x as [a |]; [| reflexivity].
  destruct H as [H | H]; [discriminate |].
  simpl. rewrite (IH H). reflexivity.
Qed.

Lemma linspace_z_negative a b steps :
  (steps < 0)%Z -> Np.linspace_z a b steps = None.
Proof.
  intros H. unfold Np.linspace_z.
  destruct (Z.ltb_spec steps 0); [reflexivity | lia].
Qed.

Lemma cubic_interp_path_eq_gen s e steps limit_joints :
  (0 <= steps)%Z -> length s = length e ->
  cubic_interp_path s e steps limit_joints =
  Some (Np.zip_star
          (map (fun p => map (cubic_spline_clamped (fst p) (snd p))
                             (Np.linspace 0 1 (Z.to_nat steps)))
               (combine (if limit_joints then clip_joint_vals s else s)
                        (if limit_joints then clip_joint_vals e else e)))).
Proof.
  intros H Hlen. destruct limit_joints.
  - apply cubic_interp_path_eq; assumption.
  - unfold cubic_interp_path. rewrite linspace_z_some by exact H.
    rewrite (sequence_nth_error_pairs
               (fun a b => map (cubic_spline_clamped a b)
                               (Np.linspace 0 1 (Z.to_nat steps))))
      by exact Hlen.
    reflexivity.
Qed.

(** X18: with fewer than two steps the interpolators do not reach the end
    configuration.  For configurations of equal, non-zero length: a negative
    [steps] raises, [steps = 0] gives the empty path, and [steps = 1] gives
    the single row of the normalised start configuration. *)
Theorem interp_path_small_steps (start_positions end_positions : list R) :
  length start_positions = length end_positions -> start_positions <> [] ->
  (forall steps, (steps < 0)%Z ->
     linear_interp_path start_positions end_positions steps true = None /\
     cubic_interp_path start_positions end_positions steps true = None) /\
  (linear_interp_path start_positions end_positions 0 true = Some [] /\
   cubic_interp_path start_positions end_positions 0 true = Some []) /\
  (linear_interp_path start_positions end_positions 1 true
   = Some [clip_joint_vals start_positions] /\
   cubic_interp_path start_positions end_positions 1 true
   = Some [clip_joint_vals start_positions]).
Proof.
  intros Hlen Hne.
  assert (Hlen' : length (clip_joint_vals start_positions)
                  = length (clip_joint_vals end_positions))
    by (rewrite !clip_joint_vals_length; exact Hlen).
  assert (Hc : combine (clip_joint_vals start_positions)
                       (clip_joint_vals end_positions) <> []).
  { destruct start_positions; [congruence |].
    destruct end_positions; discriminate. }
  split; [| split].
  - intros steps Hs. split.
    + unfold linear_interp_path. rewrite sequence_none; [reflexivity |].
      destruct (combine _ _) as [| p l]; [congruence |].
      left. apply linspace_z_negative. exact Hs.
    + unfold cubic_interp_path.
      rewrite linspace_z_negative by exact Hs. reflexivity.
  - split.
    + rewrite linear_interp_path_eq by lia.
      rewrite (zip_star_rows _ 0); [reflexivity | |].
      * destruct (combine _ _); [congruence | discriminate].
      * intros c Hin. apply in_map_iff in Hin. destruct Hin as [p [<- _]].
        reflexivity.
    + rewrite cubic_interp_path_eq by (lia || exact Hlen).
      rewrite (zip_star_rows _ 0); [reflexivity | |].
      * destruct (combine _ _); [congruence | discriminate].
      * intros c Hin. apply in_map_iff in Hin. destruct Hin as [p [<- _]].
        reflexivity.
  - split.
    + rewrite linear_interp_path_eq by lia.
      change (Z.to_nat 1) with 1%nat.
      rewrite (zip_star_rows _ 1).
      * cbn [seq map]. rewrite map_map. cbn [Np.linspace nth].
        rewrite <- (map_fst_combine _ _ Hlen') at 2.
        reflexivity.
      * destruct (combine _ _); [congruence | discriminate].
      * intros c Hin. apply in_map_iff in Hin. destruct Hin as [p [<- _]].
        reflexivity.
    + rewrite cubic_interp_path_eq by (lia || exact Hlen).
      change (Z.to_nat 1) with 1%nat.
      rewrite (zip_star_rows _ 1).
      * cbn [seq map]. rewrite map_map. cbn [Np.linspace nth map].
        rewrite <- (map_fst_combine _ _ Hlen') at 2.
        do 2 f_equal.
        apply map_ext. intros p. apply cubic_spline_clamped_0.
      * destruct (combine _ _); [congruence | discriminate].
      * intros c Hin. apply in_map_iff in Hin. destruct Hin as [p [<- _]].
        reflexivity.
Qed.

Lemma interp_path_small_steps_witness :
  linear_interp_path [0; 4] [1; -1] 1 true = Some [clip_joint_vals [0; 4]] /\
  cubic_interp_path [0; 4] [1; -1] 1 true = Some [clip_joint_vals [0; 4]].
Proof.
  apply (interp_path_small_steps [0; 4] [1; -1]).
  - reflexivity.
  - discriminate.
Defined.

(** X19: configurations of different lengths are not rejected alike.
    [linear_interp_path] silently drops the surplus entries of the longer
    one; [cubic_interp_path] raises when the end configuration is the shorter
    one, and drops the surplus entries of a longer end configuration. *)
Theorem interp_path_length_mismatch (start_positions end_positions : list R)
    (steps : Z) (limit_joints : bool) :
  let m := Nat.min (length start_positions) (length end_positions) in
  linear_interp_path start_positions end_positions steps limit_joints
  = linear_interp_path (firstn m start_positions) (firstn m end_positions)
                       steps limit_joints /\
  ((length end_positions < length start_positions)%nat ->
   cubic_interp_path start_positions end_positions steps limit_joints = None) /\
  ((length start_positions <= length end_positions)%nat ->
   cubic_interp_path start_positions end_positions steps limit_joints
   = cubic_interp_path start_positions
       (firstn (length start_positions) end_positions) steps limit_joints).
Proof.
  intros m. split; [| split].
  - unfold linear_interp_path.
    assert (E : forall f : list R -> list R,
              (forall k l, firstn k (f l) = f (firstn k l)) ->
              (forall l, length (f l) = length l) ->
              combine (f start_positions) (f end_positions)
              = combine (f (firstn m start_positions))
                        (f (firstn m end_positions))).
    { intros f Hf Hl.
      rewrite <- !Hf, <- combine_firstn.
      symmetry. apply firstn_all2.
      rewrite length_combine, !Hl. reflexivity. }
    destruct limit_joints.
    + rewrite (E clip_joint_vals); [reflexivity | | apply clip_joint_vals_length].
      intros k l. apply firstn_map.
    + rewrite (E (fun l => l)); reflexivity.
  - intros Hlt. unfold cubic_interp_path.
    destruct (Np.linspace_z 0 1 steps) as [t |]; [| reflexivity].
    rewrite sequence_none; [reflexivity |].
    apply in_map_iff. exists (length end_positions). split.
    + assert (Hn : nth_error (if limit_joints
                              then clip_joint_vals end_positions
                              else end_positions) (length end_positions) = None).
      { apply nth_error_None.
        destruct limit_joints; [rewrite clip_joint_vals_length |]; lia. }
      cbv beta. rewrite Hn.
      destruct (nth_error (if limit_joints
                           then clip_joint_vals start_positions
                           else start_positions) (length end_positions));
        reflexivity.
    + apply in_seq. lia.
  - intros Hle. unfold cubic_interp_path.
    destruct (Np.linspace_z 0 1 steps) as [t |]; [| reflexivity].
    assert (En : forall i, (i < length start_positions)%nat ->
                 nth_error (if limit_joints
                            then clip_joint_vals
                                   (firstn (length start_positions)
                                           end_positions)
                            else firstn (length start_positions) end_positions)
                           i
                 = nth_error (if limit_joints
                              then clip_joint_vals end_positions
                              else end_positions) i).
    { intros i Hi. destruct limit_joints.
      - unfold clip_joint_vals. rewrite <- firstn_map, nth_error_firstn.
        destruct (Nat.ltb_spec i (length start_positions)); [reflexivity | lia].
      - rewrite nth_error_firstn.
        destruct (Nat.ltb_spec i (length start_positions)); [reflexivity | lia]. }
    rewrite (map_ext_in
               (fun i =>
                  s <- nth_error (if limit_joints
                                  then clip_joint_vals start_positions
                                  else start_positions) i ;;
                  e <- nth_error (if limit_joints
                                  then clip_joint_vals
                                         (firstn (length start_positions)
                                                 end_positions)
                                  else firstn (length start_positions)
                                              end_positions) i ;;
                  Some (map (cubic_spline_clamped s e) t))
               (fun i =>
                  s <- nth_error (if limit_joints
                                  then clip_joint_vals start_positions
                                  else start_positions) i ;;
                  e <- nth_error (if limit_joints
                                  then clip_joint_vals end_positions
                                  else end_positions) i ;;
                  Some (map (cubic_spline_clamped s e) t))).
    + reflexivity.
    + intros i Hi. apply in_seq in Hi. rewrite En by lia. reflexivity.
Qed.

Lemma interp_path_length_mismatch_witness :
  cubic_interp_path [0; 1; 2] [1; 1] 10 true = None.
Proof.
  apply (proj1 (proj2 (interp_path_length_mismatch [0; 1; 2] [1; 1] 10 true)));
    simpl; lia.
Defined.

Lemma combine_swap {A B : Type} (l : list A) (l' : list B) :
  combine l' l = map (fun p => (snd p, fst p)) (combine l l').
Proof.
  revert l'. induction l as [| a l IH]; intros [| b l']; simpl;
    try reflexivity.
  f_equal. apply IH.
Qed.

(** Zipped columns read backwards, when the column of the swapped pair is the
    column of the pair reversed. *)
Lemma zipped_columns_reverse (f : R * R -> list R) (s e : list R) n :
  (forall p, length (f p) = n) ->
  (forall a b i, (i < n)%nat ->
     nth i (f (b, a)) 0 = nth (n - 1 - i) (f (a, b)) 0) ->
  Np.zip_star (map f (combine e s)) = rev (Np.zip_star (map f (combine s e))).
Proof.
  intros Hf Hsym.
  destruct (combine s e) as [| p0 l0] eqn:Ec.
  { rewrite combine_swap, Ec. reflexivity. }
  assert (Hne : map f (combine s e) <> []) by (rewrite Ec; discriminate).
  assert (Hne' : map f (combine e s) <> []).
  { rewrite combine_swap, Ec. discriminate. }
  rewrite <- Ec in *. clear Ec p0 l0.
  rewrite (zip_star_rows _ n), (zip_star_rows (map f (combine s e)) n);
    try assumption;
    try (intros c Hc; apply in_map_iff in Hc; destruct Hc as [p [<- _]];
         apply Hf).
  apply nth_ext with (d := []) (d' := []).
  - rewrite length_rev, !length_map. reflexivity.
  - intros i Hi. rewrite length_map, length_seq in Hi.
    rewrite rev_nth by (rewrite length_map, length_seq; exact Hi).
    rewrite length_map, length_seq.
    rewrite !(nth_map_in _ (seq 0 n) _ _ 0%nat) by (rewrite length_seq; lia).
    rewrite !seq_nth by lia. cbn [Nat.add].
    rewrite !map_map, combine_swap, map_map.
    apply map_ext. intros [a b]. cbn [fst snd].
    replace (n - S i)%nat with (n - 1 - i)%nat by lia.
    apply Hsym. exact Hi.
Qed.

Lemma linspace_reverse a b n i :
  (2 <= n)%nat -> (i < n)%nat ->
  nth i (Np.linspace b a n) 0 = nth (n - 1 - i) (Np.linspace a b n) 0.
Proof.
  intros Hn Hi. destruct n as [| m]; [lia |].
  replace (S m - 1 - i)%nat with (m - i)%nat by lia.
  rewrite !linspace_nth by lia.
  rewrite minus_INR by lia.
  field. apply not_0_INR. lia.
Qed.

Lemma linspace_unit_reverse n i :
  (2 <= n)%nat -> (i < n)%nat ->
  nth (n - 1 - i) (Np.linspace 0 1 n) 0 = 1 - nth i (Np.linspace 0 1 n) 0.
Proof.
  intros Hn Hi. destruct n as [| m]; [lia |].
  replace (S m - 1 - i)%nat with (m - i)%nat by lia.
  rewrite !linspace_nth by lia.
  rewrite minus_INR by lia.
  field. apply not_0_INR. lia.
Qed.

Lemma cubic_spline_clamped_reverse a b u :
  cubic_spline_clamped a b (1 - u) = cubic_spline_clamped b a u.
Proof. unfold cubic_spline_clamped. ring. Qed.

(** X20: interpolating from the end configuration back to the start gives the
    same configurations in the opposite order, for [linear_interp_path] and
    for [cubic_interp_path], with equal lengths and [steps >= 2]. *)
Theorem interp_path_reverse (start_positions end_positions : list R)
    (steps : Z) :
  length start_positions = length end_positions -> (2 <= steps)%Z ->
  (exists path,
     linear_interp_path start_positions end_positions steps true = Some path /\
     linear_interp_path end_positions start_positions steps true
     = Some (rev path)) /\
  (exists path,
     cubic_interp_path start_positions end_positions steps true = Some path /\
     cubic_interp_path end_positions start_positions steps true
     = Some (rev path)).
Proof.
  intros Hlen Hsteps.
  set (n := Z.to_nat steps).
  assert (Hn : (2 <= n)%nat) by (unfold n; lia).
  split.
  - eexists. split; [apply linear_interp_path_eq; lia |].
    rewrite linear_interp_path_eq by lia. f_equal. fold n.
    apply (zipped_columns_reverse
             (fun p => Np.linspace (fst p) (snd p) n) _ _ n).
    + intros p. apply linspace_length.
    + intros a b i Hi. cbn [fst snd]. apply linspace_reverse; assumption.
  - eexists. split; [apply cubic_interp_path_eq; [lia | exact Hlen] |].
    rewrite cubic_interp_path_eq by (lia || (symmetry; exact Hlen)).
    f_equal. fold n.
    apply (zipped_columns_reverse
             (fun p => map (cubic_spline_clamped (fst p) (snd p))
                           (Np.linspace 0 1 n)) _ _ n).
    + intros p. rewrite length_map. apply linspace_length.
    + intros a b i Hi. cbn [fst snd].
      rewrite !(nth_map_in _ _ _ _ 0) by (rewrite linspace_length; lia).
      rewrite linspace_unit_reverse by assumption.
      symmetry. apply cubic_spline_clamped_reverse.
Qed.

Lemma interp_path_reverse_witness :
  exists path,
    linear_interp_path [0; 4] [1; -1] 5 true = Some path /\
    linear_interp_path [1; -1] [0; 4] 5 true = Some (rev path).
Proof.
  destruct (interp_path_reverse [0; 4] [1; -1] 5) as [H _].
  - reflexivity.
  - lia.
  - exact H.
Defined.

(** X21: with [limit_joints] off nothing is normalised: for configurations of
    equal, non-zero length and [steps >= 2] both interpolators return
    [steps] configurations, the first being the start configuration and the
    last the end configuration exactly as given, values outside [[-3, 3]]
    included. *)
Theorem interp_path_endpoints_raw (start_positions end_positions : list R)
    (steps : Z) :
  length start_positions = length end_positions ->
  start_positions <> [] -> (2 <= steps)%Z ->
  (exists path,
      linear_interp_path start_positions end_positions steps false
      = Some path /\
      length path = Z.to_nat steps /\
      nth_error path 0 = Some start_positions /\
      nth_error path (Z.to_nat steps - 1) = Some end_positions) /\
  (exists path,
      cubic_interp_path start_positions end_positions steps false
      = Some path /\
      length path = Z.to_nat steps /\
      nth_error path 0 = Some start_positions /\
      nth_error path (Z.to_nat steps - 1) = Some end_positions).
Proof.
  intros Hlen Hne Hsteps.
  set (n := Z.to_nat steps).
  assert (Hn : (2 <= n)%nat) by (unfold n; lia).
  split.
  - eexists. split; [apply linear_interp_path_eq; lia |].
    fold n.
    apply (zipped_columns_endpoints
             (fun p => Np.linspace (fst p) (snd p) n)
             start_positions end_positions n Hlen Hne Hn).
    + intros p. apply linspace_length.
    + intros p. apply linspace_first. lia.
    + intros p. apply linspace_last. exact Hn.
  - eexists. split; [apply cubic_interp_path_eq_gen; [lia | exact Hlen] |].
    fold n.
    apply (zipped_columns_endpoints
             (fun p => map (cubic_spline_clamped (fst p) (snd p))
                           (Np.linspace 0 1 n))
             start_positions end_positions n Hlen Hne Hn).
    + intros p. rewrite length_map. apply linspace_length.
    + intros p.
      rewrite (nth_map_in _ _ _ _ 0) by (rewrite linspace_length; lia).
      rewrite linspace_first by lia. apply cubic_spline_clamped_0.
    + intros p.
      rewrite (nth_map_in _ _ _ _ 0) by (rewrite linspace_length; lia).
      rewrite linspace_last by lia. apply cubic_spline_clamped_1.
Qed.

Lemma interp_path_endpoints_raw_witness :
  exists path,
    linear_interp_path [0; 4] [1; -5] 3 false = Some path /\
    nth_error path 0 = Some [0; 4] /\
    nth_error path 2 = Some [1; -5].
Proof.
  destruct (interp_path_endpoints_raw [0; 4] [1; -5] 3) as [[path H] _].
  - reflexivity.
  - discriminate.
  - lia.
  - exists path. intuition.
Defined.

(** ** More on resampling *)

(** [np.interp] at a knot of [np.arange] returns the ordinate of the knot. *)
Lemma interp1_knot fp : forall k i,
  (k <= i < k + length fp)%nat ->
  Np.interp1 (INR i) (map INR (seq k (length fp))) fp = nth (i - k) fp 0.
Proof.
  induction fp as [| f0 fp IH]; intros k i Hi; simpl in Hi; [lia |].
  destruct fp as [| f1 fp].
  - replace (i - k)%nat with 0%nat by (simpl in Hi; lia). reflexivity.
  - change (map INR (seq k (length (f0 :: f1 :: fp))))
      with (INR k :: INR (S k) :: map INR (seq (S (S k)) (length fp))).
    destruct (Nat.eq_dec i k) as [-> | Hne].
    + cbn [Np.interp1]. rewrite Nat.sub_diag.
      destruct (Rlt_dec (INR k) (INR (S k))) as [_ | n];
        [| exfalso; apply n; apply lt_INR; lia].
      destruct (Rle_dec (INR k) (INR k)) as [_ | n]; [reflexivity | lra].
    + rewrite interp1_skip by (apply le_INR; lia).
      change (INR (S k) :: map INR (seq (S (S k)) (length fp)))
        with (map INR (seq (S k) (length (f1 :: fp)))).
      rewrite IH by (simpl in *; lia).
      replace (i - k)%nat with (S (i - S k)) by lia. reflexivity.
Qed.

Lemma linspace_index_knots L i :
  (i < L)%nat -> nth i (Np.linspace 0 (INR L - 1) L) 0 = INR i.
Proof.
  intros Hi. destruct L as [| [| m]]; [lia | |].
  - destruct i; [reflexivity | lia].
  - rewrite linspace_nth by lia.
    replace (INR (S (S m)) - 1) with (INR (S m))
      by (rewrite (S_INR (S m)); lra).
    field. apply not_0_INR. lia.
Qed.

Lemma interp_at_knots fp :
  Np.interp (Np.linspace 0 (INR (length fp) - 1) (length fp))
            (Np.arange (length fp)) fp = fp.
Proof.
  apply nth_ext with (d := 0) (d' := 0).
  - unfold Np.interp. rewrite length_map. apply linspace_length.
  - intros i Hi. unfold Np.interp in *.
    rewrite length_map, linspace_length in Hi.
    rewrite (nth_map_in _ _ _ _ 0) by (rewrite linspace_length; exact Hi).
    rewrite linspace_index_knots by exact Hi.
    unfold Np.arange. rewrite interp1_knot by lia.
    rewrite Nat.sub_0_r. reflexivity.
Qed.

Lemma map_nth_seq {A : Type} (l : list A) (d : A) :
  map (fun k => nth k l d) (seq 0 (length l)) = l.
Proof.
  apply nth_ext with (d := d) (d' := d).
  - rewrite length_map, length_seq. reflexivity.
  - intros i Hi. rewrite length_map, length_seq in Hi.
    rewrite (nth_map_in _ _ _ _ 0%nat) by (rewrite length_seq; exact Hi).
    rewrite seq_nth by exact Hi. reflexivity.
Qed.

(** Zipping the columns of a rectangular array gives the array back. *)
Lemma zip_star_columns path L J :
  shape2 path = Some (L, J) -> (1 <= J)%nat ->
  Np.zip_star (map (column path) (seq 0 J)) = path.
Proof.
  intros Hs HJ. destruct (shape2_some _ _ _ Hs) as [HL [HL1 Hrows]].
  rewrite (zip_star_rows _ L).
  - transitivity (map (fun k => nth k path []) (seq 0 (length path)));
      [| apply map_nth_seq].
    rewrite <- HL.
    apply map_ext_in. intros k Hk. apply in_seq in Hk.
    rewrite map_map. apply row_of_columns; [exact Hrows | lia].
  - destruct J; [lia | discriminate].
  - intros c Hc. apply in_map_iff in Hc. destruct Hc as [i [<- _]].
    rewrite column_length. symmetry. exact HL.
Qed.

(** X22: resampling a path to its own length returns the path unchanged (a
    path of at least one configuration, each of at least one joint). *)
Theorem sample_path_to_length_same_length (path : list (list R)) (L J : nat) :
  shape2 path = Some (L, J) -> (1 <= J)%nat ->
  sample_path_to_length path (Z.of_nat L) = Some path.
Proof.
  intros Hs HJ. destruct (shape2_some _ _ _ Hs) as [HL [HL1 Hrows]].
  rewrite (sample_path_to_length_eq path L J) by (exact Hs || lia).
  rewrite Nat2Z.id. f_equal.
  transitivity (Np.zip_star (map (column path) (seq 0 J)));
    [| apply (zip_star_columns path L J Hs HJ)].
  f_equal. apply map_ext. intros i.
  pose proof (interp_at_knots (column path i)) as E.
  rewrite column_length, <- HL in E. exact E.
Qed.

Lemma sample_path_to_length_same_length_witness :
  sample_path_to_length [[0; 0]; [1; 2]; [2; 1]] 3
  = Some [[0; 0]; [1; 2]; [2; 1]].
Proof.
  apply (sample_path_to_length_same_length [[0; 0]; [1; 2]; [2; 1]] 3 2).
  - reflexivity.
  - lia.
Defined.

Lemma interp1_here x x0 x1 xs f0 f1 fs :
  x < x1 ->
  Np.interp1 x (x0 :: x1 :: xs) (f0 :: f1 :: fs)
  = if Rle_dec x x0 then f0 else (f1 - f0) / (x1 - x0) * (x - x0) + f0.
Proof.
  intros H. cbn [Np.interp1].
  destruct (Rlt_dec x x1) as [_ | n]; [reflexivity | contradiction].
Qed.

Lemma interp1_bounds lo hi x fp : forall xp,
  length xp = length fp -> fp <> [] -> StronglySorted Rlt xp ->
  (forall f, In f fp -> lo <= f <= hi) ->
  lo <= Np.interp1 x xp fp <= hi.
Proof.
  induction fp as [| f0 fp IH]; intros xp Hlen Hne Hs Hb; [congruence |].
  destruct xp as [| x0 xp]; [discriminate |].
  destruct fp as [| f1 fp].
  - destruct xp; [| discriminate]. simpl. apply Hb. left. reflexivity.
  - destruct xp as [| x1 xp]; [discriminate |].
    assert (Hf0 : lo <= f0 <= hi) by (apply Hb; left; reflexivity).
    assert (Hf1 : lo <= f1 <= hi) by (apply Hb; right; left; reflexivity).
    inversion Hs as [| a l Hs' Hall]; subst.
    assert (Hx : x0 < x1).
    { rewrite Forall_forall in Hall. apply Hall. left. reflexivity. }
    destruct (Rlt_dec x x1) as [Hlt | Hge].
    + rewrite interp1_here by exact Hlt.
      destruct (Rle_dec x x0) as [_ | Hgt]; [exact Hf0 |].
      set (u := (x - x0) / (x1 - x0)).
      assert (Hu : 0 <= u <= 1).
      { unfold u. split.
        - apply Rmult_le_pos; [lra |].
          apply Rlt_le, Rinv_0_lt_compat. lra.
        - apply Rmult_le_reg_r with (r := x1 - x0); [lra |].
          unfold Rdiv. rewrite Rmult_assoc, Rinv_l by lra. lra. }
      replace ((f1 - f0) / (x1 - x0) * (x - x0) + f0)
        with (f0 + u * (f1 - f0)) by (unfold u; field; lra).
      split; nra.
    + rewrite interp1_skip by lra. apply IH.
      * simpl in *. lia.
      * discriminate.
      * exact Hs'.
      * intros f Hf. apply Hb. right. exact Hf.
Qed.

Lemma arange_sorted L : StronglySorted Rlt (Np.arange L).
Proof.
  unfold Np.arange. generalize 0%nat as k.
  induction L as [| L IH]; intros k; simpl; constructor.
  - apply IH.
  - apply Forall_forall. intros x Hx. apply in_map_iff in Hx.
    destruct Hx as [i [<- Hi]]. apply in_seq in Hi. apply lt_INR. lia.
Qed.

(** X23: resampling does not overshoot: every value of joint [j] on the
    resampled path lies between bounds that hold for all values of joint [j]
    on the raw path (so joint limits kept by the raw path are kept by the
    result). *)
Theorem sample_path_to_length_bounds (path : list (list R)) (L J : nat)
    (desired_length : Z) :
  shape2 path = Some (L, J) -> (0 <= desired_length)%Z ->
  exists out,
    sample_path_to_length path desired_length = Some out /\
    forall j lo hi, (j < J)%nat ->
      (forall v, In v (column path j) -> lo <= v <= hi) ->
      forall v, In v (column out j) -> lo <= v <= hi.
Proof.
  intros Hs Hd. destruct (shape2_some _ _ _ Hs) as [HL [HL1 Hrows]].
  eexists. split;
    [apply (sample_path_to_length_eq path L J desired_length Hs Hd) |].
  intros j lo hi Hj Hb v Hv.
  rewrite (zip_star_column _ (Z.to_nat desired_length)) in Hv.
  - rewrite (nth_map_in _ _ _ _ 0%nat) in Hv by (rewrite length_seq; exact Hj).
    rewrite seq_nth in Hv by exact Hj. cbn [Nat.add] in Hv.
    unfold Np.interp in Hv. apply in_map_iff in Hv.
    destruct Hv as [x [<- _]].
    apply interp1_bounds.
    + unfold Np.arange. rewrite length_map, length_seq, column_length.
      exact HL.
    + intros E. apply (f_equal (@length R)) in E.
      rewrite column_length in E. simpl in E. lia.
    + apply arange_sorted.
    + exact Hb.
  - intros c Hc. apply in_map_iff in Hc. destruct Hc as [i [<- _]].
    unfold Np.interp. rewrite length_map. apply linspace_length.
  - rewrite length_map, length_seq. exact Hj.
Qed.

Lemma sample_path_to_length_bounds_witness :
  exists out,
    sample_path_to_length [[0; 0]; [1; 2]; [2; 1]] 7 = Some out /\
    forall v, In v (column out 1) -> 0 <= v <= 2.
Proof.
  destruct (sample_path_to_length_bounds [[0; 0]; [1; 2]; [2; 1]] 3 2 7)
    as [out [E H]].
  - reflexivity.
  - lia.
  - exists out. split; [exact E |].
    apply (H 1%nat 0 2); [lia |].
    intros v Hv. simpl in Hv.
    destruct Hv as [<- | [<- | [<- | []]]]; lra.
Defined.

(** X24: [sample_path_to_length] raises on an empty path, on a path whose
    configurations differ in length and on a negative length; asked for zero
    rows it returns the empty path. *)
Theorem sample_path_to_length_errors :
  (forall desired_length, sample_path_to_length [] desired_length = None) /\
  (forall r rest r' desired_length,
      In r' rest -> length r' <> length r ->
      sample_path_to_length (r :: rest) desired_length = None) /\
  (forall path desired_length,
      (desired_length < 0)%Z ->
      sample_path_to_length path desired_length = None) /\
  (forall path L J,
      shape2 path = Some (L, J) -> (1 <= J)%nat ->
      sample_path_to_length path 0 = Some []).
Proof.
  split; [| split; [| split]].
  - reflexivity.
  - intros r rest r' d Hin Hne. unfold sample_path_to_length, shape2.
    destruct (forallb _ rest) eqn:E; [| reflexivity].
    rewrite forallb_forall in E. specialize (E r' Hin).
    apply Nat.eqb_eq in E. contradiction.
  - intros path d Hd. unfold sample_path_to_length.
    destruct (shape2 path); [| reflexivity].
    rewrite linspace_z_negative by exact Hd. reflexivity.
  - intros path L J Hs HJ.
    rewrite (sample_path_to_length_eq path L J) by (exact Hs || lia).
    f_equal. apply (zip_star_rows _ 0).
    + destruct J; [lia | discriminate].
    + intros c Hc. apply in_map_iff in Hc. destruct Hc as [i [<- _]].
      reflexivity.
Qed.

Lemma sample_path_to_length_errors_witness :
  sample_path_to_length [[0; 0]; [1]] 5 = None.
Proof.
  apply (proj1 (proj2 sample_path_to_length_errors) [0; 0] [[1]] [1] 5%Z).
  - left. reflexivity.
  - simpl. lia.
Defined.

(** ** The normaliser on joint values within one revolution *)

Lemma clip_joint_val_within_two_pi x :
  - (2 * PI) <= x <= 2 * PI ->
  3 - 2 * PI < clip_joint_val x <= 3.
Proof. intros H. clip_cases; lra. Qed.

(** X25: for a configuration whose joint values all lie within one
    revolution of zero, [[-2 pi, 2 pi]], every value returned by
    [clip_joint_vals] lies in [(3 - 2 pi, 3]], and normalising the result
    again changes nothing. *)
Theorem clip_joint_vals_within_two_pi (joint_config : list R) :
  (forall x, In x joint_config -> - (2 * PI) <= x <= 2 * PI) ->
  (forall y, In y (clip_joint_vals joint_config) -> 3 - 2 * PI < y <= 3) /\
  clip_joint_vals (clip_joint_vals joint_config) = clip_joint_vals joint_config.
Proof.
  intros H. split.
  - intros y Hy. apply in_map_iff in Hy. destruct Hy as [x [<- Hx]].
    apply clip_joint_val_within_two_pi. apply H. exact Hx.
  - apply clip_joint_vals_idempotent. intros x Hx.
    specialize (H x Hx). pose proof PI_bounds. lra.
Qed.

Lemma clip_joint_vals_within_two_pi_witness :
  clip_joint_vals (clip_joint_vals [0; 6; -3.1; -6])
  = clip_joint_vals [0; 6; -3.1; -6].
Proof.
  apply (clip_joint_vals_within_two_pi [0; 6; -3.1; -6]).
  intros x Hx. pose proof PI_bounds. simpl in Hx.
  destruct Hx as [<- | [<- | [<- | [<- | []]]]]; lra.
Defined.

(** ** [task_space_path_interp] *)

Lemma assign_inner_row_any width n m i v r0 rl :
  matrix_shape n width m ->
  nth_error m 0 = Some r0 -> nth_error m (n - 1) = Some rl ->
  (1 <= i <= Z.of_nat n - 2)%Z ->
  length v = width \/ length v = 1%nat ->
  exists m',
    Np.assign_row width m i v = Some m' /\
    matrix_shape n width m' /\
    nth_error m' 0 = Some r0 /\ nth_error m' (n - 1) = Some rl.
Proof.
  intros Hs H0 Hl Hi Hv.
  destruct (assign_row_defined n width m i v Hs) as [m' E];
    [left; lia | exact Hv |].
  exists m'. split; [exact E |].
  split; [apply (assign_row_shape _ _ _ _ _ _ E Hs) |].
  destruct (assign_row_some _ _ _ _ _ E) as [k [row [Hk [_ ->]]]].
  rewrite py_index_nonneg in Hk by (rewrite (proj1 Hs); lia).
  injection Hk as <-.
  rewrite !set_row_nth_error_other by lia. auto.
Qed.

Lemma pose_columns_defined (start_pose end_pose : pose) (steps : Z) :
  (0 <= steps)%Z ->
  exists cols,
    Np.sequence (map (fun p => Np.linspace_z (fst p) (snd p) steps)
                     (combine (pose_array start_pose) (pose_array end_pose)))
    = Some cols /\
    length (Np.zip_star cols) = Z.to_nat steps.
Proof.
  intros H.
  rewrite (sequence_map_some
             (fun p => Np.linspace (fst p) (snd p) (Z.to_nat steps)))
    by (intros p _; apply linspace_z_some; exact H).
  eexists. split; [reflexivity |].
  apply zip_star_length.
  - destruct start_pose as [v q], end_pose as [v' q']. discriminate.
  - intros c Hc. apply in_map_iff in Hc. destruct Hc as [p [<- _]].
    apply linspace_length.
Qed.

(** X26: [task_space_path_interp] keeps its endpoints whatever their values:
    for a robot of [n] controllable joints (home, end and inverse-kinematics
    configurations of [n] values) and [steps >= 2] it returns [steps] rows of
    [n] values, the first being the normalised home configuration and the
    last the normalised end configuration. *)
Theorem task_space_path_interp_endpoints
    (home : list R) (ik : list R -> option (list R) -> list R -> list R)
    (n : nat) (start_pose end_pose : pose) (end_config : list R) (steps : Z) :
  (forall p o r, length (ik p o r) = n) ->
  length home = n -> length end_config = n -> (2 <= steps)%Z ->
  exists traj,
    task_space_path_interp home ik n start_pose end_pose end_config steps
    = Some traj /\
    length traj = Z.to_nat steps /\
    (forall row, In row traj -> length row = n) /\
    nth_error traj 0 = Some (clip_joint_vals home) /\
    nth_error traj (Z.to_nat steps - 1) = Some (clip_joint_vals end_config).
Proof.
  intros Hik Hh He Hsteps. unfold task_space_path_interp.
  destruct (pose_columns_defined start_pose end_pose steps ltac:(lia))
    as [cols [-> Hposes]].
  set (poses := Np.zip_star cols) in *.
  set (ns := Z.to_nat steps) in *.
  assert (Hns : (2 <= ns)%nat) by (unfold ns; lia).
  pose proof (zeros_shape ns n) as S0.
  set (jt1 := Np.set_row (Np.zeros ns n) 0 (clip_joint_vals home)).
  assert (E1 : Np.assign_row n (Np.zeros ns n) 0 (clip_joint_vals home)
               = Some jt1).
  { apply (assign_row_same_width n (Np.zeros ns n) 0 _ (Z.to_nat 0)).
    - apply py_index_nonneg. rewrite (proj1 S0). lia.
    - rewrite clip_joint_vals_length. exact Hh. }
  rewrite E1.
  assert (S1 : matrix_shape ns n jt1).
  { split; [unfold jt1; rewrite set_row_length; apply S0 |].
    intros r Hr. destruct (set_row_In _ _ _ _ Hr) as [-> | Hin].
    - rewrite clip_joint_vals_length. exact Hh.
    - apply (proj2 S0). exact Hin. }
  set (jt2 := Np.set_row jt1 (ns - 1) (clip_joint_vals end_config)).
  assert (E2 : Np.assign_row n jt1 (-1) (clip_joint_vals end_config)
               = Some jt2).
  { apply (assign_row_same_width n jt1 (-1) _ (ns - 1)).
    - rewrite <- (proj1 S1). apply py_index_last. rewrite (proj1 S1). lia.
    - rewrite clip_joint_vals_length. exact He. }
  rewrite E2.
  set (P := fun m : list (list R) =>
              matrix_shape ns n m /\
              nth_error m 0 = Some (clip_joint_vals home) /\
              nth_error m (ns - 1) = Some (clip_joint_vals end_config)).
  assert (P2 : P jt2).
  { unfold P, jt2. split; [| split].
    - split; [rewrite set_row_length; apply S1 |].
      intros r Hr. destruct (set_row_In _ _ _ _ Hr) as [-> | Hin].
      + rewrite clip_joint_vals_length. exact He.
      + apply (proj2 S1). exact Hin.
    - rewrite set_row_nth_error_other by lia.
      unfold jt1. apply set_row_nth_error_same. rewrite (proj1 S0). lia.
    - apply set_row_nth_error_same. rewrite (proj1 S1). lia. }
  assert (Hrow : forall m j, P m -> (0 <= j < Z.of_nat ns)%Z ->
                 exists r, Np.get_row m j = Some r /\ length r = n).
  { intros m j [[Hlen Hw] _] Hj.
    destruct (get_row_defined m j) as [r [Er Hr]]; [rewrite Hlen; exact Hj |].
    exists r. split; [exact Er | apply Hw; exact Hr]. }
  assert (Hfirst : forall m, P m ->
                   Np.get_row m 0 = Some (clip_joint_vals home)).
  { intros m [[Hlen _] [Hm0 _]].
    rewrite (get_row_nth_error m 0 0%nat); [exact Hm0 |].
    apply py_index_nonneg. rewrite Hlen. lia. }
  assert (Hlast : forall m, P m ->
                  Np.get_row m (-1) = Some (clip_joint_vals end_config)).
  { intros m [[Hlen _] [_ Hml]].
    rewrite (get_row_nth_error m (-1) (ns - 1)); [exact Hml |].
    rewrite <- Hlen. apply py_index_last. rewrite Hlen. lia. }
  destruct (fold_left_invariant P (ts_ik_step home ik n poses)
              (Np.range 1 (Z.of_nat (length jt2) - 1))) with (a := jt2)
    as [jt3 [-> P3]]; [| exact P2 |].
  { intros m i Hi Pm. apply range_In in Hi.
    rewrite (proj1 (proj1 P2)) in Hi. unfold ts_ik_step.
    destruct (get_row_defined poses i) as [pose_i [-> _]];
      [rewrite Hposes; lia |].
    destruct (Hrow m (i - 1)%Z Pm) as [prev [-> _]]; [lia |].
    destruct Pm as [Sm [Hm0 Hml]].
    apply assign_inner_row_any; try assumption; [lia |].
    left. rewrite clip_joint_vals_length. apply Hik. }
  pose proof (transition_steps_bound steps ltac:(lia)) as Hts.
  destruct (fold_left_invariant P
              (ts_smooth_start_step n (transition_steps_of steps))
              (Np.range 1 (transition_steps_of steps))) with (a := jt3)
    as [jt4 [-> P4]]; [| exact P3 |].
  { intros m i Hi Pm. apply range_In in Hi. unfold ts_smooth_start_step.
    rewrite (Hfirst m Pm).
    destruct (Hrow m i Pm) as [row [-> Hw]]; [unfold ns; lia |].
    destruct Pm as [Sm [Hm0 Hml]].
    apply assign_inner_row_any; try assumption; [unfold ns; lia |].
    left. rewrite blend_length, clip_joint_vals_length, Hh, Hw.
    apply Nat.min_id. }
  destruct (fold_left_invariant P
              (ts_smooth_end_step n steps (transition_steps_of steps))
              (Np.range (steps - transition_steps_of steps) (steps - 1)))
    with (a := jt4) as [jt5 [-> P5]]; [| exact P4 |].
  { intros m i Hi Pm. apply range_In in Hi. unfold ts_smooth_end_step.
    destruct (Hrow m i Pm) as [row [-> Hw]]; [unfold ns; lia |].
    rewrite (Hlast m Pm).
    destruct Pm as [Sm [Hm0 Hml]].
    apply assign_inner_row_any; try assumption; [unfold ns; lia |].
    left. rewrite blend_length, clip_joint_vals_length, He, Hw.
    apply Nat.min_id. }
  exists jt5. destruct P5 as [[Hl Hw] [H0 H1]]. auto.
Qed.

Lemma task_space_path_interp_endpoints_witness :
  exists traj,
    task_space_path_interp
      [10; 0] (fun _ _ _ => [0; 0]) 2
      (mk_vec3 0 0 0, mk_quat 0 0 0 1) (mk_vec3 0.3 0 0, mk_quat 0 0 0 1)
      [0; -12] 100 = Some traj /\
    length traj = 100%nat /\
    nth_error traj 0 = Some (clip_joint_vals [10; 0]) /\
    nth_error traj 99 = Some (clip_joint_vals [0; -12]).
Proof.
  destruct (task_space_path_interp_endpoints
              [10; 0] (fun _ _ _ => [0; 0]) 2
              (mk_vec3 0 0 0, mk_quat 0 0 0 1)
              (mk_vec3 0.3 0 0, mk_quat 0 0 0 1) [0; -12] 100)
    as [traj [E [Hl [_ [H0 H1]]]]]; try reflexivity; try lia.
  exists traj. auto.
Defined.

(** X27: with fewer than two steps [task_space_path_interp] has no room for
    both endpoints: [steps <= 0] raises, and for [steps = 1] (home and end
    configurations of [n] values) the single row returned is the normalised
    end configuration, written over the home configuration. *)
Theorem task_space_path_interp_small_steps
    (home : list R) (ik : list R -> option (list R) -> list R -> list R)
    (n : nat) (start_pose end_pose : pose) (end_config : list R) :
  (forall steps, (steps <= 0)%Z ->
     task_space_path_interp home ik n start_pose end_pose end_config steps
     = None) /\
  (length home = n -> length end_config = n ->
   task_space_path_interp home ik n start_pose end_pose end_config 1
   = Some [clip_joint_vals end_config]).
Proof.
  split.
  - intros steps Hs. unfold task_space_path_interp.
    destruct (Z.eq_dec steps 0) as [-> | Hne].
    + destruct (pose_columns_defined start_pose end_pose 0 ltac:(lia))
        as [cols [-> _]].
      reflexivity.
    + rewrite sequence_none; [reflexivity |].
      destruct start_pose as [v q], end_pose as [v' q'].
      left. apply linspace_z_negative. lia.
  - intros Hh He. unfold task_space_path_interp.
    destruct (pose_columns_defined start_pose end_pose 1 ltac:(lia))
      as [cols [-> _]].
    change (Np.zeros (Z.to_nat 1) n) with [repeat 0 n].
    unfold Np.assign_row at 1. cbn [length].
    rewrite (py_index_nonneg 1 0) by lia.
    rewrite broadcast_to_same by (rewrite clip_joint_vals_length; exact Hh).
    change (Np.set_row [repeat 0 n] (Z.to_nat 0) (clip_joint_vals home))
      with [clip_joint_vals home].
    unfold Np.assign_row at 1. cbn [length].
    rewrite (py_index_last 1) by lia.
    rewrite broadcast_to_same by (rewrite clip_joint_vals_length; exact He).
    reflexivity.
Qed.

Lemma task_space_path_interp_small_steps_witness :
  task_space_path_interp
    [10; 0] (fun _ _ _ => [0; 0]) 2
    (mk_vec3 0 0 0, mk_quat 0 0 0 1) (mk_vec3 0.3 0 0, mk_quat 0 0 0 1)
    [0; 1] 1 = Some [clip_joint_vals [0; 1]].
Proof.
  apply (proj2 (task_space_path_interp_small_steps
                  [10; 0] (fun _ _ _ => [0; 0]) 2
                  (mk_vec3 0 0 0, mk_quat 0 0 0 1)
                  (mk_vec3 0.3 0 0, mk_quat 0 0 0 1) [0; 1]));
    reflexivity.
Defined.

(** ** The chain of seeds in the waypoints *)

Lemma py_index_beyond len i :
  (Z.of_nat len <= i)%Z -> Np.py_index len i = None.
Proof.
  intros H. unfold Np.py_index.
  destruct (Z.leb_spec 0 i), (Z.ltb_spec i (Z.of_nat len)); try lia.
  cbn [andb].
  destruct (Z.leb_spec (- Z.of_nat len) i), (Z.ltb_spec i 0); try lia;
    reflexivity.
Qed.

Section WaypointChain.

Variable home : list R.
Variable ik : list R -> option (list R) -> list R -> list R.
Variable poses : list (list R).
Variables r0 rl : list R.

(** The state of the waypoint loop after pass [k]. *)
Let chain_upto (k : nat) (m : list (list R)) : Prop :=
  matrix_shape 27 6 m /\
  nth_error m 0 = Some r0 /\ nth_error m 26 = Some rl /\
  forall i, (1 <= i <= k)%nat -> seeded_by_previous ik poses m i.

Lemma ik_step_chain k m m' :
  (k < 25)%nat -> chain_upto k m ->
  ik_step home ik poses (Some m) (Z.of_nat (S k)) = Some m' ->
  chain_upto (S k) m'.
Proof.
  intros Hk [Sm [H0 [Hl Hc]]] E. unfold ik_step in E.
  destruct (Np.get_row poses (Z.of_nat (S k))) as [pose_i |] eqn:Ep;
    [| discriminate].
  destruct (Np.get_row m (Z.of_nat (S k) - 1)) as [prev |] eqn:Eprev;
    [| discriminate].
  assert (Hprev : nth_error m k = Some prev).
  { rewrite (get_row_nth_error m _ k) in Eprev; [exact Eprev |].
    rewrite py_index_nonneg by (rewrite (proj1 Sm); lia). f_equal. lia. }
  assert (Hpose : nth_error poses (S k) = Some pose_i).
  { destruct (Z.ltb_spec (Z.of_nat (S k)) (Z.of_nat (length poses))).
    - rewrite (get_row_nth_error poses _ (S k)) in Ep; [exact Ep |].
      rewrite py_index_nonneg by lia. f_equal. lia.
    - unfold Np.get_row in Ep. rewrite py_index_beyond in Ep by lia.
      discriminate. }
  destruct (assign_row_some _ _ _ _ _ E) as [j [row [Hj [Hb ->]]]].
  rewrite py_index_nonneg in Hj by (rewrite (proj1 Sm); lia).
  assert (Ej : j = S k) by (injection Hj as Hj; lia).
  subst j. clear Hj.
  pose proof (assign_row_shape _ _ _ _ _ _ E Sm) as Sm'.
  split; [| split; [| split]].
  - split; [rewrite set_row_length; apply Sm |].
    intros r Hr. destruct (set_row_In _ _ _ _ Hr) as [-> | Hin].
    + apply (broadcast_to_some _ _ _ Hb).
    + apply (proj2 Sm). exact Hin.
  - rewrite set_row_nth_error_other by lia. exact H0.
  - rewrite set_row_nth_error_other by lia. exact Hl.
  - intros i Hi. destruct (Nat.eq_dec i (S k)) as [-> | Hne].
    + exists pose_i, prev, row. split; [exact Hpose |]. split.
      * replace (S k - 1)%nat with k by lia.
        rewrite set_row_nth_error_other by lia. exact Hprev.
      * split; [| exact Hb].
        apply set_row_nth_error_same. rewrite (proj1 Sm). lia.
    + destruct (Hc i ltac:(lia)) as [p [q [r [Hp [Hq [Hr Hbr]]]]]].
      exists p, q, r. split; [exact Hp |].
      rewrite !set_row_nth_error_other by lia. auto.
Qed.

Lemma ik_loop_chain cnt : forall k m m',
  (k + cnt <= 25)%nat -> chain_upto k m ->
  fold_left (ik_step home ik poses)
            (map (fun j => (Z.of_nat (S k) + Z.of_nat j)%Z) (seq 0 cnt))
            (Some m) = Some m' ->
  chain_upto (k + cnt) m'.
Proof.
  induction cnt as [| cnt IH]; intros k m m' Hk Hm E.
  - simpl in E. injection E as <-. rewrite Nat.add_0_r. exact Hm.
  - rewrite <- cons_seq, <- seq_shift in E. cbn [map fold_left] in E.
    rewrite map_map in E. change (Z.of_nat 0) with 0%Z in E.
    rewrite Z.add_0_r in E.
    destruct (ik_step home ik poses (Some m) (Z.of_nat (S k))) as [m1 |] eqn:E1.
    + replace (k + S cnt)%nat with (S k + cnt)%nat by lia.
      apply (IH (S k) m1 m'); [lia | |].
      * apply (ik_step_chain k m m1); [lia | exact Hm | exact E1].
      * rewrite <- E. f_equal. apply map_ext. intros j. lia.
    + rewrite fold_left_none in E by reflexivity. discriminate.
Qed.

End WaypointChain.

(** X28: in the waypoint array built by [task_and_joint_interp], row 0 is the
    start configuration, row 26 the end configuration, and each row [i] from 1
    to 25 is the normalised inverse-kinematics solution for the [i]-th of the
    27 evenly spaced poses, seeded with row [i - 1]: every solve is warm
    started from the solution before it. *)
Theorem waypoints_seeded
    (home : list R) (ik : list R -> option (list R) -> list R -> list R)
    (start_pose end_pose : pose) (s e : list R)
    (joint_traj : list (list R)) :
  waypoints home ik start_pose end_pose s e = Some joint_traj ->
  Np.broadcast_to 6 s = nth_error joint_traj 0 /\
  Np.broadcast_to 6 e = nth_error joint_traj 26 /\
  forall i, (1 <= i <= 25)%nat ->
    seeded_by_previous ik
      (Np.linspace_vec (pose_array start_pose) (pose_array end_pose) 27)
      joint_traj i.
Proof.
  unfold waypoints. intros H.
  change (num_midpoints + 2)%nat with 27%nat in H. unfold traj_width in H.
  destruct (Np.assign_row 6 _ 0 s) as [jt1 |] eqn:E1; [| discriminate].
  destruct (Np.assign_row 6 jt1 (-1) e) as [jt2 |] eqn:E2; [| discriminate].
  pose proof (assign_row_shape 27 6 _ _ _ _ E1 (zeros_shape 27 6)) as S1.
  pose proof (assign_row_shape 27 6 _ _ _ _ E2 S1) as S2.
  destruct (assign_row_some _ _ _ _ _ E1) as [k1 [row1 [Hk1 [Hb1 ->]]]].
  destruct (assign_row_some _ _ _ _ _ E2) as [k2 [row2 [Hk2 [Hb2 ->]]]].
  rewrite py_index_nonneg in Hk1
    by (rewrite (proj1 (zeros_shape 27 6)); lia).
  injection Hk1 as <-.
  rewrite (proj1 S1), py_index_last in Hk2 by lia.
  injection Hk2 as <-.
  rewrite (proj1 S2) in H.
  change (Np.range 1 (Z.of_nat 27 - 1))
    with (map (fun j => (Z.of_nat 1 + Z.of_nat j)%Z) (seq 0 25)) in H.
  pose proof (ik_loop_chain home ik
                (Np.linspace_vec (pose_array start_pose)
                                 (pose_array end_pose) 27)
                row1 row2 25 0
                (Np.set_row (Np.set_row (Np.zeros 27 6) 0 row1) 26 row2)
                joint_traj ltac:(lia)) as Hchain.
  cbv zeta in Hchain.
  destruct Hchain as [_ [H0 [Hl Hc]]]; [| exact H |].
  - split; [exact S2 |]. split; [| split].
    + rewrite set_row_nth_error_other by (simpl; lia).
      apply set_row_nth_error_same.
      rewrite (proj1 (zeros_shape 27 6)). lia.
    + apply set_row_nth_error_same. rewrite (proj1 S1). simpl. lia.
    + intros i Hi. lia.
  - rewrite Hb1, Hb2. split; [symmetry; exact H0 |].
    split; [symmetry; exact Hl |]. exact Hc.
Qed.

Lemma waypoints_seeded_witness :
  exists joint_traj,
    waypoints [0; 0; 0; 0; 0; 0] (fun _ _ _ => [0.1; 0; 0; 0; 0; 0])
              (mk_vec3 0 0 0, mk_quat 0 0 0 1)
              (mk_vec3 0.3 0 0, mk_quat 0 0 0 1)
              [0; 0; 0; 0; 0; 0] [1; 1; 1; 1; 1; 1] = Some joint_traj /\
    seeded_by_previous (fun _ _ _ => [0.1; 0; 0; 0; 0; 0])
      (Np.linspace_vec (pose_array (mk_vec3 0 0 0, mk_quat 0 0 0 1))
                       (pose_array (mk_vec3 0.3 0 0, mk_quat 0 0 0 1)) 27)
      joint_traj 1.
Proof.
  destruct (waypoints_defined
              [0; 0; 0; 0; 0; 0] (fun _ _ _ => [0.1; 0; 0; 0; 0; 0])
              (mk_vec3 0 0 0, mk_quat 0 0 0 1)
              (mk_vec3 0.3 0 0, mk_quat 0 0 0 1)
              [0; 0; 0; 0; 0; 0] [1; 1; 1; 1; 1; 1])
    as [jt [E _]]; try (left; reflexivity).
  exists jt. split; [exact E |].
  apply (waypoints_seeded _ _ _ _ _ _ _ E). lia.
Defined.

(** ** The planner without a target position *)

Section RrtWithoutTarget.

Variable home_config : list R.
Variable calculateInverseKinematics :
  list R -> option (list R) -> list R -> list R.
Variable end_effector_position_at : list R -> vec3.
Variable random_uniform : nat -> list R.
Variables extend_fn collision_fn distance_fn : Type.
Variable get_extend_fn : option extend_fn.
Variable get_collision_fn : option (list Z) -> option collision_fn.
Variable get_distance_fn : option distance_fn.
Variable collision_objects : option (list Z).
Variable rrt_connect :
  list R -> list R -> extend_fn -> collision_fn -> distance_fn -> Z ->
  planner_run.

(** X29: with [target_pos] left at its default [None], every call of the
    sampler raises, so [rrt_path] returns only when the planner returns
    without drawing a single sample; a planner run that draws a sample makes
    [rrt_path] raise. *)
Theorem rrt_path_without_target
    (start_positions end_positions : list R) (steps rrt_iter : Z)
    (result : option (list (list R))) :
  rrt_path home_config calculateInverseKinematics end_effector_position_at
           random_uniform extend_fn collision_fn distance_fn
           get_extend_fn get_collision_fn get_distance_fn collision_objects
           rrt_connect start_positions end_positions None steps rrt_iter
  = Some result ->
  exists extend collision distance path,
    get_extend_fn = Some extend /\
    get_collision_fn collision_objects = Some collision /\
    get_distance_fn = Some distance /\
    rrt_connect start_positions end_positions extend collision distance
                rrt_iter
    = planner_return path.
Proof.
  unfold rrt_path.
  destruct get_extend_fn as [extend |]; [| discriminate].
  destruct (get_collision_fn collision_objects) as [collision |];
    [| discriminate].
  destruct get_distance_fn as [distance |]; [| discriminate].
  destruct (rrt_connect start_positions end_positions extend collision
                        distance rrt_iter) as [path | | continue] eqn:E;
    cbn [run_planner]; [| discriminate | discriminate].
  intros _. exists extend, collision, distance, path.
  repeat split; try reflexivity. exact E.
Qed.

End RrtWithoutTarget.

Lemma rrt_path_without_target_witness :
  exists (extend collision distance : unit) path,
    Some tt = Some extend /\
    Some tt = Some collision /\
    Some tt = Some distance /\
    planner_return None = planner_return path.
Proof.
  exact (rrt_path_without_target
           [0] (fun _ _ _ => [0.5]) (fun _ => mk_vec3 0 0 0) (fun _ => [0.2])
           unit unit unit (Some tt) (fun _ => Some tt) (Some tt) (Some [])
           (fun _ _ _ _ _ _ => planner_return None)
           [0] [1] 100 500 None eq_refl).
Defined.

(** ** The pose check on a zero quaternion *)

(** X30: when the achieved or the target orientation is the zero quaternion,
    the relative quaternion is nan and the check fails, whatever the
    positions and the tolerances. *)
Theorem check_pose_within_tolerance_zero_quat (flip : quat -> quat -> bool)
    (pa : vec3) (qa : quat) (pb : vec3) (qb : quat)
    (pos_tolerance ori_tolerance : R) :
  qa = mk_quat 0 0 0 0 \/ qb = mk_quat 0 0 0 0 ->
  check_pose_within_tolerance flip pa qa pb qb pos_tolerance ori_tolerance
  = false.
Proof.
  intros H. apply check_pose_within_tolerance_nan.
  rewrite !quat_norm2_zero_iff. exact H.
Qed.

Lemma check_pose_within_tolerance_zero_quat_witness :
  check_pose_within_tolerance (fun _ _ => false)
    (mk_vec3 0.3 0 0.5) (mk_quat 0 0 0 1)
    (mk_vec3 0.3 0 0.5) (mk_quat 0 0 0 0) 10 10 = false.
Proof.
  apply check_pose_within_tolerance_zero_quat. right. reflexivity.
Defined.
